(** * binmerge: overlap detection and merging of binary files

    A shallow embedding of [binmerge.cpp] (version 0.2.0, the variant
    with [--best]) and the properties of its search, comparison,
    refinement and assembly code, and of its report ([getFilename],
    [printResults]). [main] leaves the console output out;
    [main_traced] is [main] with the calls that print the names of the
    files, which can raise. The text of the trace lines and the parsing
    of the command line are left out.

    Conventions of the embedding.
    - [unsigned char] is [Byte.byte]; a file is the list of its bytes.
    - [std::ifstream] is a record of the file's bytes, the get position
      and the state flags, with the semantics of the C++ library for
      [clear], [seekg], [read], [gcount], [eof], [operator bool] and the
      stream-buffer iterators. Its device may fail at one offset, and it
      keeps a ghost log of its reads.
    - [std::size_t] counters are [nat]: they count bytes of files that are
      held as lists, so they stay far below [2^64]. The places where the
      source leaves that range are written out: the stop index of the
      search for an empty pattern, the negated seek offset of the
      comparison and the subtraction inside [quota].
    - [double] is modelled by the exact rational ([Q]) it approximates.
      The comparison with [0.7] agrees with the one on doubles for
      overlaps below [2^52] bytes, the comparison of two quotas for
      overlaps below [2^26] bytes.
    - a [while] loop whose termination depends on its input takes a fuel
      argument; [None] means the loop was still running when the fuel ran
      out.
    - an exception that nothing catches ([std::system_error]) is the
      result [Throw]. *)

From Stdlib Require Import String List Arith Bool Lia ZArith QArith.
Import ListNotations.
Local Close Scope Q_scope.
Local Open Scope nat_scope.

Definition byte := Byte.byte.

(** ** Results of fallible code *)

Inductive res (A : Type) : Type :=
| Ok (a : A)
| Throw.
Arguments Ok {A} a.
Arguments Throw {A}.

(** ** [std::ifstream] over a regular file *)

Module IStream.

(** One call of [read], as seen from outside: how many bytes were asked
for, how many came back, and whether the get position was at the
end of the file afterwards. The list of them is ghost state. *)
Record rd_event : Type := RdEvent {
requested : nat;
delivered : nat;
at_eos : bool
}.

Record istream : Type := mkStream {
content : list byte;      (* the bytes of the file *)
gpos : nat;               (* get position of the file buffer *)
eofbit : bool;
failbit : bool;
badbit : bool;
ioerr : option nat;       (* offset at which the device fails to read *)
reads : list rd_event     (* ghost: the reads so far, latest first *)
}.

Definition open (bytes : list byte) : istream :=
mkStream bytes 0 false false false None [].

Definition size (f : istream) : nat := length (content f).

Definition good (f : istream) : bool :=
negb (eofbit f || failbit f || badbit f).

Definition fail (f : istream) : bool := failbit f || badbit f.

(** [operator bool], the test of [while (file)] *)
Definition ok (f : istream) : bool := negb (fail f).

Definition eof (f : istream) : bool := eofbit f.

Definition clear (f : istream) : istream :=
mkStream (content f) (gpos f) false false false (ioerr f) (reads f).

Definition set_failbit (f : istream) : istream :=
mkStream (content f) (gpos f) (eofbit f) true (badbit f) (ioerr f) (reads f).

Definition set_gpos (f : istream) (p : nat) : istream :=
mkStream (content f) p (eofbit f) (failbit f) (badbit f) (ioerr f) (reads f).

Definition clear_eofbit (f : istream) : istream :=
mkStream (content f) (gpos f) false (failbit f) (badbit f) (ioerr f) (reads f).

(** [seekg(pos)]: eofbit is cleared first; a stream that is still not
good gets failbit and does not move; a file may be positioned past
its end. *)
Definition seekg (f : istream) (pos : nat) : istream :=
let f := clear_eofbit f in
if fail f then set_failbit f else set_gpos f pos.

(** [seekg(off, std::ios_base::end)]: a target before the first byte
is refused, which sets failbit and leaves the position where it
was. *)
Definition seekg_end (f : istream) (off : Z) : istream :=
let f := clear_eofbit f in
if fail f then set_failbit f
else
let target := (Z.of_nat (size f) + off)%Z in
if (target <? 0)%Z then set_failbit f else set_gpos f (Z.to_nat target).

Definition ends_at_eos (f : istream) : bool := size f <=? gpos f.

Definition log (f : istream) (n got : nat) : istream :=
mkStream (content f) (gpos f) (eofbit f) (failbit f) (badbit f) (ioerr f)
   (RdEvent n got (ends_at_eos f) :: reads f).

(** The device fails when a read needs the byte at offset [ioerr]. *)
Definition hits_ioerr (f : istream) (n : nat) : bool :=
match ioerr f with
| Some e => (gpos f <=? e) && (e <? gpos f + n) && (e <? size f)
| None => false
end.

(** [read(buf, n)] followed by [gcount()]: the bytes delivered and the
stream afterwards.
- on a stream that is not good the sentry fails: failbit, no byte;
- when the device fails the file buffer raises, [read] catches it
and sets badbit, and [gcount()] is 0;
- otherwise up to [n] bytes are delivered, and fewer than [n] set
eofbit and failbit. *)
Definition read (f : istream) (n : nat) : list byte * istream :=
if negb (good f) then ([], log (set_failbit f) n 0)
else if hits_ioerr f n then
([], log (mkStream (content f) (gpos f) (eofbit f) (failbit f) true
               (ioerr f) (reads f)) n 0)
else
let bs := firstn n (skipn (gpos f) (content f)) in
let short := length bs <? n in
(bs, log (mkStream (content f) (gpos f + length bs)
               (eofbit f || short) (failbit f || short) (badbit f)
               (ioerr f) (reads f)) n (length bs)).

(** The range [istreambuf_iterator<char>(f), istreambuf_iterator<char>()]:
every byte the file buffer still holds, whatever the flags of the
stream say; the flags are not touched. A device failure raises out
of the iterator. *)
Definition rdbuf_rest (f : istream) : res (list byte) * istream :=
if hits_ioerr f (size f - gpos f) then (Throw, f)
else (Ok (skipn (gpos f) (content f)), set_gpos f (Nat.max (gpos f) (size f))).

End IStream.
Import IStream.

(** ** [struct MatchResult] *)

Record MatchResult : Type := mkMatchResult {
  patternFound : bool;
  matchPosition : nat;
  patternSize : nat;
  bytesDiffering : nat
}.

(** [MatchResult{}]: the default member initializers *)
Definition MatchResult_default : MatchResult := mkMatchResult false 0 0 0.

Definition overlapCount (r : MatchResult) : nat :=
  matchPosition r + patternSize r.

(** The number of values of [std::size_t], 2^64. *)
Definition size_t_range : Z := 18446744073709551616.

(** [overlapCount()-bytesDiffering] on [std::size_t]: wraps below zero. *)
Definition size_t_sub (a b : nat) : Z :=
  if b <=? a then Z.of_nat (a - b) else (size_t_range - Z.of_nat (b - a))%Z.

Definition quota (r : MatchResult) : Q :=
  if negb (patternFound r) || (overlapCount r =? 0) then 0%Q
  else (inject_Z (size_t_sub (overlapCount r) (bytesDiffering r))
        / inject_Z (Z.of_nat (overlapCount r)))%Q.

Arguments size_t_sub : simpl never.
Arguments quota : simpl never.

(** [a > b] on quotas *)
Definition Qgtb (a b : Q) : bool := negb (Qle_bool a b).

(** ** [std::search] *)

Fixpoint starts_with (h n : list byte) {struct n} : bool :=
  match n, h with
  | [], _ => true
  | _ :: _, [] => false
  | x :: n', y :: h' => Byte.eqb x y && starts_with h' n'
  end.

(** Distance from [first] of the first occurrence of [n] in [h]; the
    length of [h], that is [last], when there is none. An empty [n] is
    found at [first]. *)
Fixpoint std_search (h n : list byte) : nat :=
  if starts_with h n then 0
  else match h with
       | [] => 0
       | _ :: h' => S (std_search h' n)
       end.

(** ** [searchInFile] *)

(** [bytesReadPreviously + pattern.size() - 1] on [std::size_t]: for an
    empty pattern and an empty first half the subtraction wraps to the
    largest value, and [std::min] then picks its other argument. *)
Definition stop_index (bytesReadPreviously patternSize realBufferSize : nat) : nat :=
  if bytesReadPreviously + patternSize =? 0 then realBufferSize
  else Nat.min (bytesReadPreviously + patternSize - 1) realBufferSize.

Section Blocks.

(** [constexpr std::size_t blockSize = 4096] in the source; a variable
here so that its role can be stated. *)
Variable blockSize : nat.

(** The [while] loop of [searchInFile]. [buffer] holds the filled part
of the rolling array: no slot past the fill level is read, since
the searched range ends at or before [realBufferSize]. *)
Fixpoint search_loop (fuel : nat) (file : istream) (pattern buffer : list byte)
 (bytesReadPreviously realBufferSize position : nat)
: option (res MatchResult * istream) :=
match fuel with
| 0 => None
| S fuel' =>
if ok file || (length pattern <=? realBufferSize) then
(* Pre-read next block and append to current block *)
let '(block, file) := read file blockSize in
let bytesRead := length block in
if (bytesRead <? blockSize) && negb (eof file) then Some (Throw, file)
else
  let realBufferSize := bytesReadPreviously + bytesRead in
  let buffer := firstn bytesReadPreviously buffer ++ block in
  let stop := stop_index bytesReadPreviously (length pattern) realBufferSize in
  let result := std_search (firstn stop buffer) pattern in
  if negb (result =? stop) then
    Some (Ok (mkMatchResult true (position + result) (length pattern) 0), file)
  else
    search_loop fuel' file pattern (skipn bytesReadPreviously buffer)
                bytesRead realBufferSize (position + bytesReadPreviously)
else Some (Ok MatchResult_default, file)
end.

Definition searchInFile (fuel : nat) (file : istream) (pattern : list byte) (pos : nat)
: option (res MatchResult * istream) :=
let file := clear file in
let file := seekg file pos in
let '(block, file) := read file blockSize in
let bytesReadPreviously := length block in
if (bytesReadPreviously <? blockSize) && negb (eof file) then Some (Throw, file)
else search_loop fuel file pattern block bytesReadPreviously bytesReadPreviously pos.

(** ** [compareFiles] *)

(** The [for] loop over [buffer1] and [buffer2]: how many of the first
[numberOfBytes] positions differ. *)
Definition count_differences (buffer1 buffer2 : list byte) (numberOfBytes : nat) : nat :=
length (filter (fun i => negb (Byte.eqb (nth i buffer1 Byte.x00) (nth i buffer2 Byte.x00)))
           (seq 0 numberOfBytes)).

(** The [do ... while (file1 && file2)] loop; [bytesTotal] is kept as
the source keeps it, although nothing reads it. *)
Fixpoint compare_loop (fuel : nat) (file1 file2 : istream) (bytesTotal bytesDifferent : nat)
: option (res nat * (istream * istream)) :=
match fuel with
| 0 => None
| S fuel' =>
let '(buffer1, file1) := read file1 blockSize in
let '(buffer2, file2) := read file2 blockSize in
let bytesRead1 := length buffer1 in
let bytesRead2 := length buffer2 in
if ((bytesRead1 <? blockSize) && negb (eof file1))
 || ((bytesRead2 <? blockSize) && negb (eof file2))
then Some (Throw, (file1, file2))
else
let numberOfBytes := Nat.min bytesRead1 bytesRead2 in
let bytesTotal := bytesTotal + numberOfBytes in
let bytesDifferent :=
  bytesDifferent + count_differences buffer1 buffer2 numberOfBytes in
if ok file1 && ok file2
then compare_loop fuel' file1 file2 bytesTotal bytesDifferent
else Some (Ok bytesDifferent, (file1, file2))
end.

Definition compareFiles (fuel : nat) (file1 file2 : istream)
: option (res nat * (istream * istream)) :=
compare_loop fuel file1 file2 0 0.

(** ** The scan phase of [main] *)

(** "Extract last 20 bytes": [clear], [seekg(-20, end)], then the
iterator range up to the end of the file buffer. *)
Definition extract_pattern (file1 : istream) : res (list byte) * istream :=
let file1 := clear file1 in
let file1 := seekg_end file1 (-20) in
rdbuf_rest file1.

Definition with_bytesDiffering (r : MatchResult) (d : nat) : MatchResult :=
mkMatchResult (patternFound r) (matchPosition r) (patternSize r) d.

(** [0.7] *)
Definition threshold : Q := 7 # 10.

(** The loop [while (lastResult.patternFound)]. [n] bounds the number
of its iterations and [fuel] the loops of the two callees.
[examined] is a ghost variable: the candidates scored so far,
latest first; no branch reads it. The seek offset
[-lastResult.overlapCount()] is the negation of an unsigned count
read back as a signed offset. *)
Fixpoint refine_loop (fuel n : nat) (best : bool) (pattern : list byte)
 (file1 file2 : istream) (result lastResult : MatchResult)
 (examined : list MatchResult)
: option (res (MatchResult * list MatchResult) * (istream * istream)) :=
match n with
| 0 => None
| S n' =>
if patternFound lastResult then
let file1 := clear file1 in
let file2 := clear file2 in
let file1 := seekg_end file1 (- Z.of_nat (overlapCount lastResult)) in
let file2 := seekg file2 0 in
match compareFiles fuel file1 file2 with
| None => None
| Some (Throw, files) => Some (Throw, files)
| Some (Ok diff, (file1, file2)) =>
    let lastResult := with_bytesDiffering lastResult diff in
    let examined := lastResult :: examined in
    let result :=
      if Qgtb (quota lastResult) (quota result) then lastResult else result in
    if Qgtb (quota result) threshold || negb best
    then Some (Ok (result, examined), (file1, file2))
    else
      let previousMatchPos := matchPosition lastResult in
      match searchInFile fuel file2 pattern (previousMatchPos + 1) with
      | None => None
      | Some (Throw, file2) => Some (Throw, (file1, file2))
      | Some (Ok lastResult, file2) =>
          refine_loop fuel n' best pattern file1 file2 result lastResult examined
      end
end
else Some (Ok (result, examined), (file1, file2))
end.

(** One pair: the first search, then the loop. *)
Definition refine (fuel : nat) (best : bool) (pattern : list byte)
   (file1 file2 : istream)
: option (res (MatchResult * list MatchResult) * (istream * istream)) :=
match searchInFile fuel file2 pattern 0 with
| None => None
| Some (Throw, file2) => Some (Throw, (file1, file2))
| Some (Ok lastResult, file2) =>
refine_loop fuel fuel best pattern file1 file2 MatchResult_default lastResult []
end.

(** The files the program can open, by name. *)
Definition filesystem : Type := String.string -> option (list byte).

Inductive scan_result : Type :=
| ScanDone (searchResults : list MatchResult)
| ScanOpenFailed                 (* [return 1] *)
| ScanThrow.                     (* an exception leaves [main] *)

(** The loop [for (int i = 1; i < fileNames.size(); ++i)] over the
names after the first; [file1] is the predecessor's stream, kept
across iterations by [file1.swap(file2)]. *)
Fixpoint scan (fuel : nat) (best : bool) (fs : filesystem) (file1 : istream)
 (names : list String.string) (searchResults : list MatchResult)
: option scan_result :=
match names with
| [] => Some (ScanDone searchResults)
| name :: names' =>
match extract_pattern file1 with
| (Throw, _) => Some ScanThrow
| (Ok pattern, file1) =>
  match fs name with
  | None => Some ScanOpenFailed
  | Some bytes =>
      match refine fuel best pattern file1 (open bytes) with
      | None => None
      | Some (Throw, _) => Some ScanThrow
      | Some (Ok (result, _), (_, file2)) =>
          scan fuel best fs file2 names' (searchResults ++ [result])
      end
  end
end
end.

End Blocks.

(** ** [mergeFiles] *)

(** [std::ofstream]: what was written, and failbit. *)
Record ostream : Type := mkOut {
  written : list byte;
  ofailbit : bool
}.

(** [outputFile << inputFile.rdbuf()]: on a failed output stream the
    sentry refuses; otherwise the rest of the input's file buffer is
    inserted, and inserting no byte at all sets failbit. *)
Definition insert_rdbuf (outputFile : ostream) (inputFile : istream) : ostream :=
  if ofailbit outputFile then outputFile
  else match skipn (gpos inputFile) (content inputFile) with
       | [] => mkOut (written outputFile) true
       | bs => mkOut (written outputFile ++ bs) false
       end.

(** The [for] loop of [mergeFiles] from index [i] on. A name that does
    not open ends the function. [searchResults[i-1]] is read with a
    default: [main] passes one result per pair, and the source has no
    defined behaviour past the vector. *)
Fixpoint merge_loop (fs : filesystem) (names : list String.string)
         (searchResults : list MatchResult) (i : nat) (outputFile : ostream) : ostream :=
  match names with
  | [] => outputFile
  | name :: names' =>
      match fs name with
      | None => outputFile
      | Some bytes =>
          let inputFile := open bytes in
          let previous := nth (i - 1) searchResults MatchResult_default in
          let inputFile :=
            if (0 <? i) && patternFound previous
            then seekg inputFile (overlapCount previous)
            else inputFile in
          merge_loop fs names' searchResults (S i) (insert_rdbuf outputFile inputFile)
      end
  end.

(** [None]: the output file did not open and nothing exists; otherwise
    the output stream when the function returns. *)
Definition mergeFiles (fs : filesystem) (fileNames : list String.string)
           (searchResults : list MatchResult) (outputOpens : bool) : option ostream :=
  if outputOpens then Some (merge_loop fs fileNames searchResults 0 (mkOut [] false))
  else None.

(** ** [main] *)

Definition blockSize : nat := 4096.

Inductive outcome : Type :=
| Exit (status : nat) (output : option (list byte))
| Terminated.                      (* [std::terminate] on an uncaught exception *)

(** [fileNames] is [file0 :: files] (the usage asks for two names at
    least); [best] is [--best]; [decision] tells whether the answer to
    "Merge files (y/n)?" was [y] or [Y]. The output file is a sink of its
    own, not one of the inputs. *)
Definition main (fuel : nat) (fs : filesystem) (best outputOpens decision : bool)
           (file0 : String.string) (files : list String.string) : option outcome :=
  match fs file0 with
  | None => Some (Exit 1 None)
  | Some bytes =>
      match scan blockSize fuel best fs (open bytes) files [] with
      | None => None
      | Some ScanThrow => Some Terminated
      | Some ScanOpenFailed => Some (Exit 1 None)
      | Some (ScanDone searchResults) =>
          if decision
          then Some (Exit 0 (option_map written
                               (mergeFiles fs (file0 :: files) searchResults outputOpens)))
          else Some (Exit 0 None)
      end
  end.

(** * The console report *)

(** ** [getFilename] *)

(** The two path separators the function looks for. *)
Definition backslash : Ascii.ascii := Ascii.ascii_of_nat 92.
Definition slash : Ascii.ascii := Ascii.ascii_of_nat 47.

(** The index of the last [c] in [s], counted from [i] for the first
    character; [None] when there is none. *)
Fixpoint find_last_from (s : string) (c : Ascii.ascii) (i : nat) : option nat :=
  match s with
  | EmptyString => None
  | String a s' =>
      match find_last_from s' c (S i) with
      | Some j => Some j
      | None => if Ascii.eqb a c then Some i else None
      end
  end.

(** [s.find_last_of(c)] for a set of one character; [None] is [npos]. *)
Definition find_last_of (s : string) (c : Ascii.ascii) : option nat :=
  find_last_from s c 0.

(** [index + 1] on [std::size_t]: [npos + 1] wraps to 0. *)
Definition next_index (index : option nat) : nat :=
  match index with
  | Some i => i + 1
  | None => 0
  end.

Fixpoint drop (n : nat) (s : string) : string :=
  match n, s with
  | 0, _ => s
  | S _, EmptyString => EmptyString
  | S n', String _ s' => drop n' s'
  end.

(** [s.substr(pos)]: the characters from [pos] on; [std::out_of_range]
    when [pos] lies past the end. *)
Definition substr (s : string) (pos : nat) : res string :=
  if String.length s <? pos then Throw else Ok (drop pos s).

(** Both indices are taken in [path]; the second one is applied to what
    the first [substr] returned. *)
Definition getFilename (path : string) : res string :=
  match substr path (next_index (find_last_of path backslash)) with
  | Throw => Throw
  | Ok name => substr name (next_index (find_last_of path slash))
  end.

(** ** [printResults] *)

(** The lines of the summary. [percent] is the exact value of
    [100.0 * quota()], which the source rounds to a [float] and prints
    with the default precision. *)
Inductive report_line : Type :=
| Heading                                    (* Summary: *)
| FileLine (number : nat) (name : string)    (* File <number>: <name> *)
| OverlapLine (percent : Q) (bytes : nat)    (*  |-> overlap <percent>% (out of <bytes> bytes) *)
| NoMatchLine.                               (*  |-> no match *)

(** The [for] loop of [printResults] from index [i] on: the lines
    printed, and whether [getFilename] raised. [searchResults[i]] is
    read with a default, as in [merge_loop]. *)
Fixpoint print_loop (fileNames : list string) (searchResults : list MatchResult)
         (i : nat) (printed : list report_line) : list report_line * res unit :=
  match fileNames with
  | [] => (printed, Ok tt)
  | name :: fileNames' =>
      match getFilename name with
      | Throw => (printed, Throw)
      | Ok name =>
          let printed := printed ++ [FileLine (i + 1) name] in
          match fileNames' with
          | [] => (printed, Ok tt)          (* skip last item *)
          | _ :: _ =>
              let result := nth i searchResults MatchResult_default in
              let overlap := overlapCount result in
              let quota := (100 * quota result)%Q in
              let line :=
                if patternFound result then OverlapLine quota overlap
                else NoMatchLine in
              print_loop fileNames' searchResults (S i) (printed ++ [line])
          end
      end
  end.

Definition printResults (fileNames : list string) (searchResults : list MatchResult)
  : list report_line * res unit :=
  print_loop fileNames searchResults 0 [Heading].

(** ** [main] with its report *)

(** The loop of [scan] together with the call of [getFilename] in its
    trace line, which comes after the fingerprint is read and before the
    successor is opened. *)
Fixpoint scan_traced (fuel : nat) (best : bool) (fs : filesystem) (file1 : istream)
         (names : list string) (searchResults : list MatchResult)
  : option scan_result :=
  match names with
  | [] => Some (ScanDone searchResults)
  | name :: names' =>
      match extract_pattern file1 with
      | (Throw, _) => Some ScanThrow
      | (Ok pattern, file1) =>
          match getFilename name with
          | Throw => Some ScanThrow
          | Ok _ =>
              match fs name with
              | None => Some ScanOpenFailed
              | Some bytes =>
                  match refine blockSize fuel best pattern file1 (open bytes) with
                  | None => None
                  | Some (Throw, _) => Some ScanThrow
                  | Some (Ok (result, _), (_, file2)) =>
                      scan_traced fuel best fs file2 names' (searchResults ++ [result])
                  end
              end
          end
      end
  end.

(** [main] as above, with the scan that prints its trace and with
    [printResults] before the question. The outcome comes with the
    summary when the run gets that far. *)
Definition main_traced (fuel : nat) (fs : filesystem) (best outputOpens decision : bool)
           (file0 : string) (files : list string)
  : option (outcome * list report_line) :=
  match fs file0 with
  | None => Some (Exit 1 None, [])
  | Some bytes =>
      match scan_traced fuel best fs (open bytes) files [] with
      | None => None
      | Some ScanThrow => Some (Terminated, [])
      | Some ScanOpenFailed => Some (Exit 1 None, [])
      | Some (ScanDone searchResults) =>
          match printResults (file0 :: files) searchResults with
          | (printed, Throw) => Some (Terminated, printed)
          | (printed, Ok _) =>
              if decision
              then Some (Exit 0 (option_map written
                                   (mergeFiles fs (file0 :: files) searchResults
                                               outputOpens)),
                         printed)
              else Some (Exit 0 None, printed)
          end
      end
  end.

(** * Specification-level definitions *)

(** ** Pattern search *)

(** [P] occurs contiguously in [S] at offset [j]. *)
Definition occurs (S P : list byte) (j : nat) : Prop :=
  firstn (length P) (skipn j S) = P.

(** The straightforward in-memory search: the first offset from [start]
    on, up to the end of [S], at which [P] is a prefix of what is left. *)
Definition substring_search (S P : list byte) (start : nat) : option nat :=
  find (fun j => starts_with (skipn j S) P) (seq start (length S + 1 - start)).

Definition found_at (o : option nat) (patternSize : nat) : MatchResult :=
  match o with
  | Some i => mkMatchResult true i patternSize 0
  | None => MatchResult_default
  end.

(** The contract of the searcher: the earliest occurrence at or after
    [start], or no occurrence there at all. *)
Inductive search_post (S P : list byte) (start : nat) : MatchResult -> Prop :=
| post_found (i : nat) :
    start <= i -> occurs S P i ->
    (forall j, start <= j < i -> ~ occurs S P j) ->
    search_post S P start (mkMatchResult true i (length P) 0)
| post_none :
    (forall j, start <= j -> ~ occurs S P j) ->
    search_post S P start MatchResult_default.

(** ** Streams *)

(** A stream on a device without fault that is either good or has run
    into the end of its file. *)
Definition settled (f : istream) : Prop :=
  ioerr f = None /\
  (good f = true \/
   (eofbit f = true /\ failbit f = true /\ badbit f = false /\ size f <= gpos f)).

(** A read that came back with fewer bytes than asked for although the
    stream was not at the end of its file. *)
Definition short_read (e : rd_event) : bool :=
  (delivered e <? requested e) && negb (at_eos e).

(** eofbit is raised only at the end of the file. *)
Definition eof_sound (f : istream) : Prop :=
  eofbit f = true -> size f <= gpos f.

(** ** Invariants of the scan loop *)

(** The buffer holds the [bytesReadPreviously] bytes of the stream from
    [position] on, and the stream stands right after them. *)
Definition window_inv (S : list byte) (start : nat) (file : istream)
           (buffer : list byte) (bytesReadPreviously position : nat) : Prop :=
  content file = S /\
  gpos file = position + bytesReadPreviously /\
  buffer = firstn bytesReadPreviously (skipn position S) /\
  length buffer = bytesReadPreviously /\
  start <= position.

(** On a device without fault, in addition: no occurrence starts before
    [position], and the first half is a full block while the stream is
    good. *)
Definition search_inv (blockSize : nat) (S P : list byte) (start : nat)
           (file : istream) (buffer : list byte)
           (bytesReadPreviously realBufferSize position : nat) : Prop :=
  content file = S /\ settled file /\
  gpos file = position + bytesReadPreviously /\
  buffer = firstn bytesReadPreviously (skipn position S) /\
  length buffer = bytesReadPreviously /\
  bytesReadPreviously <= realBufferSize /\
  start <= position /\
  (forall j, start <= j < position -> ~ occurs S P j) /\
  (good file = true -> bytesReadPreviously = blockSize).

(** What decreases from one pass of the scan loop to the next. *)
Definition search_measure (file : istream) (bytesReadPreviously realBufferSize : nat) : nat :=
  if good file then size file - gpos file + 4
  else if ok file then 3
  else if realBufferSize =? 0 then 0
  else if bytesReadPreviously =? 0 then 1 else 2.

(** ** Scores *)

(** Number of positions at which two byte sequences differ, over their
    common length. *)
Fixpoint differing (a b : list byte) : nat :=
  match a, b with
  | x :: a', y :: b' => (if Byte.eqb x y then 0 else 1) + differing a' b'
  | _, _ => 0
  end.

Definition ratio (a b : nat) : Q :=
  (inject_Z (Z.of_nat a) / inject_Z (Z.of_nat b))%Q.

(** What the data model asks of a [MatchResult]. *)
Definition well_scored (r : MatchResult) : Prop :=
  if patternFound r
  then 0 < overlapCount r /\ bytesDiffering r <= overlapCount r
  else r = MatchResult_default.

(** The candidate at offset [p] of the successor [S2], scored against
    the tail of the predecessor [S1]. *)
Definition candidate (S1 S2 P : list byte) (p : nat) : MatchResult :=
  mkMatchResult true p (length P)
                (differing (skipn (length S1 - (p + length P)) S1) S2).

(** [result] is the best of the candidates examined. *)
Definition best_of (result : MatchResult) (examined : list MatchResult) : Prop :=
  Forall (fun c => (quota c <= quota result)%Q) examined /\
  (result = MatchResult_default \/ In result examined).

(** No candidate is examined after the best quota has passed the
    threshold, and only one when [--best] is off. *)
Definition stops_early (best : bool) (examined : list MatchResult) : Prop :=
  match examined with
  | [] => True
  | _ :: older =>
      (older <> [] -> best = true) /\
      Forall (fun c => (quota c <= threshold)%Q) older
  end.

(** ** Assembly *)

(** The last 20 bytes. *)
Definition tail_fingerprint (bytes : list byte) : list byte :=
  skipn (length bytes - 20) bytes.

(** The cut offset of the file at index [i]. *)
Definition cut_offset (searchResults : list MatchResult) (i : nat) : nat :=
  match i with
  | 0 => 0
  | S k =>
      let previous := nth k searchResults MatchResult_default in
      if patternFound previous then overlapCount previous else 0
  end.

(** Each file from its cut offset to its end, in file order. *)
Fixpoint assembled (contents : list (list byte)) (searchResults : list MatchResult)
         (i : nat) : list byte :=
  match contents with
  | [] => []
  | c :: cs => skipn (cut_offset searchResults i) c ++ assembled cs searchResults (S i)
  end.

(** Every file but the last has a byte left to copy. *)
Fixpoint contributes (contents : list (list byte)) (searchResults : list MatchResult)
         (i : nat) : Prop :=
  match contents with
  | [] => True
  | [_] => True
  | c :: cs =>
      skipn (cut_offset searchResults i) c <> [] /\ contributes cs searchResults (S i)
  end.

(** ** Sample files *)

Definition bytes_of (s : String.string) : list byte := String.list_byte_of_string s.
Arguments bytes_of s%_string.

(** A file system with the listed files and no other. *)
Definition files_of (files : list (String.string * list byte)) : filesystem :=
  fun name =>
    option_map snd (find (fun entry => String.eqb (fst entry) name) files).

(** A pattern one byte longer than a block plus one, after 4095 bytes
    of padding. *)
Definition long_pattern : list byte := Byte.x01 :: repeat Byte.x02 4097.
Definition long_stream : list byte := repeat Byte.x00 4095 ++ long_pattern.

(** Two segments of a recording that share twenty bytes. *)
Definition segment_a : list byte := bytes_of "head-0123456789abcdefghij".
Definition segment_b : list byte := bytes_of "0123456789abcdefghij-tail".
Definition recording : filesystem :=
  files_of [("a"%string, segment_a); ("b"%string, segment_b)].

(** A second segment that the first one contains, and a third. *)
Definition segment_c : list byte := bytes_of "ABCDEFGHIJKLMNOPQRSTUVWXYZ".
Definition contained : filesystem :=
  files_of [("a"%string, segment_a);
            ("b"%string, bytes_of "0123456789abcdefghij");
            ("c"%string, segment_c)].


(** The fingerprint [0123456789abcdefghij] occurs twice in the
    successor: at offset 10 by coincidence, at offset 40 for good. *)
Definition twice_a : list byte :=
  bytes_of "head-XXXXXXXXXX0123456789abcdefghijYYYYYYYYYY0123456789abcdefghij".
Definition twice_b : list byte :=
  bytes_of "XXXXXXXXXX0123456789abcdefghijYYYYYYYYYY0123456789abcdefghij-tail".

(** Files shorter than the fingerprint. *)
Definition tiny : filesystem :=
  files_of [("hello"%string, bytes_of "hello");
            ("greeting"%string, bytes_of "hello world");
            ("shifted"%string, bytes_of "xxhello world");
            ("other"%string, bytes_of "something else");
            ("empty"%string, []);
            ("x"%string, bytes_of "x");
            ("xy"%string, bytes_of "xy")].

(** Three files, the middle one empty. *)
Definition with_gap : filesystem :=
  files_of [("first"%string, bytes_of "first");
            ("gap"%string, []);
            ("third"%string, bytes_of "third")].

(** A stream whose device fails at its fourth byte. *)
Definition faulty : istream :=
  mkStream (bytes_of "hello world") 0 false false false (Some 3) [].

(** ** File names *)

(** [c] occurs in [s]. *)
Fixpoint has (c : Ascii.ascii) (s : string) : bool :=
  match s with
  | EmptyString => false
  | String a s' => Ascii.eqb a c || has c s'
  end.

(** ** The refinement, in memory *)

(** The offsets from [start] on at which [P] occurs in [S], in
    increasing order. *)
Definition occurrences (S P : list byte) (start : nat) : list nat :=
  filter (fun j => starts_with (skipn j S) P) (seq start (length S + 1 - start)).

(** The candidates at the offsets [ps], taken one after the other. A
    candidate whose overlap is longer than the predecessor [S1] ends
    the run with an error; a candidate with a higher quota replaces the
    result; the run stops once the result is above the threshold, and
    after the first candidate without [--best]. *)
Fixpoint select (best : bool) (S1 S2 P : list byte) (result : MatchResult)
         (ps : list nat) : res MatchResult :=
  match ps with
  | [] => Ok result
  | p :: ps' =>
      if length S1 <? p + length P then Throw
      else
        let c := candidate S1 S2 P p in
        let result := if Qgtb (quota c) (quota result) then c else result in
        if Qgtb (quota result) threshold || negb best then Ok result
        else select best S1 S2 P result ps'
  end.





(** ** More sample files *)


(** A file of twenty bytes, and a successor that holds it after one
    byte of its own. *)
Definition shifted : filesystem :=
  files_of [("a"%string, bytes_of "0123456789abcdefghij");
            ("b"%string, bytes_of "x0123456789abcdefghij-tail")].


(** A file system in which the second name holds both separators. *)
Definition odd_names : filesystem :=
  files_of [("a"%string, segment_a);
            (String.append "a/b" (String backslash "c"), segment_b)].

(** Paths with one kind of separator and with both. *)
Definition unix_path : string := "data/run1/part.bin".
Definition dos_path : string :=
  String.append "C:" (String backslash
    (String.append "data" (String backslash "part.bin"))).
Definition mixed_path : string := String.append "a/b" (String backslash "c").
Definition drive_path : string :=
  String.append "C:/data" (String backslash "part.bin").

(** * Occurrences, slices and [std::search] *)

Lemma byte_eqb_refl (x : byte) : Byte.eqb x x = true.
Proof. apply Byte.byte_dec_lb. reflexivity. Qed.

Lemma starts_with_iff (h n : list byte) :
  starts_with h n = true <-> firstn (length n) h = n.
Proof.
  revert h. induction n as [|x n IH]; intros h; simpl.
  - split; reflexivity.
  - destruct h as [|y h]; simpl.
    + split; discriminate.
    + rewrite andb_true_iff, IH. split.
      * intros [E ->]. apply Byte.byte_dec_bl in E. now subst.
      * intros E. injection E as -> E. split; [apply byte_eqb_refl | exact E].
Qed.

Lemma starts_with_occurs (S P : list byte) (j : nat) :
  starts_with (skipn j S) P = true <-> occurs S P j.
Proof. apply starts_with_iff. Qed.

Lemma occurs_dec (S P : list byte) (j : nat) : {occurs S P j} + {~ occurs S P j}.
Proof.
  destruct (starts_with (skipn j S) P) eqn:E.
  - left. now apply starts_with_occurs.
  - right. intros H. apply starts_with_occurs in H. congruence.
Defined.

Lemma occurs_bound (S P : list byte) (j : nat) :
  occurs S P j -> j + length P <= length S \/ P = [].
Proof.
  unfold occurs. intros H. destruct P as [|x P]; [now right|left].
  assert (L : length (firstn (length (x :: P)) (skipn j S)) = length (x :: P))
    by now rewrite H.
  rewrite length_firstn, length_skipn in L. cbn [length] in L |- *. lia.
Qed.

Lemma occurs_lt (S P : list byte) (j : nat) :
  P <> [] -> occurs S P j -> j + length P <= length S.
Proof. intros NE H. destruct (occurs_bound _ _ _ H); [assumption|contradiction]. Qed.

Lemma firstn_skipn_add {A} (a b : nat) (l : list A) :
  firstn a l ++ firstn b (skipn a l) = firstn (a + b) l.
Proof.
  revert l. induction a as [|a IH]; intros l; simpl.
  - reflexivity.
  - destruct l as [|x l]; simpl.
    + now rewrite firstn_nil.
    + now rewrite IH.
Qed.

Lemma skipn_skipn_add {A} (a b : nat) (l : list A) :
  skipn a (skipn b l) = skipn (b + a) l.
Proof.
  revert l. induction b as [|b IH]; intros l; simpl.
  - reflexivity.
  - destruct l as [|x l]; simpl.
    + now rewrite skipn_nil.
    + apply IH.
Qed.

Lemma skipn_firstn_sub {A} (a b : nat) (l : list A) :
  skipn a (firstn b l) = firstn (b - a) (skipn a l).
Proof.
  revert b l. induction a as [|a IH]; intros b l; simpl.
  - now rewrite Nat.sub_0_r.
  - destruct b as [|b]; simpl.
    + destruct l; reflexivity.
    + destruct l as [|x l]; simpl.
      * now rewrite firstn_nil.
      * apply IH.
Qed.

Lemma firstn_firstn_min {A} (a b : nat) (l : list A) :
  firstn a (firstn b l) = firstn (Nat.min a b) l.
Proof. apply firstn_firstn. Qed.

(** An occurrence inside a window of the stream is an occurrence in the
    stream, and back when it fits in the window. *)
Lemma occurs_window (S P : list byte) (p w i : nat) :
  P <> [] ->
  (occurs (firstn w (skipn p S)) P i <-> occurs S P (p + i) /\ i + length P <= w).
Proof.
  intros NE. unfold occurs.
  rewrite skipn_firstn_sub, skipn_skipn_add, firstn_firstn_min.
  split.
  - intros H.
    assert (L : length P <= w - i).
    { assert (L : length (firstn (Nat.min (length P) (w - i)) (skipn (p + i) S)) = length P)
        by now rewrite H.
      rewrite length_firstn in L. lia. }
    assert (length P <> 0) by (destruct P; simpl; [congruence|lia]).
    split; [|lia]. now rewrite Nat.min_l in H by lia.
  - intros [H L]. rewrite Nat.min_l by lia. exact H.
Qed.

Lemma std_search_le (h n : list byte) : std_search h n <= length h.
Proof.
  induction h as [|y h IH]; simpl.
  - destruct (starts_with [] n); lia.
  - destruct (starts_with (y :: h) n); simpl; lia.
Qed.

Lemma std_search_first (h n : list byte) (i : nat) :
  i < std_search h n -> starts_with (skipn i h) n = false.
Proof.
  revert i. induction h as [|y h IH]; intros i; simpl.
  - destruct (starts_with [] n); lia.
  - destruct (starts_with (y :: h) n) eqn:E; [lia|].
    intros L. destruct i as [|i]; simpl; [exact E|]. apply IH. lia.
Qed.

Lemma std_search_hit (h n : list byte) :
  std_search h n < length h -> starts_with (skipn (std_search h n) h) n = true.
Proof.
  induction h as [|y h IH]; simpl.
  - destruct (starts_with [] n); lia.
  - destruct (starts_with (y :: h) n) eqn:E; simpl; [trivial|].
    intros L. apply IH. lia.
Qed.

Lemma std_search_miss (h n : list byte) :
  n <> [] -> std_search h n = length h ->
  forall i, ~ occurs h n i.
Proof.
  intros NE E i H.
  pose proof (occurs_lt _ _ _ NE H) as L.
  assert (length n <> 0) by (destruct n; simpl; [congruence|lia]).
  assert (i < std_search h n) by lia.
  apply std_search_first in H1. apply starts_with_occurs in H. congruence.
Qed.

(** * Streams and the termination of the scan *)

Lemma good_ok (f : istream) : good f = true -> ok f = true.
Proof.
  unfold good, ok, fail. destruct (eofbit f), (failbit f), (badbit f); simpl; congruence.
Qed.

Lemma good_flags (f : istream) :
  good f = true <-> eofbit f = false /\ failbit f = false /\ badbit f = false.
Proof.
  unfold good. destruct (eofbit f), (failbit f), (badbit f); simpl; intuition congruence.
Qed.

Lemma firstn_length_firstn {A} (n : nat) (l : list A) :
  firstn (length (firstn n l)) l = firstn n l.
Proof.
  rewrite length_firstn. destruct (Nat.le_ge_cases n (length l)).
  - now rewrite Nat.min_l.
  - rewrite Nat.min_r by assumption. rewrite !firstn_all2; auto.
Qed.

(** What a read delivers from a settled stream. *)
Lemma read_settled (f f' : istream) (n : nat) (bs : list byte) :
  settled f -> 0 < n -> read f n = (bs, f') ->
  bs = firstn n (skipn (gpos f) (content f)) /\
  content f' = content f /\ settled f' /\
  gpos f' = gpos f + length bs /\
  ((length bs = n /\ good f = true /\ good f' = true) \/
   (length bs < n /\ eof f' = true /\ ok f' = false /\ size f <= gpos f')).
Proof.
  intros [NoErr St] Hn. unfold read, hits_ioerr. rewrite NoErr.
  destruct (good f) eqn:G; simpl.
  - intros E. injection E as <- <-.
    set (bs := firstn n (skipn (gpos f) (content f))).
    apply good_flags in G. destruct G as (E1 & E2 & E3).
    rewrite E1, E2, E3. clear St.
    assert (L : length bs <= n) by (unfold bs; rewrite length_firstn; lia).
    unfold settled, good, eof, ok, fail, size. simpl.
    destruct (length bs <? n) eqn:Sh.
    + apply Nat.ltb_lt in Sh.
      assert (length (content f) <= gpos f + length bs).
      { unfold bs in *. rewrite length_firstn, length_skipn in *. lia. }
      intuition auto.
    + apply Nat.ltb_ge in Sh. intuition auto. left. simpl. intuition lia.
  - intros E. injection E as <- <-.
    destruct St as [St|(E1 & E2 & E3 & L)]; [congruence|].
    assert (Z : skipn (gpos f) (content f) = []) by (apply skipn_all2; exact L).
    rewrite Z, firstn_nil.
    unfold settled, good, eof, ok, fail, size in *. simpl.
    rewrite E1, E3. simpl. intuition auto.
Qed.

Lemma search_loop_terminates (B : nat) (P : list byte) :
  0 < B -> P <> [] ->
  forall fuel file buffer brp rbs position,
    search_measure file brp rbs < fuel ->
    search_loop B fuel file P buffer brp rbs position <> None.
Proof.
  intros HB NE.
  assert (LP : 0 < length P) by (destruct P; simpl; [congruence|lia]).
  induction fuel as [|fuel IH]; intros file buffer brp rbs position M; [lia|].
  simpl.
  destruct (ok file || (length P <=? rbs)) eqn:C; [|discriminate].
  destruct (read file B) as [block file'] eqn:R.
  destruct ((length block <? B) && negb (eof file')) eqn:T; [discriminate|].
  match goal with |- (if ?c then _ else _) <> _ => destruct c end; [discriminate|].
  apply IH.
  unfold read in R. unfold search_measure in M |- *.
  destruct (good file) eqn:G; simpl in R.
  - destruct (hits_ioerr file B) eqn:HE.
    + injection R as <- <-. unfold eof in T. simpl in T.
      apply good_flags in G. destruct G as (E1 & _).
      apply Nat.ltb_lt in HB. rewrite E1, HB in T. discriminate.
    + injection R as <- <-.
      set (bs := firstn B (skipn (gpos file) (content file))) in *.
      apply good_flags in G. destruct G as (E1 & E2 & E3).
      unfold good, ok, fail, size. simpl. rewrite E1, E2, E3. simpl.
      destruct (length bs <? B) eqn:Sh; simpl.
      * destruct (_ =? 0); [lia|]. destruct (_ =? 0); lia.
      * apply Nat.ltb_ge in Sh. unfold bs in Sh.
        rewrite length_firstn, length_skipn in Sh. unfold size in M.
        unfold bs. rewrite length_firstn, length_skipn. lia.
  - injection R as <- <-. unfold good, ok, fail. simpl.
    rewrite !orb_true_r. simpl.
    unfold ok in C, M.
    destruct (fail file) eqn:F; simpl in C, M.
    + apply Nat.leb_le in C. rewrite Nat.add_0_r.
      destruct (rbs =? 0) eqn:Z; [apply Nat.eqb_eq in Z; lia|].
      destruct (brp =? 0) eqn:Z'.
      * apply Nat.eqb_eq in Z'. subst. simpl. lia.
      * simpl. lia.
    + simpl in M. rewrite Nat.add_0_r. destruct (brp =? 0); simpl; lia.
Qed.

(** * The scan finds the earliest occurrence *)

Lemma length_pos (P : list byte) : P <> [] -> 0 < length P.
Proof. destruct P; simpl; [congruence|lia]. Qed.

Lemma window_hit (S P : list byte) (position stop : nat) :
  P <> [] -> stop <= length (skipn position S) ->
  std_search (firstn stop (skipn position S)) P <> stop ->
  let r := std_search (firstn stop (skipn position S)) P in
  occurs S P (position + r) /\ r + length P <= stop /\
  forall i, i < r -> ~ occurs S P (position + i).
Proof.
  intros NE L N r.
  assert (Lh : length (firstn stop (skipn position S)) = stop)
    by (rewrite length_firstn; lia).
  pose proof (std_search_le (firstn stop (skipn position S)) P) as Le.
  fold r in Le, N. rewrite Lh in Le.
  assert (Hit : occurs (firstn stop (skipn position S)) P r).
  { apply starts_with_occurs. apply std_search_hit. fold r. lia. }
  apply occurs_window in Hit; [|assumption]. destruct Hit as [Hit Fit].
  split; [assumption|]. split; [assumption|].
  intros i Hi Occ.
  assert (O' : occurs (firstn stop (skipn position S)) P i).
  { apply occurs_window; [assumption|]. split; [assumption|lia]. }
  apply starts_with_occurs in O'.
  rewrite std_search_first in O' by (fold r; lia). discriminate.
Qed.

Lemma window_miss (S P : list byte) (position stop : nat) :
  P <> [] -> stop <= length (skipn position S) ->
  std_search (firstn stop (skipn position S)) P = stop ->
  forall i, i + length P <= stop -> ~ occurs S P (position + i).
Proof.
  intros NE L E i Fit Occ.
  assert (Lh : length (firstn stop (skipn position S)) = stop)
    by (rewrite length_firstn; lia).
  rewrite <- Lh in E at 2.
  apply (std_search_miss _ _ NE E i).
  apply occurs_window; auto.
Qed.

Lemma stop_index_nonempty (brp p rbs : nat) :
  0 < p -> stop_index brp p rbs = Nat.min (brp + p - 1) rbs.
Proof.
  intros Hp. unfold stop_index.
  destruct (brp + p =? 0) eqn:E; [apply Nat.eqb_eq in E; lia|reflexivity].
Qed.

(** One pass of the loop body keeps the invariant or returns the
    earliest occurrence. *)
Lemma search_loop_correct (B : nat) (S P : list byte) (start : nat) :
  0 < B -> P <> [] -> length P <= B + 1 ->
  forall fuel file buffer brp rbs position out,
    search_inv B S P start file buffer brp rbs position ->
    search_loop B fuel file P buffer brp rbs position = Some out ->
    exists r, fst out = Ok r /\ search_post S P start r.
Proof.
  intros HB NE LB.
  pose proof (length_pos P NE) as LP.
  induction fuel as [|fuel IH]; intros file buffer brp rbs position out Inv; [discriminate|].
  destruct Inv as (HS & St & Hg & Hbuf & Hlen & Hrbs & Hst & Hno & Hfull).
  simpl.
  destruct (ok file || (length P <=? rbs)) eqn:C.
  - destruct (read file B) as [block file'] eqn:R.
    destruct (read_settled _ _ _ _ St HB R) as (Eb & Ec & St' & Eg & Cases).
    rewrite HS in Eb, Ec. rewrite Hg in Eb, Eg.
    assert (T : (length block <? B) && negb (eof file') = false).
    { destruct Cases as [(E & _)|(_ & E & _)].
      - rewrite E, Nat.ltb_irrefl. reflexivity.
      - rewrite E. apply andb_false_r. }
    rewrite T.
    set (W := skipn position S) in *.
    assert (LW : brp <= length W).
    { rewrite <- Hlen, Hbuf, length_firstn. lia. }
    assert (Eb' : block = firstn B (skipn brp W)).
    { unfold W. now rewrite skipn_skipn_add. }
    assert (Lblock : length block = Nat.min B (length W - brp)).
    { rewrite Eb', length_firstn, length_skipn. reflexivity. }
    assert (Ebuf : firstn brp buffer ++ block = firstn (brp + length block) W).
    { rewrite <- Hlen at 1. rewrite firstn_all, Hbuf, Eb', firstn_skipn_add.
      destruct (Nat.le_ge_cases B (length W - brp)) as [Q|Q].
      - rewrite <- Eb', Lblock, Nat.min_l by assumption. reflexivity.
      - rewrite <- Eb', Lblock, Nat.min_r by assumption.
        rewrite !firstn_all2 by lia. reflexivity. }
    assert (Lbuf : brp + length block <= length W) by lia.
    rewrite Ebuf, (stop_index_nonempty _ _ _ LP).
    set (stop := Nat.min (brp + length P - 1) (brp + length block)).
    rewrite firstn_firstn, (Nat.min_l stop) by (unfold stop; lia).
    assert (Lstop : stop <= length W) by (unfold stop; lia).
    assert (Small : length block < B -> length S <= position + brp + length block).
    { intros Sh. destruct Cases as [(E & _)|(_ & _ & _ & Lsz)]; [lia|].
      unfold size in Lsz. rewrite HS in Lsz. lia. }
    destruct (std_search (firstn stop W) P =? stop) eqn:Found; simpl.
    + apply Nat.eqb_eq in Found.
      pose proof (window_miss S P position stop NE Lstop Found) as Miss.
      apply IH. unfold search_inv.
      split; [congruence|]. split; [assumption|]. split; [lia|].
      split.
      { rewrite skipn_firstn_sub. unfold W. rewrite skipn_skipn_add.
        f_equal. lia. }
      split.
      { rewrite length_skipn, length_firstn. lia. }
      split; [lia|]. split; [lia|]. split.
      { intros j Hj Occ.
        destruct (Nat.lt_ge_cases j position) as [Lt|Ge].
        - apply (Hno j); [lia|assumption].
        - apply (Miss (j - position)).
          + pose proof (occurs_lt _ _ _ NE Occ).
            unfold stop.
            destruct (Nat.lt_ge_cases (length block) B) as [Sh|Fu].
            * specialize (Small Sh). lia.
            * lia.
          + now replace (position + (j - position)) with j by lia. }
      { intros G. destruct Cases as [(E & _)|(_ & _ & E & _)]; [assumption|].
        apply good_ok in G. congruence. }
    + apply Nat.eqb_neq in Found. intros E. injection E as <-.
      destruct (window_hit S P position stop NE Lstop Found) as (Occ & Fit & First).
      eexists. split; [reflexivity|].
      apply post_found; [lia|assumption|].
      intros j Hj Oj.
      destruct (Nat.lt_ge_cases j position) as [Lt|Ge].
      * apply (Hno j); [lia|assumption].
      * apply (First (j - position)); [fold W; lia|].
        now replace (position + (j - position)) with j by lia.
  - intros E. injection E as <-. exists MatchResult_default. split; [reflexivity|].
    apply orb_false_iff in C. destruct C as [Cok Crbs].
    apply Nat.leb_gt in Crbs.
    destruct St as [_ [G|(_ & _ & _ & Lsz)]].
    { apply good_ok in G. congruence. }
    apply post_none. intros j Hj Occ.
    destruct (Nat.lt_ge_cases j position) as [Lt|Ge].
    + apply (Hno j); [lia|assumption].
    + apply (occurs_lt _ _ _ NE) in Occ. unfold size in Lsz. rewrite HS in Lsz. lia.
Qed.

(** * [searchInFile] against the in-memory search *)

Lemma find_seq_first (f : nat -> bool) (n a i : nat) :
  find f (seq a n) = Some i ->
  a <= i < a + n /\ f i = true /\ forall j, a <= j < i -> f j = false.
Proof.
  revert a. induction n as [|n IH]; intros a; simpl; [discriminate|].
  destruct (f a) eqn:E.
  - intros H. injection H as <-. repeat split; try lia; auto.
  - intros H. apply IH in H. destruct H as (R & T & F).
    repeat split; try lia; auto.
    intros j Hj. destruct (Nat.eq_dec j a) as [->|N]; [assumption|].
    apply F. lia.
Qed.

Lemma find_seq_none (f : nat -> bool) (n a : nat) :
  find f (seq a n) = None -> forall j, a <= j < a + n -> f j = false.
Proof.
  intros H j Hj. apply (find_none _ _ H). apply in_seq. lia.
Qed.

Lemma not_occurs_false (S P : list byte) (j : nat) :
  starts_with (skipn j S) P = false <-> ~ occurs S P j.
Proof.
  rewrite <- starts_with_occurs. destruct (starts_with _ _); intuition congruence.
Qed.

(** The in-memory search returns the earliest occurrence. *)
Lemma substring_search_post (S P : list byte) (start : nat) :
  P <> [] ->
  search_post S P start (found_at (substring_search S P start) (length P)).
Proof.
  intros NE. unfold substring_search.
  destruct (find _ _) as [i|] eqn:E; simpl.
  - apply find_seq_first in E. destruct E as (R & T & F).
    apply post_found; [lia|now apply starts_with_occurs|].
    intros j Hj. apply not_occurs_false. now apply F.
  - apply post_none. intros j Hj Occ.
    pose proof (occurs_lt _ _ _ NE Occ).
    apply starts_with_occurs in Occ.
    rewrite (find_seq_none _ _ _ E j) in Occ by lia. discriminate.
Qed.

Lemma search_post_unique (S P : list byte) (start : nat) (r1 r2 : MatchResult) :
  search_post S P start r1 -> search_post S P start r2 -> r1 = r2.
Proof.
  intros [i Hi Oi Fi|N1] [k Hk Ok Fk|N2]; try reflexivity.
  - destruct (Nat.lt_trichotomy i k) as [L|[->|L]]; [|reflexivity|].
    + exfalso. apply (Fk i); [lia|assumption].
    + exfalso. apply (Fi k); [lia|assumption].
  - exfalso. apply (N2 i); assumption.
  - exfalso. apply (N1 k); assumption.
Qed.

Lemma settled_fresh (f : istream) (pos : nat) :
  ioerr f = None -> settled (seekg (clear f) pos) /\ good (seekg (clear f) pos) = true.
Proof.
  intros H. unfold settled, seekg, clear, good. simpl. auto.
Qed.

(** [searchInFile] from a stream on a device without fault. *)
Lemma searchInFile_post (B : nat) (f : istream) (P : list byte) (pos fuel : nat) :
  0 < B -> P <> [] -> length P <= B + 1 -> ioerr f = None ->
  size f + 5 <= fuel ->
  exists r f', searchInFile B fuel f P pos = Some (Ok r, f') /\
               search_post (content f) P pos r.
Proof.
  intros HB NE LB NoErr Fuel.
  unfold searchInFile.
  destruct (settled_fresh f pos NoErr) as [St G].
  destruct (read (seekg (clear f) pos) B) as [block file] eqn:R.
  destruct (read_settled _ _ _ _ St HB R) as (Eb & Ec & St' & Eg & Cases).
  change (content (seekg (clear f) pos)) with (content f) in *.
  change (gpos (seekg (clear f) pos)) with pos in *.
  change (size (seekg (clear f) pos)) with (size f) in *.
  assert (T : (length block <? B) && negb (eof file) = false).
  { destruct Cases as [(E & _)|(_ & E & _)].
    - rewrite E, Nat.ltb_irrefl. reflexivity.
    - rewrite E. apply andb_false_r. }
  rewrite T.
  destruct (search_loop B fuel file P block (length block) (length block) pos) as [out|] eqn:L.
  - assert (Inv : search_inv B (content f) P pos file block
                              (length block) (length block) pos).
    { unfold search_inv.
      split; [assumption|]. split; [assumption|]. split; [assumption|].
      split; [rewrite Eb; symmetry; apply firstn_length_firstn|].
      split; [reflexivity|]. split; [lia|]. split; [lia|].
      split; [intros j Hj; lia|].
      intros G'. destruct Cases as [(E & _)|(_ & _ & E & _)]; [assumption|].
      apply good_ok in G'. congruence. }
    destruct (search_loop_correct B _ P pos HB NE LB _ _ _ _ _ _ _ Inv L)
      as (r & Er & Post).
    destruct out as [o f']. simpl in Er. subst o. eauto.
  - exfalso. revert L. apply search_loop_terminates; auto.
    unfold search_measure.
    assert (size file = size f) by (unfold size; congruence).
    repeat match goal with |- context [if ?c then _ else _] => destruct c end; lia.
Qed.

(** * What holds for every block size and device *)

(** What any read delivers, whatever the state of the stream. *)
Lemma read_any (f f' : istream) (n : nat) (bs : list byte) :
  read f n = (bs, f') ->
  content f' = content f /\ ioerr f' = ioerr f /\
  gpos f' = gpos f + length bs /\
  (bs = [] \/ bs = firstn n (skipn (gpos f) (content f))).
Proof.
  unfold read.
  destruct (negb (good f)); [|destruct (hits_ioerr f n)];
    intros E; injection E as <- <-; simpl; auto using Nat.add_0_r.
Qed.

(** Whatever the block size and the device, a match that the loop
    reports is an occurrence at or after the start offset, and the stream
    it leaves reads the same file. *)
Lemma search_loop_sound (B : nat) (S P : list byte) (start : nat) :
  P <> [] ->
  forall fuel file buffer brp rbs position o f',
    window_inv S start file buffer brp position ->
    search_loop B fuel file P buffer brp rbs position = Some (o, f') ->
    content f' = S /\ ioerr f' = ioerr file /\
    forall r, o = Ok r ->
      (patternFound r = false /\ r = MatchResult_default) \/
      (patternFound r = true /\ start <= matchPosition r /\
       occurs S P (matchPosition r) /\ patternSize r = length P /\
       bytesDiffering r = 0).
Proof.
  intros NE. pose proof (length_pos P NE) as LP.
  induction fuel as [|fuel IH]; intros file buffer brp rbs position o f' Inv; [discriminate|].
  destruct Inv as (HS & Hg & Hbuf & Hlen & Hst).
  simpl.
  destruct (ok file || (length P <=? rbs)).
  - destruct (read file B) as [block file'] eqn:R.
    destruct (read_any _ _ _ _ R) as (Ec & Ee & Eg & Eb).
    destruct ((length block <? B) && negb (eof file')).
    { intros E. injection E as <- <-. repeat split; try congruence; intros; discriminate. }
    set (W := skipn position S) in *.
    assert (LW : brp <= length W).
    { rewrite <- Hlen, Hbuf, length_firstn. lia. }
    assert (Ebuf : firstn brp buffer ++ block = firstn (brp + length block) W
                   /\ brp + length block <= length W).
    { rewrite <- Hlen at 1. rewrite firstn_all, Hbuf.
      destruct Eb as [->|Eb].
      - simpl. rewrite app_nil_r, Nat.add_0_r. auto.
      - assert (Eb' : block = firstn B (skipn brp W)).
        { unfold W. rewrite skipn_skipn_add. congruence. }
        assert (Lblock : length block = Nat.min B (length W - brp)).
        { rewrite Eb', length_firstn, length_skipn. reflexivity. }
        split; [|lia].
        rewrite Eb' at 1. rewrite firstn_skipn_add.
        destruct (Nat.le_ge_cases B (length W - brp)) as [Q|Q].
        + rewrite Lblock, Nat.min_l by assumption. reflexivity.
        + rewrite Lblock, Nat.min_r by assumption.
          rewrite !firstn_all2 by lia. reflexivity. }
    destruct Ebuf as [Ebuf Lbuf].
    rewrite Ebuf, (stop_index_nonempty _ _ _ LP).
    set (stop := Nat.min (brp + length P - 1) (brp + length block)).
    rewrite firstn_firstn, (Nat.min_l stop) by (unfold stop; lia).
    assert (Lstop : stop <= length W) by (unfold stop; lia).
    destruct (std_search (firstn stop W) P =? stop) eqn:Found; simpl.
    + intros L. apply IH in L.
      * destruct L as (L1 & L2 & L3). repeat split; try congruence. exact L3.
      * unfold window_inv. split; [congruence|]. split; [lia|].
        split.
        { rewrite skipn_firstn_sub. unfold W. rewrite skipn_skipn_add.
          f_equal. lia. }
        split; [rewrite length_skipn, length_firstn; lia|lia].
    + apply Nat.eqb_neq in Found. intros E. injection E as <- <-.
      destruct (window_hit S P position stop NE Lstop Found) as (Occ & Fit & First).
      split; [congruence|]. split; [congruence|].
      intros r Er. injection Er as <-. right. simpl.
      repeat split; auto. lia.
  - intros E. injection E as <- <-. split; [assumption|]. split; [reflexivity|].
    intros r Er. injection Er as <-. left. auto.
Qed.

Lemma searchInFile_sound (B : nat) (f : istream) (P : list byte) (pos fuel : nat)
      (o : res MatchResult) (f' : istream) :
  P <> [] ->
  searchInFile B fuel f P pos = Some (o, f') ->
  content f' = content f /\ ioerr f' = ioerr f /\
  forall r, o = Ok r ->
    (patternFound r = false /\ r = MatchResult_default) \/
    (patternFound r = true /\ pos <= matchPosition r /\
     occurs (content f) P (matchPosition r) /\ patternSize r = length P /\
     bytesDiffering r = 0).
Proof.
  intros NE. unfold searchInFile.
  destruct (read (seekg (clear f) pos) B) as [block file] eqn:R.
  destruct (read_any _ _ _ _ R) as (Ec & Ee & Eg & Eb).
  change (content (seekg (clear f) pos)) with (content f) in *.
  change (gpos (seekg (clear f) pos)) with pos in *.
  change (ioerr (seekg (clear f) pos)) with (ioerr f) in *.
  destruct ((length block <? B) && negb (eof file)).
  { intros E. injection E as <- <-. repeat split; try congruence; intros; discriminate. }
  intros L.
  apply (search_loop_sound B (content f) P pos NE) in L.
  - destruct L as (L1 & L2 & L3). repeat split; try congruence. exact L3.
  - unfold window_inv. repeat split; auto.
    destruct Eb as [->|Eb]; [reflexivity|].
    rewrite Eb at 1. symmetry. rewrite Eb. apply firstn_length_firstn.
Qed.

(** [searchInFile] returns for every stream when the pattern is not
    empty. *)
Lemma searchInFile_terminates (B : nat) (f : istream) (P : list byte) (pos fuel : nat) :
  0 < B -> P <> [] -> size f + 5 <= fuel ->
  searchInFile B fuel f P pos <> None.
Proof.
  intros HB NE Fuel. unfold searchInFile.
  destruct (read (seekg (clear f) pos) B) as [block file] eqn:R.
  destruct (read_any _ _ _ _ R) as (Ec & Ee & Eg & Eb).
  destruct ((length block <? B) && negb (eof file)); [discriminate|].
  apply search_loop_terminates; auto.
  unfold search_measure.
  assert (size file = size f) by (unfold size; rewrite Ec; reflexivity).
  repeat match goal with |- context [if ?c then _ else _] => destruct c end; lia.
Qed.

(** * [compareFiles] *)

Lemma filter_seq_shift (g : nat -> bool) (n s : nat) :
  length (filter g (seq (S s) n)) = length (filter (fun i => g (S i)) (seq s n)).
Proof.
  revert s. induction n as [|n IH]; intros s; simpl; [reflexivity|].
  destruct (g (S s)); simpl; now rewrite IH.
Qed.

Lemma count_differences_cons (x y : byte) (a b : list byte) (n : nat) :
  count_differences (x :: a) (y :: b) (S n)
  = (if Byte.eqb x y then 0 else 1) + count_differences a b n.
Proof.
  unfold count_differences. cbn [seq filter nth].
  destruct (Byte.eqb x y); cbn [negb length];
    rewrite filter_seq_shift; reflexivity.
Qed.

Lemma count_differences_differing (a b : list byte) :
  count_differences a b (Nat.min (length a) (length b)) = differing a b.
Proof.
  revert b. induction a as [|x a IH]; intros [|y b]; try reflexivity.
  cbn [length Nat.min differing]. now rewrite count_differences_cons, IH.
Qed.

Lemma differing_le (a b : list byte) : differing a b <= length a.
Proof.
  revert b. induction a as [|x a IH]; intros [|y b]; simpl; try lia.
  specialize (IH b). destruct (Byte.eqb x y); lia.
Qed.

Lemma differing_refl (a b : list byte) : differing a (a ++ b) = 0.
Proof.
  induction a as [|x a IH]; simpl; [reflexivity|].
  now rewrite byte_eqb_refl, IH.
Qed.

Lemma differing_nil_r (a : list byte) : differing a [] = 0.
Proof. destruct a; reflexivity. Qed.

Lemma differing_split (n : nat) (a b : list byte) :
  differing a b
  = differing (firstn n a) (firstn n b) + differing (skipn n a) (skipn n b).
Proof.
  revert a b. induction n as [|n IH]; intros a b; [reflexivity|].
  destruct a as [|x a]; [reflexivity|].
  destruct b as [|y b].
  - cbn [firstn skipn differing]. now rewrite differing_nil_r.
  - cbn [firstn skipn differing]. rewrite (IH a b). lia.
Qed.

Lemma read_ok_full (f f' : istream) (n : nat) (bs : list byte) :
  0 < n -> read f n = (bs, f') -> ok f' = true ->
  length bs = n /\ gpos f' = gpos f + n /\ gpos f + n <= size f.
Proof.
  intros Hn. unfold read.
  destruct (good f) eqn:G; simpl.
  - destruct (hits_ioerr f n).
    + intros E. injection E as <- <-. unfold ok, fail. simpl.
      rewrite orb_true_r. discriminate.
    + intros E. injection E as <- <-. unfold ok, fail. simpl.
      set (bs := firstn n (skipn (gpos f) (content f))).
      destruct (length bs <? n) eqn:Sh.
      * rewrite orb_true_r. discriminate.
      * intros _. apply Nat.ltb_ge in Sh.
        assert (L : length bs <= n) by (unfold bs; rewrite length_firstn; lia).
        unfold bs in *. rewrite length_firstn, length_skipn in *. unfold size. lia.
  - intros E. injection E as <- <-. unfold ok, fail. simpl. discriminate.
Qed.

Lemma read_length (f f' : istream) (n : nat) (bs : list byte) :
  read f n = (bs, f') -> gpos f + length bs <= Nat.max (gpos f) (size f).
Proof.
  intros R. destruct (read_any _ _ _ _ R) as (_ & _ & _ & [->| ->]); simpl; [lia|].
  rewrite length_firstn, length_skipn. unfold size. lia.
Qed.

Section Compare.

Variable B : nat.

(** It leaves the files as they are and counts no more differences
    than the first stream had bytes left. *)
Lemma compare_loop_bound :
  forall fuel f1 f2 t d o f1' f2',
    compare_loop B fuel f1 f2 t d = Some (o, (f1', f2')) ->
    content f1' = content f1 /\ ioerr f1' = ioerr f1 /\
    content f2' = content f2 /\ ioerr f2' = ioerr f2 /\
    forall n, o = Ok n -> n <= d + (Nat.max (gpos f1) (size f1) - gpos f1).
Proof.
  induction fuel as [|fuel IH]; intros f1 f2 t d o f1' f2'; [discriminate|].
  simpl.
  destruct (read f1 B) as [b1 g1] eqn:R1.
  destruct (read f2 B) as [b2 g2] eqn:R2.
  destruct (read_any _ _ _ _ R1) as (Ec1 & Ee1 & Eg1 & _).
  destruct (read_any _ _ _ _ R2) as (Ec2 & Ee2 & Eg2 & _).
  pose proof (read_length _ _ _ _ R1) as L1.
  destruct (_ || _).
  { intros E. injection E as <- <- <-. repeat split; auto. intros; discriminate. }
  pose proof (count_differences_differing
                (firstn (Nat.min (length b1) (length b2)) b1)
                (firstn (Nat.min (length b1) (length b2)) b2)) as CD.
  assert (Cnt : count_differences b1 b2 (Nat.min (length b1) (length b2))
                <= length b1).
  { unfold count_differences.
    etransitivity; [apply filter_length_le|]. rewrite length_seq. lia. }
  destruct (ok g1 && ok g2).
  - intros L. apply IH in L. destruct L as (C1 & E1 & C2 & E2 & Bd).
    repeat split; try congruence.
    intros n En. specialize (Bd n En).
    unfold size in *. rewrite Ec1 in Bd. lia.
  - intros E. injection E as <- <- <-. repeat split; auto.
    intros n En. injection En as <-. lia.
Qed.

Hypothesis HB : 0 < B.

(** The comparison loop returns for all streams. *)
Lemma compare_loop_terminates :
  forall fuel f1 f2 t d,
    size f1 - gpos f1 < fuel ->
    compare_loop B fuel f1 f2 t d <> None.
Proof.
  induction fuel as [|fuel IH]; intros f1 f2 t d M; [lia|].
  simpl.
  destruct (read f1 B) as [b1 f1'] eqn:R1.
  destruct (read f2 B) as [b2 f2'] eqn:R2.
  destruct (_ || _); [discriminate|].
  destruct (ok f1') eqn:O1; simpl; [|discriminate].
  destruct (ok f2'); [|discriminate].
  apply IH.
  destruct (read_ok_full _ _ _ _ HB R1 O1) as (_ & Eg & Le).
  destruct (read_any _ _ _ _ R1) as (Ec & _).
  unfold size in *. rewrite Ec. lia.
Qed.

(** On two good streams of a device without fault, the first of which
    has no more bytes left than the second, the count is that of the
    bytes left in the first against the bytes of the second. *)
Lemma compare_loop_counts :
  forall fuel f1 f2 t d,
    settled f1 -> settled f2 -> good f1 = true -> good f2 = true ->
    length (skipn (gpos f1) (content f1)) <= length (skipn (gpos f2) (content f2)) ->
    size f1 - gpos f1 < fuel ->
    exists f1' f2',
      compare_loop B fuel f1 f2 t d
      = Some (Ok (d + differing (skipn (gpos f1) (content f1))
                                (skipn (gpos f2) (content f2))), (f1', f2')).
Proof.
  induction fuel as [|fuel IH]; intros f1 f2 t d S1 S2 G1 G2 Le M; [lia|].
  simpl.
  destruct (read f1 B) as [b1 g1] eqn:R1.
  destruct (read f2 B) as [b2 g2] eqn:R2.
  destruct (read_settled _ _ _ _ S1 HB R1) as (Eb1 & Ec1 & S1' & Eg1 & C1).
  destruct (read_settled _ _ _ _ S2 HB R2) as (Eb2 & Ec2 & S2' & Eg2 & C2).
  set (r1 := skipn (gpos f1) (content f1)) in *.
  set (r2 := skipn (gpos f2) (content f2)) in *.
  assert (T : ((length b1 <? B) && negb (eof g1))
              || ((length b2 <? B) && negb (eof g2)) = false).
  { apply orb_false_iff. split.
    - destruct C1 as [(E & _)|(_ & E & _)];
        [rewrite E, Nat.ltb_irrefl; reflexivity|rewrite E; apply andb_false_r].
    - destruct C2 as [(E & _)|(_ & E & _)];
        [rewrite E, Nat.ltb_irrefl; reflexivity|rewrite E; apply andb_false_r]. }
  rewrite T, count_differences_differing.
  rewrite (differing_split B r1 r2), <- Eb1, <- Eb2.
  destruct C1 as [(L1 & _ & G1')|(L1 & _ & O1 & Z1)].
  - assert (L2 : length b2 = B).
    { rewrite Eb1, length_firstn in L1. rewrite Eb2, length_firstn. lia. }
    destruct C2 as [(_ & _ & G2')|(L2' & _)]; [|lia].
    rewrite (good_ok _ G1'), (good_ok _ G2'). simpl.
    destruct (IH g1 g2 (t + Nat.min (length b1) (length b2))
                 (d + differing b1 b2) S1' S2' G1' G2') as (f1' & f2' & E).
    + rewrite Ec1, Ec2, Eg1, Eg2, L1, L2.
      rewrite <- !skipn_skipn_add. fold r1 r2.
      rewrite !length_skipn. lia.
    + unfold size in *. rewrite Ec1, Eg1, L1. 
      rewrite Eb1, length_firstn in L1. unfold r1 in L1.
      rewrite length_skipn in L1. lia.
    + exists f1', f2'. rewrite E.
      rewrite Ec1, Ec2, Eg1, Eg2, L1, L2.
      rewrite <- !skipn_skipn_add. fold r1 r2.
      now rewrite Nat.add_assoc.
  - rewrite O1. simpl. exists g1, g2.
    assert (Z : skipn B r1 = []).
    { apply skipn_all2. rewrite Eb1, length_firstn in L1. lia. }
    rewrite Z. simpl. now rewrite Nat.add_0_r.
Qed.

End Compare.

(** * Quotas and well-scored results *)

Lemma Qgtb_true (a b : Q) : Qgtb a b = true <-> (b < a)%Q.
Proof.
  unfold Qgtb. rewrite negb_true_iff. split.
  - intros H. apply Qnot_le_lt. intros L. apply Qle_bool_iff in L. congruence.
  - intros H. destruct (Qle_bool a b) eqn:E; [|reflexivity].
    apply Qle_bool_iff in E. exfalso. now apply (Qlt_not_le _ _ H).
Qed.

Lemma Qgtb_false (a b : Q) : Qgtb a b = false <-> (a <= b)%Q.
Proof.
  unfold Qgtb. rewrite negb_false_iff. apply Qle_bool_iff.
Qed.

Lemma ratio_bounds (a b : nat) : a <= b -> 0 < b -> (0 <= ratio a b <= 1)%Q.
Proof.
  intros Le Pos. unfold ratio.
  assert (Hb : (0 < inject_Z (Z.of_nat b))%Q).
  { replace 0%Q with (inject_Z 0) by reflexivity. rewrite <- Zlt_Qlt. lia. }
  split.
  - apply Qle_shift_div_l; [assumption|]. rewrite Qmult_0_l.
    replace 0%Q with (inject_Z 0) by reflexivity. rewrite <- Zle_Qle. lia.
  - apply Qle_shift_div_r; [assumption|]. rewrite Qmult_1_l.
    rewrite <- Zle_Qle. lia.
Qed.

Lemma ratio_full (b : nat) : 0 < b -> (ratio b b == 1)%Q.
Proof.
  intros Pos. unfold ratio. apply Qmult_inv_r.
  intros E. unfold Qeq in E. simpl in E. lia.
Qed.

Lemma quota_default : quota MatchResult_default = 0%Q.
Proof. reflexivity. Qed.

Lemma quota_well_scored (r : MatchResult) :
  well_scored r ->
  quota r = (if patternFound r
             then ratio (overlapCount r - bytesDiffering r) (overlapCount r)
             else 0%Q).
Proof.
  unfold well_scored, quota, ratio, size_t_sub.
  destruct (patternFound r); cbn [negb orb]; [|reflexivity].
  intros [Pos Le].
  destruct (overlapCount r =? 0) eqn:E; [apply Nat.eqb_eq in E; lia|].
  apply Nat.leb_le in Le. now rewrite Le.
Qed.

Lemma quota_bounds (r : MatchResult) : well_scored r -> (0 <= quota r <= 1)%Q.
Proof.
  intros W. rewrite (quota_well_scored r W).
  unfold well_scored in W. destruct (patternFound r).
  - destruct W. apply ratio_bounds; lia.
  - split; [apply Qle_refl|discriminate].
Qed.

(** A result whose quota is positive was found and has an overlap. *)
Lemma quota_pos_found (r : MatchResult) :
  (0 < quota r)%Q -> patternFound r = true /\ 0 < overlapCount r.
Proof.
  unfold quota. destruct (patternFound r); cbn [negb orb].
  - destruct (overlapCount r =? 0) eqn:E.
    + intros H. now apply Qlt_irrefl in H.
    + apply Nat.eqb_neq in E. intros _. split; [reflexivity|lia].
  - intros H. now apply Qlt_irrefl in H.
Qed.

Lemma seekg_end_content (f : istream) (off : Z) :
  content (seekg_end f off) = content f /\ ioerr (seekg_end f off) = ioerr f.
Proof.
  unfold seekg_end. destruct (fail _); [split; reflexivity|].
  destruct (_ <? 0)%Z; split; reflexivity.
Qed.

Lemma seekg_end_left (f : istream) (off : Z) :
  Nat.max (gpos (seekg_end (clear f) off)) (size f)
  - gpos (seekg_end (clear f) off) <= Z.to_nat (- off) \/ (0 < off)%Z.
Proof.
  unfold seekg_end. simpl.
  change (size (clear_eofbit (clear f))) with (size f).
  destruct (Z.of_nat (size f) + off <? 0)%Z eqn:E; simpl.
  - apply Z.ltb_lt in E. left. lia.
  - apply Z.ltb_ge in E. destruct (Z.lt_ge_cases 0 off); [right; assumption|left; lia].
Qed.

Section Refine.

Variable B : nat.

(** The score of a candidate never exceeds its overlap. *)
Lemma compare_candidate_bound (fuel : nat) (f1 f2 g1 g2 : istream) (oc d : nat) :
  compareFiles B fuel (seekg_end (clear f1) (- Z.of_nat oc)) (seekg (clear f2) 0)
  = Some (Ok d, (g1, g2)) ->
  d <= oc /\ content g1 = content f1 /\ ioerr g1 = ioerr f1 /\
  content g2 = content f2 /\ ioerr g2 = ioerr f2.
Proof.
  unfold compareFiles. intros E.
  apply compare_loop_bound in E. destruct E as (C1 & E1 & C2 & E2 & Bd).
  destruct (seekg_end_content (clear f1) (- Z.of_nat oc)) as [C1' E1'].
  rewrite C1' in C1. rewrite E1' in E1.
  repeat split; auto.
  specialize (Bd d eq_refl).
  change (size (seekg_end (clear f1) (- Z.of_nat oc))) with
    (length (content (seekg_end (clear f1) (- Z.of_nat oc)))) in Bd.
  rewrite C1' in Bd. change (length (content (clear f1))) with (size f1) in Bd.
  destruct (seekg_end_left f1 (- Z.of_nat oc)); lia.
Qed.

(** The loop keeps [result] well scored. *)
Lemma refine_loop_well_scored :
  forall n fuel best P f1 f2 result last examined r ex g,
    well_scored result ->
    refine_loop B fuel n best P f1 f2 result last examined = Some (Ok (r, ex), g) ->
    well_scored r.
Proof.
  induction n as [|n IH]; intros fuel best P f1 f2 result last examined r ex g W;
    [discriminate|].
  simpl. destruct (patternFound last) eqn:F.
  - destruct (compareFiles B fuel _ _) as [[[d|] [g1 g2]]|] eqn:C; try discriminate.
    apply compare_candidate_bound in C. destruct C as (Bd & _).
    set (last' := with_bytesDiffering last d).
    assert (W' : well_scored (if Qgtb (quota last') (quota result)
                              then last' else result)).
    { destruct (Qgtb (quota last') (quota result)) eqn:Q; [|assumption].
      apply Qgtb_true in Q.
      assert (P0 : (0 < quota last')%Q).
      { eapply Qle_lt_trans; [|exact Q]. now apply quota_bounds. }
      apply quota_pos_found in P0. destruct P0 as [F' Pos].
      unfold well_scored. rewrite F'. split; [assumption|exact Bd]. }
    destruct (_ || _).
    + intros E. injection E as <- _ _. exact W'.
    + destruct (searchInFile B fuel g2 P _) as [[[l|] g2']|]; try discriminate.
      apply IH. exact W'.
  - intros E. injection E as <- _ _. exact W.
Qed.

Lemma refine_well_scored (fuel : nat) (best : bool) (P : list byte)
      (f1 f2 : istream) (r : MatchResult) (ex : list MatchResult)
      (g : istream * istream) :
  refine B fuel best P f1 f2 = Some (Ok (r, ex), g) -> well_scored r.
Proof.
  unfold refine.
  destruct (searchInFile B fuel f2 P 0) as [[[l|] g2']|]; try discriminate.
  apply refine_loop_well_scored. reflexivity.
Qed.

Lemma scan_well_scored :
  forall names fuel best fs file1 acc results,
    Forall well_scored acc ->
    scan B fuel best fs file1 names acc = Some (ScanDone results) ->
    Forall well_scored results.
Proof.
  induction names as [|name names IH]; intros fuel best fs file1 acc results Wacc; simpl.
  - intros E. injection E as <-. exact Wacc.
  - destruct (extract_pattern file1) as [[P|] f1']; try discriminate.
    destruct (fs name) as [bytes|]; try discriminate.
    destruct (refine B fuel best P f1' (open bytes)) as [[[[r ex]|] [g1 g2]]|] eqn:R;
      try discriminate.
    apply IH. apply Forall_app. split; [assumption|].
    constructor; [|constructor]. eapply refine_well_scored. exact R.
Qed.

End Refine.

(** * The refinement loop terminates *)

Section RefineTermination.

Variable B : nat.
Hypothesis HB : 0 < B.
Variable P : list byte.
Hypothesis NE : P <> [].

Lemma compare_candidate_terminates (fuel : nat) (f1 f2 : istream) (off : Z) (p : nat) :
  size f1 < fuel ->
  compareFiles B fuel (seekg_end (clear f1) off) (seekg (clear f2) p) <> None.
Proof.
  intros Fuel. apply compare_loop_terminates; [assumption|].
  destruct (seekg_end_content (clear f1) off) as [C _].
  unfold size. rewrite C. unfold size in Fuel. simpl. lia.
Qed.

(** Each retry starts past the previous match, and a match lies inside
    the stream: the loop runs out of candidates. *)
Lemma refine_loop_terminates :
  forall n fuel best f1 f2 result last examined,
    size f1 < fuel -> size f2 + 5 <= fuel ->
    (patternFound last = true -> matchPosition last < size f2) ->
    (if patternFound last then size f2 - matchPosition last else 0) < n ->
    refine_loop B fuel n best P f1 f2 result last examined <> None.
Proof.
  induction n as [|n IH]; intros fuel best f1 f2 result last examined F1 F2 In M; [lia|].
  simpl. destruct (patternFound last) eqn:F; [|discriminate].
  specialize (In eq_refl).
  destruct (compareFiles B fuel _ _) as [[[d|] [g1 g2]]|] eqn:C.
  - apply compare_candidate_bound in C. destruct C as (_ & C1 & _ & C2 & _).
    destruct (_ || _); [discriminate|].
    cbn [matchPosition with_bytesDiffering].
    destruct (searchInFile B fuel g2 P (matchPosition last + 1))
      as [[[l|] g2']|] eqn:Srch.
    + destruct (searchInFile_sound _ _ _ _ _ _ _ NE Srch) as (C3 & _ & Snd).
      destruct (Snd l eq_refl) as [(Fl & _)|(Fl & Ge & Occ & _)].
      * apply IH; unfold size in *; try rewrite C1; try rewrite C3, C2;
          try assumption; rewrite Fl; [discriminate|lia].
      * apply (occurs_lt _ _ _ NE) in Occ. pose proof (length_pos P NE).
        rewrite C2 in Occ.
        apply IH; unfold size in *; try rewrite C1; try rewrite C3, C2;
          try assumption; rewrite Fl; [lia|lia].
    + discriminate.
    + exfalso. revert Srch. apply searchInFile_terminates; auto.
      unfold size in *. now rewrite C2.
  - discriminate.
  - exfalso. revert C. now apply compare_candidate_terminates.
Qed.

Lemma refine_terminates (fuel : nat) (best : bool) (f1 f2 : istream) :
  size f1 + size f2 + 5 <= fuel ->
  refine B fuel best P f1 f2 <> None.
Proof.
  intros Fuel. unfold refine.
  destruct (searchInFile B fuel f2 P 0) as [[[l|] g2']|] eqn:Srch.
  - destruct (searchInFile_sound _ _ _ _ _ _ _ NE Srch) as (C3 & _ & Snd).
    pose proof (length_pos P NE).
    destruct (Snd l eq_refl) as [(Fl & _)|(Fl & Ge & Occ & _)].
    + apply refine_loop_terminates; unfold size in *; try rewrite C3;
        try lia; rewrite Fl; [discriminate|lia].
    + apply (occurs_lt _ _ _ NE) in Occ.
      apply refine_loop_terminates; unfold size in *; try rewrite C3;
        try lia; rewrite Fl; lia.
  - discriminate.
  - exfalso. revert Srch. apply searchInFile_terminates; auto. lia.
Qed.

End RefineTermination.

(** * What the refinement loop returns *)

(** A candidate without differing byte has quota 1. *)
Lemma quota_zero_diff (S1 S2 P : list byte) (pz : nat) :
  P <> [] -> bytesDiffering (candidate S1 S2 P pz) = 0 ->
  (quota (candidate S1 S2 P pz) == 1)%Q.
Proof.
  intros NE Hzero. pose proof (length_pos P NE).
  assert (W : well_scored (candidate S1 S2 P pz)).
  { unfold well_scored. cbn [candidate patternFound]. rewrite Hzero.
    unfold overlapCount. simpl. lia. }
  rewrite (quota_well_scored _ W). cbn [candidate patternFound].
  change (bytesDiffering (mkMatchResult true pz (length P)
            (differing (skipn (length S1 - (pz + length P)) S1) S2)))
    with (bytesDiffering (candidate S1 S2 P pz)).
  rewrite Hzero, Nat.sub_0_r. apply ratio_full. unfold overlapCount. simpl. lia.
Qed.

Section RefineSpec.

Variable B : nat.

Lemma refine_loop_examined :
  forall n fuel best P f1 f2 result last examined r ex g,
    best_of result examined ->
    (examined <> [] -> best = true /\ (quota result <= threshold)%Q) ->
    refine_loop B fuel n best P f1 f2 result last examined = Some (Ok (r, ex), g) ->
    best_of r ex /\ stops_early best ex.
Proof.
  induction n as [|n IH];
    intros fuel best P f1 f2 result last examined r ex g [All Mem] Inv; [discriminate|].
  assert (Older : (examined <> [] -> best = true) /\
                  Forall (fun c => (quota c <= threshold)%Q) examined).
  { destruct examined as [|c older]; [split; [congruence|constructor]|].
    destruct Inv as [Bt Le]; [discriminate|]. split; [auto|].
    eapply Forall_impl; [|exact All]. intros a Ha. simpl in Ha.
    eapply Qle_trans; eassumption. }
  simpl. destruct (patternFound last) eqn:F.
  - destruct (compareFiles B fuel _ _) as [[[d|] [g1 g2]]|] eqn:C; try discriminate.
    set (last' := with_bytesDiffering last d).
    set (result' := if Qgtb (quota last') (quota result) then last' else result).
    assert (Best' : best_of result' (last' :: examined)).
    { unfold result'. destruct (Qgtb (quota last') (quota result)) eqn:Q.
      - apply Qgtb_true in Q. split.
        + constructor; [apply Qle_refl|].
          eapply Forall_impl; [|exact All]. intros a Ha. simpl in Ha.
          eapply Qle_trans; [exact Ha|]. now apply Qlt_le_weak.
        + right. now left.
      - apply Qgtb_false in Q. split.
        + constructor; assumption.
        + destruct Mem as [->|Mem]; [now left|right; now right]. }
    destruct (Qgtb (quota result') threshold || negb best) eqn:Stop.
    + intros E. injection E as <- <- _. split; [exact Best'|exact Older].
    + apply orb_false_iff in Stop. destruct Stop as [Q Bt].
      apply Qgtb_false in Q. apply negb_false_iff in Bt.
      destruct (searchInFile B fuel g2 P _) as [[[l|] g2']|]; try discriminate.
      apply IH; [exact Best'|]. intros _. split; assumption.
  - intros E. injection E as <- <- _. split; [split; assumption|].
    destruct examined as [|c older]; [exact I|].
    destruct Inv as [Bt Le]; [discriminate|]. split; [auto|].
    inversion All; subst.
    eapply Forall_impl; [|eassumption]. intros a Ha. simpl in Ha.
    eapply Qle_trans; eassumption.
Qed.

Lemma refine_examined (fuel : nat) (best : bool) (P : list byte)
      (f1 f2 : istream) (r : MatchResult) (ex : list MatchResult)
      (g : istream * istream) :
  refine B fuel best P f1 f2 = Some (Ok (r, ex), g) ->
  best_of r ex /\ stops_early best ex.
Proof.
  unfold refine.
  destruct (searchInFile B fuel f2 P 0) as [[[l|] g2']|]; try discriminate.
  apply refine_loop_examined.
  - split; [constructor|now left].
  - congruence.
Qed.

(** Every candidate examined was found and differs in no more bytes
    than its overlap. *)
Lemma refine_loop_examined_scored :
  forall n fuel best P f1 f2 result last examined r ex g,
    Forall (fun c => patternFound c = true /\
                     bytesDiffering c <= overlapCount c) examined ->
    refine_loop B fuel n best P f1 f2 result last examined = Some (Ok (r, ex), g) ->
    Forall (fun c => patternFound c = true /\
                     bytesDiffering c <= overlapCount c) ex.
Proof.
  induction n as [|n IH];
    intros fuel best P f1 f2 result last examined r ex g All; [discriminate|].
  simpl. destruct (patternFound last) eqn:F.
  - destruct (compareFiles B fuel _ _) as [[[d|] [g1 g2]]|] eqn:C; try discriminate.
    apply compare_candidate_bound in C. destruct C as (Bd & _).
    assert (All' : Forall (fun c => patternFound c = true /\
                                    bytesDiffering c <= overlapCount c)
                          (with_bytesDiffering last d :: examined)).
    { constructor; [|exact All]. split; [exact F|exact Bd]. }
    destruct (_ || _).
    + intros E. injection E as _ <- _. exact All'.
    + destruct (searchInFile B fuel g2 P _) as [[[l|] g2']|]; try discriminate.
      apply IH. exact All'.
  - intros E. injection E as _ <- _. exact All.
Qed.

Lemma refine_examined_scored (fuel : nat) (best : bool) (P : list byte)
      (f1 f2 : istream) (r : MatchResult) (ex : list MatchResult)
      (g : istream * istream) :
  refine B fuel best P f1 f2 = Some (Ok (r, ex), g) ->
  Forall (fun c => patternFound c = true /\
                   bytesDiffering c <= overlapCount c) ex.
Proof.
  unfold refine.
  destruct (searchInFile B fuel f2 P 0) as [[[l|] g2']|]; try discriminate.
  apply refine_loop_examined_scored. constructor.
Qed.

Hypothesis HB : 0 < B.

(** The comparison of a candidate that fits in both files. *)
Lemma compare_candidate_counts (fuel : nat) (f1 f2 : istream) (oc : nat) :
  ioerr f1 = None -> ioerr f2 = None ->
  oc <= size f1 -> oc <= size f2 -> size f1 < fuel ->
  exists g1 g2,
    compareFiles B fuel (seekg_end (clear f1) (- Z.of_nat oc)) (seekg (clear f2) 0)
    = Some (Ok (differing (skipn (size f1 - oc) (content f1)) (content f2)), (g1, g2))
    /\ content g1 = content f1 /\ ioerr g1 = None
    /\ content g2 = content f2 /\ ioerr g2 = None.
Proof.
  intros E1 E2 L1 L2 Fuel.
  assert (Sk : seekg_end (clear f1) (- Z.of_nat oc)
               = set_gpos (clear_eofbit (clear f1)) (size f1 - oc)).
  { unfold seekg_end. cbn [fail clear_eofbit clear failbit badbit orb].
    change (size (clear_eofbit (clear f1))) with (size f1).
    destruct (Z.of_nat (size f1) + - Z.of_nat oc <? 0)%Z eqn:T.
    - apply Z.ltb_lt in T. lia.
    - f_equal. lia. }
  unfold compareFiles.
  destruct (compare_loop_counts B HB fuel
              (seekg_end (clear f1) (- Z.of_nat oc)) (seekg (clear f2) 0) 0 0)
    as (g1 & g2 & E).
  - rewrite Sk. unfold settled, good. simpl. auto.
  - unfold settled, good. simpl. auto.
  - rewrite Sk. reflexivity.
  - reflexivity.
  - rewrite Sk. simpl. rewrite length_skipn. unfold size in *. lia.
  - rewrite Sk. unfold size in *. simpl. lia.
  - exists g1, g2. 
    pose proof E as E'. apply compare_loop_bound in E'.
    destruct E' as (C1 & I1 & C2 & I2 & _).
    rewrite Sk in *. simpl in *. rewrite E.
    repeat split; congruence.
Qed.

Variables S1 S2 P : list byte.
Hypothesis NE : P <> [].
Hypothesis LB : length P <= B + 1.
Variable pz : nat.
Variable best : bool.
Hypothesis Hocc : occurs S2 P pz.
Hypothesis Hfit : pz + length P <= length S1.
Hypothesis Hzero : bytesDiffering (candidate S1 S2 P pz) = 0.
Hypothesis Hearlier :
  forall p, p < pz -> occurs S2 P p ->
            best = true /\ (quota (candidate S1 S2 P p) <= threshold)%Q.

(** The loop goes from candidate to candidate up to the one without
    differing byte. *)
Lemma refine_loop_selects :
  forall n fuel f1 f2 result last examined s,
    content f1 = S1 -> content f2 = S2 -> ioerr f1 = None -> ioerr f2 = None ->
    length S1 + length S2 + 5 <= fuel ->
    s <= pz -> search_post S2 P s last ->
    (quota result <= threshold)%Q -> pz - s < n ->
    exists ex g,
      refine_loop B fuel n best P f1 f2 result last examined
      = Some (Ok (candidate S1 S2 P pz, ex), g).
Proof.
  pose proof (length_pos P NE) as LP.
  induction n as [|n IH];
    intros fuel f1 f2 result last examined s C1 C2 I1 I2 Fuel Hs Post Hq Hn; [lia|].
  destruct Post as [i Hi Oi Fi|None]; [|exfalso; apply (None pz); assumption].
  assert (Le : i <= pz).
  { destruct (Nat.le_gt_cases i pz); [assumption|].
    exfalso. apply (Fi pz); [lia|assumption]. }
  pose proof (occurs_lt _ _ _ NE Oi) as Li.
  cbn [refine_loop patternFound].
  destruct (compare_candidate_counts fuel f1 f2 (i + length P) I1 I2)
    as (g1 & g2 & E & D1 & J1 & D2 & J2);
    try (unfold size; rewrite ?C1, ?C2; lia).
  unfold overlapCount at 1. cbn [matchPosition patternSize].
  rewrite E. unfold size. rewrite C1, C2.
  change (with_bytesDiffering (mkMatchResult true i (length P) 0)
            (differing (skipn (length S1 - (i + length P)) S1) S2))
    with (candidate S1 S2 P i).
  destruct (Nat.eq_dec i pz) as [->|Ne].
  - assert (Q1 : Qgtb (quota (candidate S1 S2 P pz)) (quota result) = true).
    { apply Qgtb_true. eapply Qle_lt_trans; [exact Hq|].
      rewrite (quota_zero_diff S1 S2 P pz NE Hzero). reflexivity. }
    rewrite Q1.
    assert (Q2 : Qgtb (quota (candidate S1 S2 P pz)) threshold = true).
    { apply Qgtb_true. rewrite (quota_zero_diff S1 S2 P pz NE Hzero). reflexivity. }
    rewrite Q2. cbn [orb]. eauto.
  - destruct (Hearlier i) as [Bt Qi]; [lia|assumption|].
    set (result' := if Qgtb (quota (candidate S1 S2 P i)) (quota result)
                    then candidate S1 S2 P i else result).
    assert (Hq' : (quota result' <= threshold)%Q).
    { unfold result'. destruct (Qgtb _ _); assumption. }
    assert (Q2 : Qgtb (quota result') threshold = false) by now apply Qgtb_false.
    rewrite Q2. replace (negb best) with false by (rewrite Bt; reflexivity).
    cbn [orb candidate matchPosition].
    destruct (searchInFile_post B g2 P (i + 1) fuel HB NE LB J2) as (r & f' & Srch & Post').
    { unfold size. rewrite D2, C2. lia. }
    rewrite Srch.
    destruct (searchInFile_sound _ _ _ _ _ _ _ NE Srch) as (C3 & I3 & _).
    rewrite D2, C2 in Post'.
    apply (IH fuel g1 f' result' r _ (i + 1)); try congruence; try lia; assumption.
Qed.

Lemma refine_selects (fuel : nat) (f1 f2 : istream) :
  content f1 = S1 -> content f2 = S2 -> ioerr f1 = None -> ioerr f2 = None ->
  length S1 + length S2 + 5 <= fuel ->
  exists ex g,
    refine B fuel best P f1 f2 = Some (Ok (candidate S1 S2 P pz, ex), g).
Proof.
  intros C1 C2 I1 I2 Fuel. unfold refine.
  destruct (searchInFile_post B f2 P 0 fuel HB NE LB I2) as (r & f' & Srch & Post).
  { unfold size. rewrite C2. lia. }
  rewrite Srch.
  destruct (searchInFile_sound _ _ _ _ _ _ _ NE Srch) as (C3 & I3 & _).
  rewrite C2 in Post.
  apply (refine_loop_selects fuel fuel f1 f' _ r _ 0); try congruence; try lia;
    try assumption.
  rewrite quota_default. discriminate.
Qed.

End RefineSpec.

(** * Short reads *)

Lemma read_event (f f' : istream) (n : nat) (bs : list byte) :
  eof_sound f -> read f n = (bs, f') ->
  eof_sound f' /\
  exists e, reads f' = e :: reads f /\
            (short_read e = true -> (length bs <? n) && negb (eof f') = true).
Proof.
  unfold eof_sound, read. intros Snd.
  destruct (good f) eqn:G; cbn [negb].
  - apply good_flags in G. destruct G as (E1 & E2 & E3).
    destruct (hits_ioerr f n).
    + intros E. injection E as <- <-. unfold eof, size. simpl. split; [assumption|].
      eexists. split; [reflexivity|].
      unfold short_read. simpl. rewrite E1. intros H.
      apply andb_true_iff in H. destruct H as [H _]. now rewrite H.
    + intros E. injection E as <- <-.
      set (bs := firstn n (skipn (gpos f) (content f))).
      assert (L : (length bs <? n) = true -> length (content f) <= gpos f + length bs).
      { intros Sh. apply Nat.ltb_lt in Sh. unfold bs in *.
        rewrite length_firstn, length_skipn in *. lia. }
      unfold eof, size. simpl. rewrite E1. simpl. split; [exact L|].
      eexists. split; [reflexivity|].
      unfold short_read, ends_at_eos, size. simpl. intros H.
      apply andb_true_iff in H. destruct H as [H1 H2].
      apply L in H1. apply Nat.leb_le in H1. rewrite H1 in H2. discriminate.
  - intros E. injection E as <- <-. unfold eof, size. simpl. split; [assumption|].
    eexists. split; [reflexivity|].
    unfold short_read, ends_at_eos, size. simpl. intros H.
    apply andb_true_iff in H. destruct H as [H1 H2]. rewrite H1. simpl.
    destruct (eofbit f); [|reflexivity].
    specialize (Snd eq_refl). unfold size in Snd.
    apply Nat.leb_le in Snd. rewrite Snd in H2. discriminate.
Qed.

Lemma search_loop_reads (B : nat) (P : list byte) :
  forall fuel file buffer brp rbs position o f',
    eof_sound file ->
    search_loop B fuel file P buffer brp rbs position = Some (o, f') ->
    exists new, reads f' = new ++ reads file /\
                forall e, In e new -> short_read e = true -> o = Throw.
Proof.
  induction fuel as [|fuel IH]; intros file buffer brp rbs position o f' Snd; [discriminate|].
  simpl. destruct (ok file || _).
  - destruct (read file B) as [block file'] eqn:R.
    destruct (read_event _ _ _ _ Snd R) as (Snd' & e & Er & Sh).
    destruct ((length block <? B) && negb (eof file')) eqn:T.
    + intros E. injection E as <- <-. exists [e]. split; [exact Er|reflexivity].
    + assert (Fine : forall o e', In e' [e] -> short_read e' = true -> o = @Throw MatchResult).
      { intros o' e' [<-|[]] He. apply Sh in He. congruence. }
      match goal with |- (if ?c then _ else _) = _ -> _ => destruct c end.
      * intros E. injection E as <- <-. exists [e]. split; [exact Er|apply Fine].
      * intros L. destruct (IH _ _ _ _ _ _ _ Snd' L) as (new & En & Hn).
        exists (new ++ [e]). rewrite <- app_assoc. split; [now rewrite En, Er|].
        intros e' He'. apply in_app_or in He'. destruct He' as [He'|He']; [now apply Hn|].
        now apply Fine.
  - intros E. injection E as <- <-. exists []. split; [reflexivity|]. intros e [].
Qed.

Lemma searchInFile_reads (B fuel : nat) (f : istream) (P : list byte) (pos : nat)
      (o : res MatchResult) (f' : istream) :
  searchInFile B fuel f P pos = Some (o, f') ->
  exists new, reads f' = new ++ reads f /\
              forall e, In e new -> short_read e = true -> o = Throw.
Proof.
  unfold searchInFile.
  assert (Snd : eof_sound (seekg (clear f) pos)) by (unfold eof_sound; discriminate).
  destruct (read (seekg (clear f) pos) B) as [block file] eqn:R.
  destruct (read_event _ _ _ _ Snd R) as (Snd' & e & Er & Sh).
  change (reads (seekg (clear f) pos)) with (reads f) in Er.
  destruct ((length block <? B) && negb (eof file)) eqn:T.
  - intros E. injection E as <- <-. exists [e]. split; [exact Er|reflexivity].
  - intros L. destruct (search_loop_reads _ _ _ _ _ _ _ _ _ _ Snd' L) as (new & En & Hn).
    exists (new ++ [e]). rewrite <- app_assoc. split; [now rewrite En, Er|].
    intros e' He'. apply in_app_or in He'. destruct He' as [He'|[<-|[]]]; [now apply Hn|].
    intros He. apply Sh in He. congruence.
Qed.

Lemma compare_loop_reads (B : nat) :
  forall fuel f1 f2 t d o g1 g2,
    eof_sound f1 -> eof_sound f2 ->
    compare_loop B fuel f1 f2 t d = Some (o, (g1, g2)) ->
    exists new1 new2,
      reads g1 = new1 ++ reads f1 /\ reads g2 = new2 ++ reads f2 /\
      forall e, In e new1 \/ In e new2 -> short_read e = true -> o = Throw.
Proof.
  induction fuel as [|fuel IH]; intros f1 f2 t d o g1 g2 S1 S2; [discriminate|].
  simpl.
  destruct (read f1 B) as [b1 h1] eqn:R1.
  destruct (read f2 B) as [b2 h2] eqn:R2.
  destruct (read_event _ _ _ _ S1 R1) as (S1' & e1 & Er1 & Sh1).
  destruct (read_event _ _ _ _ S2 R2) as (S2' & e2 & Er2 & Sh2).
  destruct ((length b1 <? B) && negb (eof h1)) eqn:T1;
    [|destruct ((length b2 <? B) && negb (eof h2)) eqn:T2]; cbn [orb].
  - intros E. injection E as <- <- <-. exists [e1], [e2]. auto.
  - intros E. injection E as <- <- <-. exists [e1], [e2]. auto.
  - assert (Fine : forall o e, In e [e1] \/ In e [e2] -> short_read e = true -> o = @Throw nat).
    { intros o' e [[<-|[]]|[<-|[]]] He; [apply Sh1 in He|apply Sh2 in He]; congruence. }
    destruct (ok h1 && ok h2).
    + intros L. destruct (IH _ _ _ _ _ _ _ S1' S2' L) as (n1 & n2 & E1 & E2 & Hn).
      exists (n1 ++ [e1]), (n2 ++ [e2]). rewrite <- !app_assoc.
      split; [now rewrite E1, Er1|]. split; [now rewrite E2, Er2|].
      intros e He. rewrite !in_app_iff in He.
      destruct He as [[He|He]|[He|He]];
        [apply Hn; now left|apply Fine; now left|apply Hn; now right|apply Fine; now right].
    + intros E. injection E as <- <- <-. exists [e1], [e2].
      split; [exact Er1|]. split; [exact Er2|]. apply Fine.
Qed.

(** * Assembly *)

Lemma merge_step (fs : filesystem) (name : String.string) (names : list String.string)
      (bytes : list byte) (rs : list MatchResult) (i : nat) (out : ostream) :
  fs name = Some bytes ->
  merge_loop fs (name :: names) rs i out
  = merge_loop fs names rs (S i)
               (insert_rdbuf out (set_gpos (open bytes) (cut_offset rs i))).
Proof.
  intros E. cbn [merge_loop]. rewrite E. f_equal. f_equal.
  destruct i as [|k]; cbn [cut_offset Nat.ltb Nat.leb andb]; [reflexivity|].
  replace (S k - 1) with k by lia.
  change (0 <? S k) with true. cbn [andb].
  destruct (patternFound (nth k rs MatchResult_default)); reflexivity.
Qed.

Lemma insert_rdbuf_written (out : ostream) (bytes : list byte) (p : nat) :
  ofailbit out = false ->
  written (insert_rdbuf out (set_gpos (open bytes) p)) = written out ++ skipn p bytes /\
  (skipn p bytes <> [] ->
   ofailbit (insert_rdbuf out (set_gpos (open bytes) p)) = false).
Proof.
  intros F. unfold insert_rdbuf. rewrite F. cbn [gpos content set_gpos open].
  destruct (skipn p bytes) as [|x l]; cbn [written ofailbit].
  - split; [now rewrite app_nil_r|congruence].
  - split; reflexivity.
Qed.

Lemma merge_loop_failed (fs : filesystem) (names : list String.string)
      (rs : list MatchResult) :
  forall i out, ofailbit out = true -> merge_loop fs names rs i out = out.
Proof.
  induction names as [|name names IH]; intros i out F; [reflexivity|].
  cbn [merge_loop]. destruct (fs name); [|reflexivity].
  match goal with |- merge_loop _ _ _ _ (insert_rdbuf out ?x) = _ =>
    replace (insert_rdbuf out x) with out by (unfold insert_rdbuf; now rewrite F)
  end.
  now apply IH.
Qed.

(** The assembly writes each file from its cut offset when every file
    before the last has something left to copy. *)
Lemma merge_loop_concat (fs : filesystem) (rs : list MatchResult) :
  forall names contents i out,
    Forall2 (fun n c => fs n = Some c) names contents ->
    ofailbit out = false ->
    contributes contents rs i ->
    written (merge_loop fs names rs i out) = written out ++ assembled contents rs i.
Proof.
  induction names as [|name names IH]; intros contents i out All F Contr.
  - inversion All; subst. cbn. now rewrite app_nil_r.
  - inversion All as [|n c ns cs E Rest]; subst.
    rewrite (merge_step _ _ _ _ _ _ _ E).
    destruct (insert_rdbuf_written out c (cut_offset rs i) F) as [W G].
    cbn [assembled].
    destruct cs as [|c' cs'].
    + inversion Rest; subst. cbn [merge_loop assembled].
      now rewrite W, app_nil_r.
    + destruct Contr as [NE Contr].
      rewrite (IH (c' :: cs') (S i) _ Rest (G NE) Contr), W.
      now rewrite app_assoc.
Qed.

(** A file with nothing left after its cut offset ends the output: the
    stream fails and no later file is written. *)
Lemma merge_loop_empty_copy (fs : filesystem) (name : String.string)
      (names : list String.string) (bytes : list byte) (rs : list MatchResult)
      (i : nat) (out : ostream) :
  fs name = Some bytes -> ofailbit out = false ->
  skipn (cut_offset rs i) bytes = [] ->
  merge_loop fs (name :: names) rs i out = mkOut (written out) true.
Proof.
  intros E F Z. rewrite (merge_step _ _ _ _ _ _ _ E).
  assert (I : insert_rdbuf out (set_gpos (open bytes) (cut_offset rs i))
              = mkOut (written out) true).
  { unfold insert_rdbuf. rewrite F. cbn [gpos content set_gpos open]. now rewrite Z. }
  rewrite I. now apply merge_loop_failed.
Qed.

Lemma extract_pattern_long (f : istream) :
  ioerr f = None -> 20 <= size f ->
  exists f', extract_pattern f = (Ok (skipn (size f - 20) (content f)), f') /\
             content f' = content f /\ ioerr f' = None.
Proof.
  intros E L. unfold extract_pattern, seekg_end.
  cbn [fail clear_eofbit clear failbit badbit orb].
  change (size (clear_eofbit (clear f))) with (size f).
  destruct (Z.of_nat (size f) + -20 <? 0)%Z eqn:T; [apply Z.ltb_lt in T; lia|].
  replace (Z.to_nat (Z.of_nat (size f) + -20)) with (size f - 20) by lia.
  unfold rdbuf_rest, hits_ioerr. cbn [ioerr set_gpos clear_eofbit clear gpos content].
  rewrite E. eexists. split; [reflexivity|]. split; [reflexivity|assumption].
Qed.

Lemma extract_pattern_short (f : istream) :
  ioerr f = None -> size f < 20 ->
  exists f', extract_pattern f = (Ok (skipn (gpos f) (content f)), f') /\
             content f' = content f /\ ioerr f' = None.
Proof.
  intros E L. unfold extract_pattern, seekg_end.
  cbn [fail clear_eofbit clear failbit badbit orb].
  change (size (clear_eofbit (clear f))) with (size f).
  destruct (Z.of_nat (size f) + -20 <? 0)%Z eqn:T; [|apply Z.ltb_ge in T; lia].
  unfold rdbuf_rest, hits_ioerr. cbn [ioerr set_failbit clear_eofbit clear gpos content].
  rewrite E. eexists. split; [reflexivity|]. split; [reflexivity|assumption].
Qed.

Lemma blockSize_pos : 0 < blockSize.
Proof. apply Nat.ltb_lt. reflexivity. Qed.

Lemma blockSize_fingerprint (P : list byte) : length P <= 20 -> length P <= blockSize + 1.
Proof.
  intros L. etransitivity; [exact L|]. apply Nat.leb_le. reflexivity.
Qed.

(** * Round trip and the empty pattern *)

Section RoundTrip.

Variable fs : filesystem.
Variables a b : String.string.
Variables X Y Z : list byte.
Variable best : bool.
Hypothesis Ha : fs a = Some (X ++ Y).
Hypothesis Hb : fs b = Some (Y ++ Z).
Hypothesis Hk : 20 <= length Y.






Hypothesis Hearlier :
  forall p, p < length Y - 20 -> occurs (Y ++ Z) (tail_fingerprint Y) p ->
            best = true /\
            (quota (candidate (X ++ Y) (Y ++ Z) (tail_fingerprint Y) p) <= threshold)%Q.

Variable fuel : nat.
Hypothesis Hfuel : length (X ++ Y) + length (Y ++ Z) + 5 <= fuel.



End RoundTrip.

(** Once the stream has failed at the end of its file and the buffer is
    empty, the scan for an empty pattern goes round for ever. *)
Lemma search_loop_empty_hangs (B : nat) :
  forall fuel file rbs position,
    ok file = false -> eofbit file = true ->
    search_loop B fuel file [] [] 0 rbs position = None.
Proof.
  induction fuel as [|fuel IH]; intros file rbs position Hok Heof; [reflexivity|].
  cbn [search_loop length]. rewrite Hok. cbn [orb Nat.leb].
  assert (G : good file = false).
  { unfold good. now rewrite Heof. }
  unfold read. rewrite G. cbn [negb length].
  unfold eof. cbn [eofbit log set_failbit]. rewrite Heof.
  rewrite andb_false_r. cbn [firstn app stop_index Nat.add Nat.eqb std_search
                             starts_with negb skipn].
  apply IH.
  - unfold ok, fail. cbn. reflexivity.
  - exact Heof.
Qed.

(** * Short predecessors *)

Lemma search_post_absent (S P : list byte) (start : nat) (r : MatchResult) :
  (forall j, ~ occurs S P j) -> search_post S P start r -> r = MatchResult_default.
Proof.
  intros No [i _ Oi _|_]; [|reflexivity]. exfalso. now apply (No i).
Qed.

Lemma refine_absent (B fuel : nat) (best : bool) (P : list byte) (f1 f2 : istream) :
  0 < B -> P <> [] -> length P <= B + 1 -> ioerr f2 = None ->
  size f2 + 5 <= fuel ->
  (forall j, ~ occurs (content f2) P j) ->
  exists g, refine B fuel best P f1 f2 = Some (Ok (MatchResult_default, []), g).
Proof.
  intros HB NE LB I2 Fuel No. unfold refine.
  destruct (searchInFile_post B f2 P 0 fuel HB NE LB I2 Fuel) as (r & f' & Srch & Post).
  rewrite Srch. rewrite (search_post_absent _ _ _ _ No Post).
  destruct fuel as [|fuel]; [lia|]. cbn [refine_loop patternFound MatchResult_default].
  eauto.
Qed.

Lemma scan_of_short_predecessor (fuel : nat) (best : bool) (fs : filesystem)
      (file1 : istream) (name : String.string) (bytes : list byte)
      (acc : list MatchResult) :
  ioerr file1 = None -> size file1 < 20 -> gpos file1 < size file1 ->
  fs name = Some bytes ->
  size file1 + length bytes + 5 <= fuel ->
  fst (extract_pattern file1) = Ok (skipn (gpos file1) (content file1)) /\
  scan blockSize fuel best fs file1 [name] acc <> None /\
  ((forall j, ~ occurs bytes (skipn (gpos file1) (content file1)) j) ->
   scan blockSize fuel best fs file1 [name] acc
   = Some (ScanDone (acc ++ [MatchResult_default]))).
Proof.
  intros I1 Short Rest Hn Fuel.
  destruct (extract_pattern_short file1 I1 Short) as (f1 & E & C1 & J1).
  set (P := skipn (gpos file1) (content file1)) in *.
  assert (LP : 0 < length P /\ length P <= 20).
  { unfold P. rewrite length_skipn. unfold size in *. lia. }
  assert (NE : P <> []) by (intros Z; rewrite Z in LP; cbn in LP; lia).
  split; [now rewrite E|].
  cbn [scan]. rewrite E, Hn. split.
  - destruct (refine blockSize fuel best P f1 (open bytes))
      as [[[[r ex]|] [g1 g2]]|] eqn:R; try discriminate.
    exfalso. revert R. apply refine_terminates; auto using blockSize_pos.
    unfold size in *. rewrite C1. cbn [content open]. lia.
  - intros No.
    destruct (refine_absent blockSize fuel best P f1 (open bytes)) as ([g1 g2] & R);
      auto using blockSize_pos.
    + apply blockSize_fingerprint. lia.
    + unfold size. cbn [content open]. lia.
    + now rewrite R.
Qed.

(** * Hangs, fuel and checks *)

(** For the empty pattern, a search that starts within one byte of the
    end of the file never returns. *)
Lemma searchInFile_empty_hangs (B : nat) (f : istream) (pos : nat) :
  1 < B -> ioerr f = None -> size f <= pos + 1 ->
  forall fuel, searchInFile B fuel f [] pos = None.
Proof.
  intros HB I L fuel. unfold searchInFile.
  destruct (settled_fresh f pos I) as [St G].
  destruct (read (seekg (clear f) pos) B) as [block file] eqn:R.
  destruct (read_settled _ _ _ _ St (Nat.lt_succ_l _ _ HB) R) as (Eb & Ec & St' & Eg & Cases).
  change (content (seekg (clear f) pos)) with (content f) in *.
  change (gpos (seekg (clear f) pos)) with pos in *.
  assert (Lb : length block <= 1).
  { rewrite Eb, length_firstn, length_skipn. unfold size in L. lia. }
  destruct Cases as [(E & _)|(_ & Eof & Ok' & _)]; [lia|].
  rewrite Eof, andb_false_r.
  destruct fuel as [|fuel]; [reflexivity|].
  cbn [search_loop length]. rewrite Ok'. cbn [orb Nat.leb].
  assert (G' : good file = false).
  { unfold good. unfold eof in Eof. now rewrite Eof. }
  unfold read. rewrite G'. cbn [negb length].
  unfold eof in *. cbn [eofbit log set_failbit]. rewrite Eof, andb_false_r.
  rewrite Nat.add_0_r, app_nil_r, firstn_all.
  assert (Stop : stop_index (length block) 0 (length block) = 0).
  { unfold stop_index. rewrite Nat.add_0_r.
    destruct (length block =? 0) eqn:Z; [now apply Nat.eqb_eq in Z|lia]. }
  rewrite Stop. cbn [firstn std_search starts_with Nat.eqb negb].
  rewrite skipn_all. apply search_loop_empty_hangs.
  - unfold ok, fail. cbn. reflexivity.
  - exact Eof.
Qed.

(** More fuel does not change what the scan returned. *)
Lemma search_loop_fuel_mono (B : nat) (P : list byte) :
  forall fuel extra file buffer brp rbs position out,
    search_loop B fuel file P buffer brp rbs position = Some out ->
    search_loop B (fuel + extra) file P buffer brp rbs position = Some out.
Proof.
  induction fuel as [|fuel IH]; intros extra file buffer brp rbs position out; [discriminate|].
  cbn [search_loop Nat.add].
  destruct (ok file || _); [|trivial].
  destruct (read file B) as [block file'].
  destruct (_ && _); [trivial|].
  match goal with |- (if ?c then _ else _) = _ -> _ => destruct c end; [trivial|].
  apply IH.
Qed.

Lemma searchInFile_fuel_mono (B fuel extra : nat) (f : istream) (P : list byte)
      (pos : nat) (out : res MatchResult * istream) :
  searchInFile B fuel f P pos = Some out ->
  searchInFile B (fuel + extra) f P pos = Some out.
Proof.
  unfold searchInFile. destruct (read _ B) as [block file].
  destruct (_ && _); [trivial|]. apply search_loop_fuel_mono.
Qed.

(** A pattern that the in-memory search does not find occurs nowhere. *)
Lemma absent_checked (S P : list byte) :
  P <> [] -> substring_search S P 0 = None -> forall j, ~ occurs S P j.
Proof.
  intros NE E j. pose proof (substring_search_post S P 0 NE) as Post.
  rewrite E in Post. cbn [found_at] in Post.
  inversion Post as [|No]. apply No. lia.
Qed.

(** The side condition of the selection, checked offset by offset. *)
Lemma earlier_checked (S1 S2 P : list byte) (pz : nat) :
  forallb (fun p => negb (starts_with (skipn p S2) P)
                    || negb (Qgtb (quota (candidate S1 S2 P p)) threshold))
          (seq 0 pz) = true ->
  forall p, p < pz -> occurs S2 P p ->
            (quota (candidate S1 S2 P p) <= threshold)%Q.
Proof.
  intros All p Hp Occ. rewrite forallb_forall in All.
  specialize (All p). rewrite in_seq in All. specialize (All (conj (Nat.le_0_l p) Hp)).
  apply starts_with_occurs in Occ. rewrite Occ in All. cbn [negb orb] in All.
  apply negb_true_iff in All. now apply Qgtb_false.
Qed.

(** * More fuel *)

Section FuelMono.

Variable B : nat.

Lemma compare_loop_fuel_mono :
  forall fuel extra f1 f2 t d out,
    compare_loop B fuel f1 f2 t d = Some out ->
    compare_loop B (fuel + extra) f1 f2 t d = Some out.
Proof.
  induction fuel as [|fuel IH]; intros extra f1 f2 t d out; [discriminate|].
  cbn [compare_loop Nat.add].
  destruct (read f1 B) as [b1 g1]. destruct (read f2 B) as [b2 g2].
  destruct (_ || _); [trivial|].
  destruct (ok g1 && ok g2); [apply IH|trivial].
Qed.

Lemma refine_loop_fuel_mono :
  forall n fuel extra more best P f1 f2 result last examined out,
    refine_loop B fuel n best P f1 f2 result last examined = Some out ->
    refine_loop B (fuel + extra) (n + more) best P f1 f2 result last examined
    = Some out.
Proof.
  induction n as [|n IH];
    intros fuel extra more best P f1 f2 result last examined out; [discriminate|].
  cbn [refine_loop Nat.add].
  destruct (patternFound last); [|trivial].
  unfold compareFiles.
  destruct (compare_loop B fuel _ _ 0 0) as [[[d|] [g1 g2]]|] eqn:C;
    try discriminate;
    rewrite (compare_loop_fuel_mono _ extra _ _ _ _ _ C); [|trivial].
  destruct (_ || _); [trivial|].
  destruct (searchInFile B fuel g2 P _) as [[[l|] g2']|] eqn:S;
    try discriminate;
    rewrite (searchInFile_fuel_mono _ _ extra _ _ _ _ S); [|trivial].
  apply IH.
Qed.

Lemma refine_fuel_mono (fuel extra : nat) (best : bool) (P : list byte)
      (f1 f2 : istream) out :
  refine B fuel best P f1 f2 = Some out ->
  refine B (fuel + extra) best P f1 f2 = Some out.
Proof.
  unfold refine.
  destruct (searchInFile B fuel f2 P 0) as [[[l|] g2']|] eqn:S;
    try discriminate;
    rewrite (searchInFile_fuel_mono _ _ extra _ _ _ _ S); [|trivial].
  apply refine_loop_fuel_mono.
Qed.

Lemma scan_fuel_mono :
  forall names fuel extra best fs file1 acc out,
    scan B fuel best fs file1 names acc = Some out ->
    scan B (fuel + extra) best fs file1 names acc = Some out.
Proof.
  induction names as [|name names IH]; intros fuel extra best fs file1 acc out;
    [trivial|].
  cbn [scan].
  destruct (extract_pattern file1) as [[P|] f1]; [|trivial].
  destruct (fs name) as [bytes|]; [|trivial].
  destruct (refine B fuel best P f1 (open bytes)) as [[[[r ex]|] [g1 g2]]|] eqn:R;
    try discriminate;
    rewrite (refine_fuel_mono _ extra _ _ _ _ _ R); [|trivial].
  apply IH.
Qed.

End FuelMono.

(** A run of [main] that has ended ends the same way with more fuel. *)
Lemma main_fuel_mono (fuel extra : nat) (fs : filesystem)
      (best outputOpens decision : bool) (file0 : string) (files : list string)
      (out : outcome) :
  main fuel fs best outputOpens decision file0 files = Some out ->
  main (fuel + extra) fs best outputOpens decision file0 files = Some out.
Proof.
  unfold main. destruct (fs file0) as [bytes|]; [|trivial].
  destruct (scan blockSize fuel best fs (open bytes) files []) as [s|] eqn:E;
    [|discriminate].
  now rewrite (scan_fuel_mono _ _ _ extra _ _ _ _ _ E).
Qed.

(** * The claims

    The runs below are evaluated with a given amount of fuel; a run
    that has ended ends the same way with more ([main_fuel_mono],
    [scan_fuel_mono], [refine_fuel_mono], [searchInFile_fuel_mono]). *)

(** ** C1: the searcher against the in-memory search *)

(** C1, as the code has it. For every stream on a device without
    fault, every start offset and every non-empty pattern that is no
    longer than a block plus one byte (4097 bytes with the 4096-byte
    blocks of the program), [searchInFile] returns what the
    straightforward in-memory search returns: found, with
    [matchPosition] the earliest offset at or after the start offset at
    which the pattern occurs and [patternSize] its length, or not found
    when there is no such offset. Any two block sizes that are at least
    the pattern length minus one give the same result. *)
Theorem searchInFile_refines_substring_search
        (B B' : nat) (f : istream) (P : list byte) (pos fuel : nat) :
  0 < B -> 0 < B' -> P <> [] -> length P <= B + 1 -> length P <= B' + 1 ->
  ioerr f = None -> size f + 5 <= fuel ->
  (exists f',
     searchInFile B fuel f P pos
     = Some (Ok (found_at (substring_search (content f) P pos) (length P)), f')) /\
  search_post (content f) P pos
              (found_at (substring_search (content f) P pos) (length P)) /\
  option_map fst (searchInFile B fuel f P pos)
  = option_map fst (searchInFile B' fuel f P pos).
Proof.
  intros HB HB' NE LB LB' I Fuel.
  pose proof (substring_search_post (content f) P pos NE) as Spec.
  destruct (searchInFile_post B f P pos fuel HB NE LB I Fuel) as (r & f1 & E & Post).
  destruct (searchInFile_post B' f P pos fuel HB' NE LB' I Fuel)
    as (r' & f2 & E' & Post').
  split; [|split; [exact Spec|]].
  - exists f1. rewrite E. do 3 f_equal.
    eapply search_post_unique; eassumption.
  - rewrite E, E'. cbn [option_map fst]. do 2 f_equal.
    eapply search_post_unique; eassumption.
Qed.

Lemma searchInFile_refines_substring_search_witness :
  (exists f',
     searchInFile blockSize 40 (open segment_b) (bytes_of "ab") 0
     = Some (Ok (mkMatchResult true 10 2 0), f')) /\
  option_map fst (searchInFile blockSize 40 (open segment_b) (bytes_of "ab") 0)
  = option_map fst (searchInFile 1 40 (open segment_b) (bytes_of "ab") 0).
Proof.
  destruct (searchInFile_refines_substring_search
              blockSize 1 (open segment_b) (bytes_of "ab") 0 40)
    as ([f' E] & _ & Same).
  - apply Nat.ltb_lt. reflexivity.
  - apply Nat.ltb_lt. reflexivity.
  - discriminate.
  - apply Nat.leb_le. reflexivity.
  - apply Nat.leb_le. reflexivity.
  - reflexivity.
  - apply Nat.leb_le. reflexivity.
  - split; [exists f'; exact E|exact Same].
Defined.

(** C1 as stated fails on a pattern of 4098 bytes: it occurs at offset
    4095 of an 8193-byte stream, and the search with the program's block
    size reports that it was not found (it returns within 8 passes, and
    more fuel does not change what was returned). *)
Lemma searchInFile_misses_long_pattern :
  long_pattern <> [] /\
  length long_pattern <= length long_stream /\
  occurs long_stream long_pattern 4095 /\
  option_map fst (searchInFile blockSize 8 (open long_stream) long_pattern 0)
  = Some (Ok MatchResult_default).
Proof.
  split; [discriminate|].
  split; [apply Nat.leb_le; vm_compute; reflexivity|].
  split; vm_compute; reflexivity.
Qed.

(** The same with blocks of two bytes and a pattern of four. *)
Example searchInFile_small_blocks :
  option_map fst (searchInFile 2 20 (open (bytes_of "xabcd")) (bytes_of "abcd") 0)
  = Some (Ok MatchResult_default) /\
  option_map fst (searchInFile 3 20 (open (bytes_of "xabcd")) (bytes_of "abcd") 0)
  = Some (Ok (mkMatchResult true 1 4 0)).
Proof. split; reflexivity. Qed.

(** ** C2: assembly *)

(** Where the assembly does write the concatenation of C2: the output
    file and every input open, and every file before the last has at
    least one byte from its cut offset on. *)
Lemma mergeFiles_concat (fs : filesystem) (names : list string)
      (contents : list (list byte)) (searchResults : list MatchResult) :
  Forall2 (fun n c => fs n = Some c) names contents ->
  contributes contents searchResults 0 ->
  option_map written (mergeFiles fs names searchResults true)
  = Some (assembled contents searchResults 0).
Proof.
  intros All Contr. cbn [mergeFiles option_map]. f_equal.
  now rewrite (merge_loop_concat fs searchResults names contents 0 (mkOut [] false)
                                 All eq_refl Contr).
Qed.

(** C2 on three files with no overlap found, the second of them empty:
    the copy of the empty file inserts no byte, which sets failbit on
    the output stream, and the third file is never written. The claim
    asks for the first file followed by the third. The same happens in a
    run of [main] on a recording whose second segment lies wholly inside
    the first: nothing of it is left to copy, and the third segment is
    lost. *)
Theorem mergeFiles_stops_after_empty_copy :
  mergeFiles with_gap ["first"%string; "gap"%string; "third"%string]
             [MatchResult_default; MatchResult_default] true
  = Some (mkOut (bytes_of "first") true) /\
  assembled [bytes_of "first"; []; bytes_of "third"]
            [MatchResult_default; MatchResult_default] 0
  = bytes_of "firstthird" /\
  main 100 with_gap false true true "first"%string ["gap"%string; "third"%string]
  = Some (Exit 0 (Some (bytes_of "first"))) /\
  scan blockSize 100 false contained (open segment_a) ["b"%string; "c"%string] []
  = Some (ScanDone [mkMatchResult true 0 20 0; MatchResult_default]) /\
  main 100 contained false true true "a"%string ["b"%string; "c"%string]
  = Some (Exit 0 (Some segment_a)) /\
  assembled [segment_a; bytes_of "0123456789abcdefghij"; segment_c]
            [mkMatchResult true 0 20 0; MatchResult_default] 0
  = segment_a ++ segment_c.
Proof. repeat split; vm_compute; reflexivity. Qed.

(** ** C3: round trip *)




(** ** C4: best-match refinement *)

(** C4. Whenever the refinement of a pair returns a result, that result
    is the best of the candidates it examined: no candidate has a higher
    quota, and it is one of them or, when none was taken, the default
    not-found result; it examined no candidate after the best quota had
    passed 0.7, and only one when [--best] is off. It does return (a
    result or the fatal error) for every non-empty pattern. With
    [--best], when an occurrence of the pattern has no differing byte and
    every earlier occurrence has a quota of at most 0.7, the result is
    that occurrence. *)
Theorem refine_returns_best_match
        (B fuel : nat) (best : bool) (P : list byte) (f1 f2 : istream) :
  (forall r ex g,
     refine B fuel best P f1 f2 = Some (Ok (r, ex), g) ->
     best_of r ex /\ (ex = [] -> r = MatchResult_default) /\
     stops_early best ex) /\
  (0 < B -> P <> [] -> size f1 + size f2 + 5 <= fuel ->
   refine B fuel best P f1 f2 <> None) /\
  (forall pz,
     0 < B -> P <> [] -> length P <= B + 1 ->
     ioerr f1 = None -> ioerr f2 = None ->
     occurs (content f2) P pz -> pz + length P <= size f1 ->
     bytesDiffering (candidate (content f1) (content f2) P pz) = 0 ->
     (forall p, p < pz -> occurs (content f2) P p ->
                (quota (candidate (content f1) (content f2) P p) <= threshold)%Q) ->
     size f1 + size f2 + 5 <= fuel ->
     exists ex g,
       refine B fuel true P f1 f2
       = Some (Ok (candidate (content f1) (content f2) P pz, ex), g)).
Proof.
  split; [|split].
  - intros r ex g E. apply refine_examined in E. destruct E as [[All Mem] Stop].
    split; [now split|]. split; [|exact Stop].
    intros ->. destruct Mem as [Mem|[]]. exact Mem.
  - intros HB NE Fuel. now apply refine_terminates.
  - intros pz HB NE LB I1 I2 Occ Fit Zero Earlier Fuel.
    apply (refine_selects B HB (content f1) (content f2) P NE LB pz true);
      auto.
Qed.

Lemma refine_returns_best_match_witness :
  exists ex g,
    refine blockSize 200 true (bytes_of "0123456789abcdefghij")
           (open twice_a) (open twice_b)
    = Some (Ok (mkMatchResult true 40 20 0, ex), g) /\
    best_of (mkMatchResult true 40 20 0) ex /\
    (ex = [] -> mkMatchResult true 40 20 0 = MatchResult_default) /\
    stops_early true ex.
Proof.
  destruct (refine_returns_best_match blockSize 200 true
              (bytes_of "0123456789abcdefghij") (open twice_a) (open twice_b))
    as (Best & _ & Select).
  destruct (Select 40) as (ex & g & E).
  - apply Nat.ltb_lt. reflexivity.
  - discriminate.
  - apply Nat.leb_le. reflexivity.
  - reflexivity.
  - reflexivity.
  - vm_compute. reflexivity.
  - apply Nat.leb_le. reflexivity.
  - vm_compute. reflexivity.
  - apply earlier_checked. vm_compute. reflexivity.
  - apply Nat.leb_le. reflexivity.
  - exists ex, g. split; [exact E|]. exact (Best _ _ _ E).
Defined.

(** ** C5: a predecessor shorter than the fingerprint *)

(** What does hold for a short predecessor that still has a byte to
    read, as the first input file has when it is not empty. The seek to
    20 bytes before the end fails, and the fingerprint is what is left
    unread of the file. Processing the pair ends (with a result or with
    the fatal error), and it reports "not found" when that fingerprint
    does not occur in the successor. *)
Lemma short_predecessor (fuel : nat) (best : bool) (fs : filesystem)
        (file1 : istream) (name : string) (bytes : list byte)
        (acc : list MatchResult) :
  ioerr file1 = None -> size file1 < 20 -> gpos file1 < size file1 ->
  fs name = Some bytes ->
  size file1 + length bytes + 5 <= fuel ->
  fst (extract_pattern file1) = Ok (skipn (gpos file1) (content file1)) /\
  scan blockSize fuel best fs file1 [name] acc <> None /\
  ((forall j, ~ occurs bytes (skipn (gpos file1) (content file1)) j) ->
   scan blockSize fuel best fs file1 [name] acc
   = Some (ScanDone (acc ++ [MatchResult_default]))).
Proof. apply scan_of_short_predecessor. Qed.

Lemma short_predecessor_witness :
  scan blockSize 100 false tiny (open (bytes_of "hello")) ["other"%string] []
  = Some (ScanDone [MatchResult_default]).
Proof.
  destruct (short_predecessor 100 false tiny (open (bytes_of "hello")) "other"%string
              (bytes_of "something else") []) as (_ & _ & E).
  - reflexivity.
  - apply Nat.ltb_lt. reflexivity.
  - apply Nat.ltb_lt. reflexivity.
  - reflexivity.
  - apply Nat.leb_le. reflexivity.
  - apply E. apply absent_checked; [discriminate|reflexivity].
Defined.

(** An empty first file against a successor of one byte: the pattern is
    empty and the first search never returns. *)
Lemma scan_of_empty_file_hangs (fuel : nat) :
  scan blockSize fuel false tiny (open []) ["x"%string] [] = None.
Proof.
  cbn [scan].
  change (extract_pattern (open [])) with
    (@Ok (list byte) [], set_gpos (set_failbit (clear_eofbit (clear (open [])))) 0).
  change (tiny "x"%string) with (Some (bytes_of "x")).
  unfold refine. rewrite searchInFile_empty_hangs; [reflexivity| | |].
  - apply Nat.ltb_lt. reflexivity.
  - reflexivity.
  - apply Nat.leb_le. reflexivity.
Qed.

(** One pass of the scan loop. *)
Lemma scan_step (B fuel : nat) (best : bool) (fs : filesystem) (file1 f1 : istream)
      (name : string) (names : list string) (acc : list MatchResult)
      (P bytes : list byte) :
  extract_pattern file1 = (Ok P, f1) -> fs name = Some bytes ->
  scan B fuel best fs file1 (name :: names) acc
  = match refine B fuel best P f1 (open bytes) with
    | None => None
    | Some (Throw, _) => Some ScanThrow
    | Some (Ok (result, _), (_, file2)) =>
        scan B fuel best fs file2 names (acc ++ [result])
    end.
Proof. intros E1 E2. cbn [scan]. now rewrite E1, E2. Qed.

(** A short file in second place has been read to its end as a
    successor: as a predecessor it gives the empty pattern, although it
    holds five bytes. With [--best] the empty pattern is reported at
    offset 0 of the two-byte successor with quota 0, and the retry from
    offset 1 never returns. *)
Lemma scan_of_later_short_file_hangs (fuel : nat) :
  scan blockSize fuel true tiny (open (bytes_of "something else"))
       ["hello"%string; "xy"%string] [] = None.
Proof.
  destruct fuel as [|fuel]; [reflexivity|].
  erewrite scan_step; [|vm_compute; reflexivity|reflexivity].
  match goal with
  | |- context [refine ?b ?n ?t ?p ?f ?g] =>
      destruct (refine b n t p f g) as [[[[r ex]|] [g1 g2]]|] eqn:E1
  end; [|vm_compute in E1; discriminate|reflexivity].
  vm_compute in E1. injection E1 as <- _ _ <-.
  erewrite scan_step; [|vm_compute; reflexivity|reflexivity].
  unfold refine.
  match goal with
  | |- context [searchInFile ?b ?n ?f ?p ?q] =>
      destruct (searchInFile b n f p q) as [[o f2]|] eqn:E2; [|reflexivity]
  end.
  vm_compute in E2. injection E2 as <- <-.
  cbn [refine_loop patternFound].
  match goal with
  | |- context [compareFiles ?b ?f ?x ?y] =>
      destruct (compareFiles b f x y) as [[o fs]|] eqn:E3; [|reflexivity]
  end.
  vm_compute in E3. injection E3 as <- <-.
  cbn [with_bytesDiffering matchPosition patternFound patternSize].
  match goal with
  | |- context [if ?c then _ else _] =>
      replace c with false by (vm_compute; reflexivity)
  end.
  rewrite searchInFile_empty_hangs; [reflexivity| | |].
  - apply Nat.ltb_lt. reflexivity.
  - reflexivity.
  - apply Nat.leb_le. reflexivity.
Qed.

(** C5 fails on the code in each of its parts: nothing in [main] looks
    at the size of a file before the seek to 20 bytes before its end. A
    first file of five bytes is reported found at the head of its
    successor; with two more bytes in front of it there, the comparison
    seeks before the start of the predecessor, the read that follows
    raises, and the program terminates on the uncaught exception; an
    empty first file against a successor of one byte never returns; and
    a file of five bytes in second place, which the scan has read to its
    end, gives an empty pattern, with which the refinement under
    [--best] never returns. The claim asks for "not found", no crash and
    no hang in all four runs. *)
Theorem short_file_found_crash_hang :
  scan blockSize 100 false tiny (open (bytes_of "hello")) ["greeting"%string] []
  = Some (ScanDone [mkMatchResult true 0 5 0]) /\
  scan blockSize 100 false tiny (open (bytes_of "hello")) ["shifted"%string] []
  = Some ScanThrow /\
  ~ (exists fuel, scan blockSize fuel false tiny (open []) ["x"%string] [] <> None) /\
  main 100 tiny false true true "hello" ["greeting"%string]
  = Some (Exit 0 (Some (bytes_of "hello world"))) /\
  main 100 tiny false true true "hello" ["shifted"%string] = Some Terminated /\
  (forall fuel, main fuel tiny false true true "empty" ["x"%string] = None) /\
  (forall fuel,
     main fuel tiny true true true "other" ["hello"%string; "xy"%string] = None).
Proof.
  split; [vm_compute; reflexivity|]. split; [vm_compute; reflexivity|].
  split; [intros [fuel H]; apply H; apply scan_of_empty_file_hangs|].
  split; [vm_compute; reflexivity|]. split; [vm_compute; reflexivity|].
  split; intros fuel; unfold main.
  - change (tiny "empty"%string) with (@Some (list byte) []). cbv beta iota.
    now rewrite scan_of_empty_file_hangs.
  - change (tiny "other"%string) with (Some (bytes_of "something else")).
    cbv beta iota. now rewrite scan_of_later_short_file_hangs.
Qed.

(** ** C6: the invariants of a result *)

(** C6. Every result that the scan phase records differs in no more
    bytes than its overlap; its quota is the share of equal bytes in the
    overlap when it was found (the overlap is then positive) and 0 when
    not, hence between 0 and 1; and a result that was not found has
    position, pattern size and differing bytes 0. The candidates that
    the refinement of a pair scored on the way were all found, differ in
    no more bytes than their overlap and have a quota between 0 and 1,
    the share of equal bytes when the overlap is positive. *)
Theorem scan_results_well_scored (B fuel : nat) (best : bool) :
  (forall fs file1 names results,
     scan B fuel best fs file1 names [] = Some (ScanDone results) ->
     Forall (fun r =>
               bytesDiffering r <= overlapCount r /\
               quota r = (if patternFound r
                          then ratio (overlapCount r - bytesDiffering r)
                                     (overlapCount r)
                          else 0%Q) /\
               (0 <= quota r <= 1)%Q /\
               (patternFound r = true -> 0 < overlapCount r) /\
               (patternFound r = false ->
                matchPosition r = 0 /\ patternSize r = 0 /\ bytesDiffering r = 0))
            results) /\
  (forall P f1 f2 r ex g,
     refine B fuel best P f1 f2 = Some (Ok (r, ex), g) ->
     Forall (fun c =>
               patternFound c = true /\
               bytesDiffering c <= overlapCount c /\
               (0 <= quota c <= 1)%Q /\
               (0 < overlapCount c ->
                quota c = ratio (overlapCount c - bytesDiffering c) (overlapCount c)))
            ex).
Proof.
  split.
  - intros fs file1 names results E.
    apply scan_well_scored in E; [|constructor].
    eapply Forall_impl; [|exact E]. intros r W.
    pose proof (quota_well_scored r W) as Q. pose proof (quota_bounds r W) as Bd.
    unfold well_scored in W. destruct (patternFound r).
    + destruct W as [Pos Le].
      repeat split; auto; try apply Bd; intros; discriminate.
    + subst r. repeat split; auto; try apply Bd; intros; discriminate.
  - intros P f1 f2 r ex g E. apply refine_examined_scored in E.
    eapply Forall_impl; [|exact E]. intros c [F Le].
    split; [exact F|]. split; [exact Le|].
    destruct (Nat.eq_dec (overlapCount c) 0) as [Z|NZ].
    + split; [|lia]. unfold quota. rewrite F, Z. cbn. split; discriminate.
    + assert (W : well_scored c) by (unfold well_scored; rewrite F; lia).
      split; [now apply quota_bounds|].
      intros _. rewrite (quota_well_scored c W), F. reflexivity.
Qed.

Lemma scan_results_well_scored_witness :
  Forall (fun r => bytesDiffering r <= overlapCount r /\ (0 <= quota r <= 1)%Q)
         [mkMatchResult true 0 20 0] /\
  exists ex g,
    refine blockSize 200 true (bytes_of "0123456789abcdefghij")
           (open twice_a) (open twice_b)
    = Some (Ok (mkMatchResult true 40 20 0, ex), g) /\
    Forall (fun c => bytesDiffering c <= overlapCount c /\ (0 <= quota c <= 1)%Q) ex.
Proof.
  destruct (scan_results_well_scored blockSize 200 true) as [Recorded Scored].
  split.
  - assert (E : scan blockSize 200 true recording (open segment_a) ["b"%string] []
                = Some (ScanDone [mkMatchResult true 0 20 0]))
      by (vm_compute; reflexivity).
    apply Recorded in E. eapply Forall_impl; [|exact E].
    intros r (Le & _ & Bd & _). split; assumption.
  - destruct (refine blockSize 200 true (bytes_of "0123456789abcdefghij")
                     (open twice_a) (open twice_b))
      as [[[[r ex]|] g]|] eqn:E; try (vm_compute in E; discriminate).
    assert (Er : r = mkMatchResult true 40 20 0).
    { vm_compute in E. now injection E as <- _ _. }
    subst r. exists ex, g. split; [reflexivity|].
    apply Scored in E. eapply Forall_impl; [|exact E].
    intros c (_ & Le & Bd & _). split; assumption.
Defined.

(** ** C7: short reads *)

(** C7. Among the reads that [searchInFile] or [compareFiles] made, one
    that delivered fewer bytes than requested while the stream was not at
    the end of its file makes the function raise: it does not return a
    result, found or not. ([compareFiles] is entered with streams whose
    eofbit, if set, is set at the end of the file; [main] clears it
    before each call.) *)
Theorem short_read_is_fatal (B fuel : nat) :
  (forall f P pos o f',
     searchInFile B fuel f P pos = Some (o, f') ->
     exists new, reads f' = new ++ reads f /\
                 forall e, In e new -> short_read e = true -> o = Throw) /\
  (forall f1 f2 o g1 g2,
     eof_sound f1 -> eof_sound f2 ->
     compareFiles B fuel f1 f2 = Some (o, (g1, g2)) ->
     exists new1 new2,
       reads g1 = new1 ++ reads f1 /\ reads g2 = new2 ++ reads f2 /\
       forall e, In e new1 \/ In e new2 -> short_read e = true -> o = Throw).
Proof.
  split.
  - intros f P pos o f'. apply searchInFile_reads.
  - intros f1 f2 o g1 g2 S1 S2. unfold compareFiles. now apply compare_loop_reads.
Qed.

Lemma short_read_is_fatal_witness :
  (exists f',
     searchInFile blockSize 10 faulty (bytes_of "wor") 0 = Some (Throw, f') /\
     exists e, In e (reads f') /\ short_read e = true) /\
  (exists g1 g2,
     compareFiles blockSize 10 faulty (open (bytes_of "hello world"))
     = Some (Throw, (g1, g2)) /\
     exists e, In e (reads g1) /\ short_read e = true).
Proof.
  destruct (short_read_is_fatal blockSize 10) as [Srch Cmp].
  split.
  - destruct (searchInFile blockSize 10 faulty (bytes_of "wor") 0)
      as [[o f']|] eqn:E; [|vm_compute in E; discriminate].
    destruct (Srch _ _ _ _ _ E) as (new & En & Fatal).
    assert (In (RdEvent blockSize 0 false) new).
    { vm_compute in E. injection E as _ <-. cbn [reads] in En.
      destruct new as [|e [|e' new]]; try discriminate.
      rewrite app_nil_r in En. injection En as <-. now left. }
    rewrite (Fatal _ H eq_refl). exists f'. split; [reflexivity|].
    exists (RdEvent blockSize 0 false). split; [|reflexivity].
    rewrite En. apply in_or_app. now left.
  - destruct (compareFiles blockSize 10 faulty (open (bytes_of "hello world")))
      as [[o [g1 g2]]|] eqn:E; [|vm_compute in E; discriminate].
    assert (S1 : eof_sound faulty) by (unfold eof_sound; cbn; discriminate).
    assert (S2 : eof_sound (open (bytes_of "hello world")))
      by (unfold eof_sound; cbn; discriminate).
    destruct (Cmp _ _ _ _ _ S1 S2 E) as (new1 & new2 & E1 & E2 & Fatal).
    assert (In (RdEvent blockSize 0 false) new1).
    { vm_compute in E. injection E as _ <- _. cbn [reads] in E1.
      destruct new1 as [|e [|e' new1]]; try discriminate.
      rewrite app_nil_r in E1. injection E1 as <-. now left. }
    rewrite (Fatal _ (or_introl H) eq_refl). exists g1, g2. split; [reflexivity|].
    exists (RdEvent blockSize 0 false). split; [|reflexivity].
    rewrite E1. apply in_or_app. now left.
Defined.

(** ** C8: a file that does not open during assembly *)

(** Once the scan phase is through, [main] ends with status 0, whether
    or not the output file opens. *)
Lemma main_status_after_scan (fuel : nat) (fs : filesystem)
      (best outputOpens decision : bool) (file0 : string) (files : list string)
      (bytes : list byte) (searchResults : list MatchResult) :
  fs file0 = Some bytes ->
  scan blockSize fuel best fs (open bytes) files [] = Some (ScanDone searchResults) ->
  exists output,
    main fuel fs best outputOpens decision file0 files = Some (Exit 0 output) /\
    (outputOpens = false -> output = None).
Proof.
  intros E0 E. unfold main. rewrite E0, E.
  destruct decision.
  - eexists. split; [reflexivity|]. now intros ->.
  - eexists. split; [reflexivity|]. reflexivity.
Qed.

(** C8 on two overlapping files and an output file that cannot be
    opened: [mergeFiles] returns without a word to its caller and [main]
    ends with status 0, where the claim asks for a nonzero status (the
    scan phase does return 1 when a file does not open). When an input
    does not open during assembly, what was written before stays in the
    output file. *)
Theorem main_returns_zero_when_assembly_fails :
  main 100 recording false false true "a"%string ["b"%string] = Some (Exit 0 None) /\
  main 100 recording false true true "a"%string ["missing"%string] = Some (Exit 1 None) /\
  mergeFiles (files_of [("a"%string, segment_a)]) ["a"%string; "b"%string]
             [mkMatchResult true 0 20 0] true
  = Some (mkOut segment_a false).
Proof. repeat split; vm_compute; reflexivity. Qed.

(** ** C9: the refinement loop terminates *)

(** What does hold of the refinement loop. For every pair of streams
    and every non-empty pattern the refinement of a pair returns (a
    result or the fatal error): a match that [searchInFile] reports lies
    at or after the offset the search started from and inside the
    stream, so the start offsets of the retries, each one past the
    previous match, grow and stay within the stream. *)
Lemma refine_terminates_nonempty
        (B fuel : nat) (best : bool) (P : list byte) (f1 f2 : istream) :
  0 < B -> P <> [] -> size f1 + size f2 + 5 <= fuel ->
  refine B fuel best P f1 f2 <> None /\
  (forall pos r f',
     searchInFile B fuel f2 P pos = Some (Ok r, f') ->
     patternFound r = true ->
     pos <= matchPosition r /\ matchPosition r < size f2).
Proof.
  intros HB NE Fuel. split; [now apply refine_terminates|].
  intros pos r f' E F.
  destruct (searchInFile_sound _ _ _ _ _ _ _ NE E) as (_ & _ & Snd).
  destruct (Snd r eq_refl) as [(Fl & _)|(_ & Ge & Occ & _)]; [congruence|].
  split; [exact Ge|].
  apply (occurs_lt _ _ _ NE) in Occ. pose proof (length_pos P NE). unfold size. lia.
Qed.

Lemma refine_terminates_nonempty_witness :
  refine blockSize 100 true (tail_fingerprint segment_a)
         (open segment_a) (open segment_b) <> None.
Proof.
  apply (refine_terminates_nonempty blockSize 100 true (tail_fingerprint segment_a)
                                    (open segment_a) (open segment_b)).
  - apply Nat.ltb_lt. reflexivity.
  - discriminate.
  - apply Nat.leb_le. reflexivity.
Defined.

(** The refinement of the pair of an empty predecessor and a successor
    of two bytes, with [--best]. *)
Lemma refine_of_empty_file_hangs (fuel : nat) :
  refine blockSize fuel true [] (snd (extract_pattern (open [])))
         (open (bytes_of "xy")) = None.
Proof.
  destruct fuel as [|fuel]; [reflexivity|].
  unfold refine.
  destruct (searchInFile blockSize (S fuel) (open (bytes_of "xy")) [] 0)
    as [[o f2]|] eqn:E1; [|reflexivity].
  vm_compute in E1. injection E1 as <- <-.
  cbn [refine_loop patternFound].
  match goal with
  | |- match compareFiles ?b ?f ?x ?y with _ => _ end = None =>
      destruct (compareFiles b f x y) as [[o fs]|] eqn:E2; [|reflexivity]
  end.
  vm_compute in E2. injection E2 as <- <-.
  cbn [with_bytesDiffering matchPosition patternFound patternSize].
  match goal with
  | |- (if ?c then _ else _) = None =>
      replace c with false by (vm_compute; reflexivity)
  end.
  rewrite searchInFile_empty_hangs; [reflexivity| | |].
  - apply Nat.ltb_lt. reflexivity.
  - reflexivity.
  - apply Nat.leb_le. reflexivity.
Qed.

(** C9 fails on the code for the pattern extracted from an empty
    predecessor, which is empty: nothing checks the seek to 20 bytes
    before the end or the length of the pattern, and the test of the
    scan loop, [realBufferSize >= pattern.size()], never fails for it.
    With [--best] and a successor of two bytes, the first search reports
    the empty pattern at offset 0, its quota is 0, and the retry from
    offset 1 never returns: the run of the program on an empty file and
    a file of two bytes does not end, where the claim asks for
    termination for every pattern extracted from a predecessor. *)
Theorem refine_hangs_on_empty_pattern :
  fst (extract_pattern (open [])) = Ok [] /\
  ~ (exists fuel,
       refine blockSize fuel true [] (snd (extract_pattern (open [])))
              (open (bytes_of "xy")) <> None) /\
  (forall fuel, main fuel tiny true true true "empty" ["xy"%string] = None).
Proof.
  split; [reflexivity|]. split.
  - intros [fuel H]. apply H. apply refine_of_empty_file_hangs.
  - intros fuel. unfold main.
    change (tiny "empty"%string) with (@Some (list byte) []). cbv beta iota.
    rewrite (scan_step blockSize fuel true tiny (open [])
               (snd (extract_pattern (open []))) "xy" [] [] [] (bytes_of "xy")
               eq_refl eq_refl).
    now rewrite refine_of_empty_file_hangs.
Qed.

(** ** C10: the scan loop terminates *)

(** C10. For every stream (whatever its state and its device), every
    start offset and every non-empty pattern, [searchInFile] returns. Its
    loop is left when the stream has failed and the fill level of the
    buffer, [realBufferSize], is below the pattern length; since that
    fill level is the one computed before the last shift, the loop makes
    at most two more passes once the stream has failed. *)
Theorem searchInFile_returns
        (B : nat) (f : istream) (P : list byte) (pos fuel : nat) :
  0 < B -> P <> [] -> size f + 5 <= fuel ->
  searchInFile B fuel f P pos <> None /\
  (forall n file buffer bytesReadPreviously realBufferSize position,
     ok file = false -> realBufferSize < length P ->
     search_loop B (S n) file P buffer bytesReadPreviously realBufferSize position
     = Some (Ok MatchResult_default, file)) /\
  (forall file buffer bytesReadPreviously realBufferSize position,
     ok file = false ->
     search_loop B 3 file P buffer bytesReadPreviously realBufferSize position
     <> None).
Proof.
  intros HB NE Fuel. split; [now apply searchInFile_terminates|]. split.
  - intros n file buffer brp rbs position Hok Hlt.
    cbn [search_loop]. rewrite Hok. apply Nat.leb_gt in Hlt. now rewrite Hlt.
  - intros file buffer brp rbs position Hok.
    apply search_loop_terminates; auto.
    unfold search_measure, good. rewrite Hok.
    unfold ok in Hok. apply negb_false_iff in Hok. unfold fail in Hok.
    destruct (eofbit file), (failbit file), (badbit file); try discriminate;
      cbn [orb negb]; repeat (destruct (_ =? 0)); lia.
Qed.

Lemma searchInFile_returns_witness :
  searchInFile blockSize 40 (open segment_b) (bytes_of "zz") 0 <> None.
Proof.
  apply (searchInFile_returns blockSize (open segment_b) (bytes_of "zz") 0 40).
  - apply Nat.ltb_lt. reflexivity.
  - discriminate.
  - apply Nat.leb_le. reflexivity.
Defined.

(** * File names *)

Lemma string_length_append (a b : string) :
  String.length (String.append a b) = String.length a + String.length b.
Proof. induction a as [|x a IH]; simpl; [reflexivity|now rewrite IH]. Qed.

Lemma drop_append (a b : string) : drop (String.length a) (String.append a b) = b.
Proof. induction a as [|x a IH]; simpl; [reflexivity|exact IH]. Qed.

Lemma drop_length (n : nat) (s : string) :
  String.length (drop n s) = String.length s - n.
Proof.
  revert s. induction n as [|n IH]; intros [|x s]; simpl; auto using Nat.sub_0_r.
Qed.

Lemma find_last_from_absent (c : Ascii.ascii) (s : string) (i : nat) :
  has c s = false -> find_last_from s c i = None.
Proof.
  revert i. induction s as [|x s IH]; intros i; simpl; [reflexivity|].
  intros H. apply orb_false_iff in H. destruct H as [E H].
  now rewrite (IH _ H), E.
Qed.

Lemma find_last_from_last (c : Ascii.ascii) (a b : string) (i : nat) :
  has c b = false ->
  find_last_from (String.append a (String c b)) c i = Some (i + String.length a).
Proof.
  intros H. revert i. induction a as [|x a IH]; intros i; simpl.
  - rewrite (find_last_from_absent _ _ _ H), Ascii.eqb_refl.
    now rewrite Nat.add_0_r.
  - rewrite IH. f_equal. lia.
Qed.

Lemma substr_within (s : string) (pos : nat) :
  pos <= String.length s -> substr s pos = Ok (drop pos s).
Proof.
  intros H. unfold substr.
  destruct (String.length s <? pos) eqn:E; [|reflexivity].
  apply Nat.ltb_lt in E. lia.
Qed.

Lemma substr_beyond (s : string) (pos : nat) :
  String.length s < pos -> substr s pos = Throw.
Proof.
  intros H. unfold substr. apply Nat.ltb_lt in H. now rewrite H.
Qed.

(** A path that holds one kind of separator only is cut after the last
    one. *)
Lemma getFilename_cut (sep other : Ascii.ascii) (dir base : string) :
  (sep = slash /\ other = backslash) \/ (sep = backslash /\ other = slash) ->
  has other (String.append dir (String sep base)) = false ->
  has sep base = false ->
  getFilename (String.append dir (String sep base)) = Ok base.
Proof.
  intros Sep Other Base.
  assert (D : drop (String.length dir + 1) (String.append dir (String sep base)) = base).
  { replace (String.length dir + 1)
      with (String.length (String.append dir (String sep EmptyString))).
    - replace (String.append dir (String sep base))
        with (String.append (String.append dir (String sep EmptyString)) base).
      + apply drop_append.
      + clear. induction dir as [|x dir IH]; simpl; [reflexivity|now rewrite IH].
    - rewrite string_length_append. reflexivity. }
  assert (L : String.length dir + 1
              <= String.length (String.append dir (String sep base))).
  { rewrite string_length_append. simpl. lia. }
  unfold getFilename, find_last_of.
  destruct Sep as [[-> ->]|[-> ->]].
  - rewrite (find_last_from_absent _ _ _ Other). cbn [next_index].
    rewrite substr_within by lia. cbn [drop].
    rewrite (find_last_from_last _ _ _ _ Base). cbn [next_index Nat.add].
    rewrite substr_within by exact L. now rewrite D.
  - rewrite (find_last_from_last _ _ _ _ Base). cbn [next_index Nat.add].
    rewrite substr_within by exact L. rewrite D.
    rewrite (find_last_from_absent _ _ _ Other). cbn [next_index].
    apply substr_within. lia.
Qed.

(** A path without separator is returned as it is. *)
Lemma getFilename_plain (path : string) :
  has slash path = false -> has backslash path = false ->
  getFilename path = Ok path.
Proof.
  intros S B. unfold getFilename, find_last_of.
  rewrite (find_last_from_absent _ _ _ S), (find_last_from_absent _ _ _ B).
  cbn [next_index]. rewrite substr_within by lia. cbn [drop].
  apply substr_within. lia.
Qed.

(** The first [substr] never raises. *)
Lemma find_last_from_bound (c : Ascii.ascii) (s : string) (i j : nat) :
  find_last_from s c i = Some j -> i <= j < i + String.length s.
Proof.
  revert i. induction s as [|x s IH]; intros i; simpl; [discriminate|].
  destruct (find_last_from s c (S i)) as [k|] eqn:F.
  - intros E. injection E as <-. apply IH in F. lia.
  - destruct (Ascii.eqb x c); [|discriminate]. intros E. injection E as <-. lia.
Qed.

Lemma next_index_bound (c : Ascii.ascii) (s : string) :
  next_index (find_last_of s c) <= String.length s.
Proof.
  unfold find_last_of. destruct (find_last_from s c 0) as [j|] eqn:F; simpl; [|lia].
  apply find_last_from_bound in F. lia.
Qed.

(** [getFilename] raises exactly when the index after the last [/] lies
    past the end of what follows the last [\]. *)
Lemma getFilename_throws (path : string) :
  getFilename path = Throw <->
  String.length path - next_index (find_last_of path backslash)
  < next_index (find_last_of path slash).
Proof.
  unfold getFilename.
  rewrite substr_within by apply next_index_bound.
  unfold substr. rewrite drop_length.
  destruct (_ <? _) eqn:E.
  - apply Nat.ltb_lt in E. split; [intros _; exact E|reflexivity].
  - apply Nat.ltb_ge in E. split; [discriminate|lia].
Qed.

(** What it returns is the end of the path. *)
Lemma drop_suffix (n : nat) (s : string) :
  exists front, s = String.append front (drop n s).
Proof.
  revert s. induction n as [|n IH]; intros s.
  - exists EmptyString. reflexivity.
  - destruct s as [|x s]; [exists EmptyString; reflexivity|].
    destruct (IH s) as [front E]. exists (String x front). simpl. now rewrite <- E.
Qed.

Lemma getFilename_suffix (path name : string) :
  getFilename path = Ok name -> exists front, path = String.append front name.
Proof.
  unfold getFilename, substr.
  destruct (_ <? _); [discriminate|].
  destruct (_ <? _); [discriminate|].
  intros E. injection E as <-.
  destruct (drop_suffix (next_index (find_last_of path backslash)) path) as [f1 E1].
  destruct (drop_suffix (next_index (find_last_of path slash))
              (drop (next_index (find_last_of path backslash)) path)) as [f2 E2].
  exists (String.append f1 f2).
  rewrite E1 at 1. rewrite E2 at 1.
  clear. induction f1 as [|x f1 IH]; simpl; [reflexivity|now rewrite IH].
Qed.

(** * The report *)

(** The summary is printed to its end exactly when no name makes
    [getFilename] raise. *)
Lemma print_loop_completes (rs : list MatchResult) :
  forall names i printed,
    Forall (fun name => getFilename name <> Throw) names ->
    snd (print_loop names rs i printed) = Ok tt.
Proof.
  induction names as [|name names IH]; intros i printed All; [reflexivity|].
  inversion All as [|? ? Hn Hr]; subst. cbn [print_loop].
  destruct (getFilename name) as [base|]; [|congruence].
  destruct names as [|name' names]; [reflexivity|].
  apply IH. exact Hr.
Qed.

Lemma print_loop_raises (rs : list MatchResult) :
  forall names i printed,
    Exists (fun name => getFilename name = Throw) names ->
    snd (print_loop names rs i printed) = Throw.
Proof.
  induction names as [|name names IH]; intros i printed Ex;
    [inversion Ex|].
  cbn [print_loop].
  destruct (getFilename name) as [base|] eqn:G; [|reflexivity].
  inversion Ex as [? ? H|? ? H]; subst; [congruence|].
  destruct names as [|name' names]; [inversion H|].
  apply IH. exact H.
Qed.

(** One line for the heading, one per file, one per pair. *)
Lemma print_loop_lines (rs : list MatchResult) :
  forall names i printed,
    names <> [] ->
    Forall (fun name => getFilename name <> Throw) names ->
    length (fst (print_loop names rs i printed))
    = length printed + 2 * length names - 1.
Proof.
  induction names as [|name names IH]; intros i printed NE All; [congruence|].
  inversion All as [|? ? Hn Hr]; subst. cbn [print_loop].
  destruct (getFilename name) as [base|]; [|congruence].
  destruct names as [|name' names].
  - cbn [fst length]. rewrite length_app. simpl. lia.
  - rewrite IH; [|discriminate|exact Hr].
    rewrite !length_app. cbn [length]. lia.
Qed.

Lemma scan_traced_scan :
  forall names fuel best fs file1 acc,
    Forall (fun name => getFilename name <> Throw) names ->
    scan_traced fuel best fs file1 names acc
    = scan blockSize fuel best fs file1 names acc.
Proof.
  induction names as [|name names IH]; intros fuel best fs file1 acc All;
    [reflexivity|].
  inversion All as [|? ? Hn Hr]; subst. cbn [scan_traced scan].
  destruct (extract_pattern file1) as [[P|] f1]; [|reflexivity].
  destruct (getFilename name) as [base|]; [|congruence].
  destruct (fs name) as [bytes|]; [|reflexivity].
  destruct (refine blockSize fuel best P f1 (open bytes)) as [[[[r ex]|] [g1 g2]]|];
    try reflexivity.
  apply IH. exact Hr.
Qed.

(** A scan that gets through has printed every name it was given. *)
Lemma scan_traced_done :
  forall names fuel best fs file1 acc rs,
    scan_traced fuel best fs file1 names acc = Some (ScanDone rs) ->
    Forall (fun name => getFilename name <> Throw) names.
Proof.
  induction names as [|name names IH]; intros fuel best fs file1 acc rs;
    [constructor|].
  cbn [scan_traced].
  destruct (extract_pattern file1) as [[P|] f1]; [|discriminate].
  destruct (getFilename name) as [base|] eqn:G; [|discriminate].
  destruct (fs name) as [bytes|]; [|discriminate].
  destruct (refine blockSize fuel best P f1 (open bytes)) as [[[[r ex]|] [g1 g2]]|];
    try discriminate.
  intros E. constructor; [congruence|]. eapply IH. exact E.
Qed.

(** A scan that gets through without its trace raises with it as soon
    as it comes to a name on which [getFilename] raises. *)
Lemma scan_traced_raises :
  forall names fuel best fs file1 acc rs,
    scan blockSize fuel best fs file1 names acc = Some (ScanDone rs) ->
    Exists (fun name => getFilename name = Throw) names ->
    scan_traced fuel best fs file1 names acc = Some ScanThrow.
Proof.
  induction names as [|name names IH]; intros fuel best fs file1 acc rs Sc Ex;
    [inversion Ex|].
  cbn [scan] in Sc. cbn [scan_traced].
  destruct (extract_pattern file1) as [[P|] f1]; [|discriminate].
  destruct (getFilename name) as [base|] eqn:G; [|reflexivity].
  destruct (fs name) as [bytes|]; [|discriminate].
  destruct (refine blockSize fuel best P f1 (open bytes)) as [[[[r ex]|] [g1 g2]]|];
    try discriminate.
  inversion Ex as [? ? H|? ? H]; subst; [congruence|].
  eapply IH; eassumption.
Qed.

Lemma scan_traced_open_failed :
  forall names fuel best fs file1 acc,
    scan_traced fuel best fs file1 names acc = Some ScanOpenFailed ->
    Exists (fun name => fs name = None) names.
Proof.
  induction names as [|name names IH]; intros fuel best fs file1 acc;
    [discriminate|].
  cbn [scan_traced].
  destruct (extract_pattern file1) as [[P|] f1]; [|discriminate].
  destruct (getFilename name) as [base|]; [|discriminate].
  destruct (fs name) as [bytes|] eqn:E; [|intros _; now left].
  destruct (refine blockSize fuel best P f1 (open bytes)) as [[[[r ex]|] [g1 g2]]|];
    try discriminate.
  intros H. right. eapply IH. exact H.
Qed.

(** The fingerprint of a file that was just opened is read without
    error. *)
Lemma extract_pattern_open (bytes : list byte) :
  exists P f1, extract_pattern (open bytes) = (Ok P, f1).
Proof.
  unfold extract_pattern, seekg_end.
  cbn [fail clear_eofbit clear open failbit badbit orb].
  destruct (_ <? 0)%Z; unfold rdbuf_rest, hits_ioerr; cbn; eauto.
Qed.

(** * [compareFiles] on streams of any length *)

Lemma differing_sym (a b : list byte) : differing a b = differing b a.
Proof.
  revert b. induction a as [|x a IH]; intros [|y b]; try reflexivity.
  cbn [differing]. rewrite (IH b).
  destruct (Byte.eqb x y) eqn:E.
  - apply Byte.byte_dec_bl in E. subst. now rewrite byte_eqb_refl.
  - destruct (Byte.eqb y x) eqn:E'; [|reflexivity].
    apply Byte.byte_dec_bl in E'. subst. now rewrite byte_eqb_refl in E.
Qed.

Lemma differing_le_r (a b : list byte) : differing a b <= length b.
Proof. rewrite differing_sym. apply differing_le. Qed.

(** No position differs exactly when the two sequences agree over their
    common length. *)
Lemma differing_zero (a b : list byte) :
  differing a b = 0 <->
  firstn (Nat.min (length a) (length b)) a = firstn (Nat.min (length a) (length b)) b.
Proof.
  revert b. induction a as [|x a IH]; intros [|y b]; try (split; reflexivity).
  cbn [differing length Nat.min firstn].
  destruct (Byte.eqb x y) eqn:E.
  - apply Byte.byte_dec_bl in E. subst. rewrite Nat.add_0_l, IH. split.
    + intros ->. reflexivity.
    + intros H. now injection H.
  - split; [discriminate|].
    intros H. injection H as -> _. now rewrite byte_eqb_refl in E.
Qed.

Section CompareAny.

Variable B : nat.

(** The count is bounded by what the second stream had left as well. *)
Lemma compare_loop_bound_second :
  forall fuel f1 f2 t d n g,
    compare_loop B fuel f1 f2 t d = Some (Ok n, g) ->
    n <= d + (Nat.max (gpos f2) (size f2) - gpos f2).
Proof.
  induction fuel as [|fuel IH]; intros f1 f2 t d n g; [discriminate|].
  simpl.
  destruct (read f1 B) as [b1 g1] eqn:R1.
  destruct (read f2 B) as [b2 g2] eqn:R2.
  destruct (read_any _ _ _ _ R2) as (Ec2 & Ee2 & Eg2 & _).
  pose proof (read_length _ _ _ _ R2) as L2.
  destruct (_ || _); [discriminate|].
  assert (Cnt : count_differences b1 b2 (Nat.min (length b1) (length b2))
                <= length b2).
  { unfold count_differences.
    etransitivity; [apply filter_length_le|]. rewrite length_seq. lia. }
  destruct (ok g1 && ok g2).
  - intros L. apply IH in L. unfold size in *. rewrite Ec2 in L. lia.
  - intros E. injection E as <- _. lia.
Qed.

Hypothesis HB : 0 < B.

(** On two good streams of a device without fault the count is that
    of the bytes left in the one against the bytes left in the other,
    over their common length. *)
Lemma compare_loop_counts_any :
  forall fuel f1 f2 t d,
    settled f1 -> settled f2 -> good f1 = true -> good f2 = true ->
    size f1 - gpos f1 < fuel ->
    exists f1' f2',
      compare_loop B fuel f1 f2 t d
      = Some (Ok (d + differing (skipn (gpos f1) (content f1))
                                (skipn (gpos f2) (content f2))), (f1', f2')).
Proof.
  induction fuel as [|fuel IH]; intros f1 f2 t d S1 S2 G1 G2 M; [lia|].
  simpl.
  destruct (read f1 B) as [b1 g1] eqn:R1.
  destruct (read f2 B) as [b2 g2] eqn:R2.
  destruct (read_settled _ _ _ _ S1 HB R1) as (Eb1 & Ec1 & S1' & Eg1 & C1).
  destruct (read_settled _ _ _ _ S2 HB R2) as (Eb2 & Ec2 & S2' & Eg2 & C2).
  set (r1 := skipn (gpos f1) (content f1)) in *.
  set (r2 := skipn (gpos f2) (content f2)) in *.
  assert (T : ((length b1 <? B) && negb (eof g1))
              || ((length b2 <? B) && negb (eof g2)) = false).
  { apply orb_false_iff. split.
    - destruct C1 as [(E & _)|(_ & E & _)];
        [rewrite E, Nat.ltb_irrefl; reflexivity|rewrite E; apply andb_false_r].
    - destruct C2 as [(E & _)|(_ & E & _)];
        [rewrite E, Nat.ltb_irrefl; reflexivity|rewrite E; apply andb_false_r]. }
  rewrite T, count_differences_differing.
  rewrite (differing_split B r1 r2), <- Eb1, <- Eb2.
  destruct C1 as [(L1 & _ & G1')|(L1 & _ & O1 & Z1)].
  - destruct C2 as [(L2 & _ & G2')|(L2 & _ & O2 & Z2)].
    + rewrite (good_ok _ G1'), (good_ok _ G2'). simpl.
      destruct (IH g1 g2 (t + Nat.min (length b1) (length b2))
                   (d + differing b1 b2) S1' S2' G1' G2') as (f1' & f2' & E).
      * unfold size in *. rewrite Ec1, Eg1, L1.
        rewrite Eb1, length_firstn in L1. unfold r1 in L1.
        rewrite length_skipn in L1. lia.
      * exists f1', f2'. rewrite E.
        rewrite Ec1, Ec2, Eg1, Eg2, L1, L2.
        rewrite <- !skipn_skipn_add. fold r1 r2.
        now rewrite Nat.add_assoc.
    + rewrite O2, andb_false_r. exists g1, g2.
      assert (Z : skipn B r2 = []).
      { apply skipn_all2. rewrite Eb2, length_firstn in L2. lia. }
      rewrite Z, differing_nil_r. now rewrite Nat.add_0_r.
  - rewrite O1. simpl. exists g1, g2.
    assert (Z : skipn B r1 = []).
    { apply skipn_all2. rewrite Eb1, length_firstn in L1. lia. }
    rewrite Z. simpl. now rewrite Nat.add_0_r.
Qed.

(** A stream that has failed short of its end makes the comparison
    raise at its first read. *)
Lemma compare_loop_failed (fuel : nat) (f1 f2 : istream) (t d : nat) :
  failbit f1 = true -> eofbit f1 = false ->
  exists g, compare_loop B (S fuel) f1 f2 t d = Some (Throw, g).
Proof.
  intros F E. cbn [compare_loop].
  assert (R : read f1 B = ([], log (set_failbit f1) B 0)).
  { unfold read, good. rewrite F, E. reflexivity. }
  rewrite R. destruct (read f2 B) as [b2 g2].
  assert (T : (length (@nil byte) <? B) && negb (eof (log (set_failbit f1) B 0))
              = true).
  { cbn [length]. unfold eof. cbn [log set_failbit eofbit]. rewrite E.
    apply andb_true_iff. split; [now apply Nat.ltb_lt|reflexivity]. }
  rewrite T. cbn [orb]. eauto.
Qed.

End CompareAny.

(** * The refinement against its in-memory form *)

Lemma filter_none {A} (f : A -> bool) (l : list A) :
  (forall x, In x l -> f x = false) -> filter f l = [].
Proof.
  induction l as [|x l IH]; intros H; [reflexivity|].
  cbn [filter]. rewrite (H x) by now left.
  apply IH. intros y Hy. apply H. now right.
Qed.

Lemma occurrences_none (T P : list byte) (s : nat) :
  (forall j, s <= j -> ~ occurs T P j) -> occurrences T P s = [].
Proof.
  intros No. unfold occurrences. apply filter_none.
  intros x Hx. apply in_seq in Hx. apply not_occurs_false, No. lia.
Qed.

Lemma occurrences_first (T P : list byte) (s i : nat) :
  P <> [] -> s <= i -> occurs T P i ->
  (forall j, s <= j < i -> ~ occurs T P j) ->
  occurrences T P s = i :: occurrences T P (i + 1).
Proof.
  intros NE Hs Oi Fi.
  pose proof (occurs_lt _ _ _ NE Oi) as Li. pose proof (length_pos P NE) as LP.
  unfold occurrences.
  replace (length T + 1 - s) with ((i - s) + S (length T + 1 - (i + 1))) by lia.
  rewrite seq_app, filter_app. replace (s + (i - s)) with i by lia.
  rewrite filter_none.
  - cbn [seq filter app]. apply starts_with_occurs in Oi. rewrite Oi.
    replace (S i) with (i + 1) by lia. reflexivity.
  - intros x Hx. apply in_seq in Hx. apply not_occurs_false, Fi. lia.
Qed.

Lemma occurrences_post (T P : list byte) (s : nat) (r : MatchResult) :
  P <> [] -> search_post T P s r ->
  match occurrences T P s with
  | [] => r = MatchResult_default
  | i :: rest =>
      r = mkMatchResult true i (length P) 0 /\ s <= i /\ occurs T P i /\
      rest = occurrences T P (i + 1)
  end.
Proof.
  intros NE [i Hi Oi Fi|No].
  - rewrite (occurrences_first T P s i NE Hi Oi Fi). auto.
  - now rewrite (occurrences_none T P s No).
Qed.

Section RefineSelect.

Variable B : nat.
Hypothesis HB : 0 < B.

(** The comparison of a candidate whose overlap is longer than the
    predecessor: the seek is refused, and the first read raises. *)
Lemma compare_unfit (fuel : nat) (f1 f2 : istream) (oc : nat) :
  size f1 < oc ->
  exists g,
    compareFiles B (S fuel) (seekg_end (clear f1) (- Z.of_nat oc))
                 (seekg (clear f2) 0)
    = Some (Throw, g).
Proof.
  intros L. unfold compareFiles. apply (compare_loop_failed B HB).
  - unfold seekg_end. cbn [fail clear_eofbit clear failbit badbit orb].
    change (size (clear_eofbit (clear f1))) with (size f1).
    destruct (Z.of_nat (size f1) + - Z.of_nat oc <? 0)%Z eqn:T;
      [reflexivity|apply Z.ltb_ge in T; lia].
  - unfold seekg_end. cbn [fail clear_eofbit clear failbit badbit orb].
    destruct (_ <? 0)%Z; reflexivity.
Qed.

Variables S1 S2 P : list byte.
Hypothesis NE : P <> [].
Hypothesis LB : length P <= B + 1.
Variable best : bool.

Lemma refine_loop_select :
  forall n fuel f1 f2 result last examined s,
    content f1 = S1 -> content f2 = S2 -> ioerr f1 = None -> ioerr f2 = None ->
    length S1 + length S2 + 5 <= fuel ->
    search_post S2 P s last ->
    length S2 + 1 - s < n ->
    match select best S1 S2 P result (occurrences S2 P s) with
    | Ok r =>
        exists ex g1 g2,
          refine_loop B fuel n best P f1 f2 result last examined
          = Some (Ok (r, ex), (g1, g2)) /\
          content g2 = S2 /\ ioerr g2 = None
    | Throw =>
        exists g,
          refine_loop B fuel n best P f1 f2 result last examined = Some (Throw, g)
    end.
Proof.
  pose proof (length_pos P NE) as LP.
  induction n as [|n IH];
    intros fuel f1 f2 result last examined s C1 C2 I1 I2 Fuel Post Hn; [lia|].
  pose proof (occurrences_post S2 P s last NE Post) as Occ.
  destruct (occurrences S2 P s) as [|i rest].
  { subst last. cbn [select refine_loop patternFound MatchResult_default]. eauto 6. }
  destruct Occ as (-> & Hi & Oi & ->).
  pose proof (occurs_lt _ _ _ NE Oi) as Li.
  cbn [select refine_loop patternFound].
  change (overlapCount (mkMatchResult true i (length P) 0)) with (i + length P).
  destruct (length S1 <? i + length P) eqn:Fit.
  - apply Nat.ltb_lt in Fit.
    destruct fuel as [|fuel]; [lia|].
    destruct (compare_unfit fuel f1 f2 (i + length P)) as [[g1 g2] E];
      [unfold size; rewrite C1; exact Fit|].
    rewrite E. eauto.
  - apply Nat.ltb_ge in Fit.
    destruct (compare_candidate_counts B HB fuel f1 f2 (i + length P) I1 I2)
      as (g1 & g2 & E & D1 & J1 & D2 & J2);
      try (unfold size; rewrite ?C1, ?C2; lia).
    rewrite E. unfold size. rewrite C1, C2.
    change (with_bytesDiffering (mkMatchResult true i (length P) 0)
              (differing (skipn (length S1 - (i + length P)) S1) S2))
      with (candidate S1 S2 P i).
    set (result' := if Qgtb (quota (candidate S1 S2 P i)) (quota result)
                    then candidate S1 S2 P i else result).
    destruct (Qgtb (quota result') threshold || negb best).
    + exists (candidate S1 S2 P i :: examined), g1, g2.
      split; [reflexivity|]. split; congruence.
    + cbn [candidate matchPosition].
      destruct (searchInFile_post B g2 P (i + 1) fuel HB NE LB J2)
        as (r & f' & Srch & Post').
      { unfold size. rewrite D2, C2. lia. }
      rewrite Srch.
      destruct (searchInFile_sound _ _ _ _ _ _ _ NE Srch) as (C3 & I3 & _).
      rewrite D2, C2 in Post'.
      apply (IH fuel g1 f' result' r _ (i + 1)); try congruence; lia.
Qed.

Lemma refine_select (fuel : nat) (f1 f2 : istream) :
  content f1 = S1 -> content f2 = S2 -> ioerr f1 = None -> ioerr f2 = None ->
  length S1 + length S2 + 5 <= fuel ->
  match select best S1 S2 P MatchResult_default (occurrences S2 P 0) with
  | Ok r =>
      exists ex g1 g2,
        refine B fuel best P f1 f2 = Some (Ok (r, ex), (g1, g2)) /\
        content g2 = S2 /\ ioerr g2 = None
  | Throw => exists g, refine B fuel best P f1 f2 = Some (Throw, g)
  end.
Proof.
  intros C1 C2 I1 I2 Fuel. unfold refine.
  destruct (searchInFile_post B f2 P 0 fuel HB NE LB I2) as (r & f' & Srch & Post).
  { unfold size. rewrite C2. lia. }
  rewrite Srch.
  destruct (searchInFile_sound _ _ _ _ _ _ _ NE Srch) as (C3 & I3 & _).
  rewrite C2 in Post.
  apply (refine_loop_select fuel fuel f1 f' _ r _ 0); try congruence; lia.
Qed.

End RefineSelect.

(** * The scan of a chain of files *)

Lemma tail_fingerprint_length (c : list byte) :
  20 <= length c -> length (tail_fingerprint c) = 20.
Proof. intros L. unfold tail_fingerprint. rewrite length_skipn. lia. Qed.

Lemma tail_fingerprint_nonempty (c : list byte) :
  20 <= length c -> tail_fingerprint c <> [].
Proof.
  intros L E. apply (f_equal (@length byte)) in E.
  rewrite tail_fingerprint_length in E by exact L. discriminate.
Qed.



(** * Assembly, file by file *)

(** The loop only appends. *)
Lemma merge_loop_extends (fs : filesystem) (rs : list MatchResult) :
  forall names i out,
    exists rest, written (merge_loop fs names rs i out) = written out ++ rest.
Proof.
  induction names as [|name names IH]; intros i out.
  - exists []. cbn. now rewrite app_nil_r.
  - cbn [merge_loop]. destruct (fs name) as [bytes|].
    + match goal with |- context [insert_rdbuf out ?x] =>
        destruct (IH (S i) (insert_rdbuf out x)) as [rest E];
        assert (W : exists more, written (insert_rdbuf out x) = written out ++ more)
      end.
      { unfold insert_rdbuf. destruct (ofailbit out).
        - exists []. now rewrite app_nil_r.
        - destruct (skipn _ _) as [|b l].
          + exists []. cbn. now rewrite app_nil_r.
          + eexists. reflexivity. }
      destruct W as [more W]. exists (more ++ rest).
      rewrite E, W. now rewrite app_assoc.
    + exists []. now rewrite app_nil_r.
Qed.

(** What it writes is the beginning of the full assembly. *)
Lemma merge_loop_prefix (fs : filesystem) (rs : list MatchResult) :
  forall names contents i out,
    Forall2 (fun n c => fs n = Some c) names contents ->
    exists rest,
      written out ++ assembled contents rs i
      = written (merge_loop fs names rs i out) ++ rest.
Proof.
  induction names as [|name names IH]; intros contents i out All.
  - inversion All; subst. exists []. reflexivity.
  - inversion All as [|n c ns cs E Rest]; subst.
    destruct (ofailbit out) eqn:F.
    { rewrite merge_loop_failed by exact F. eexists. reflexivity. }
    rewrite (merge_step _ _ _ _ _ _ _ E).
    destruct (insert_rdbuf_written out c (cut_offset rs i) F) as [W G].
    cbn [assembled].
    destruct (IH cs (S i) (insert_rdbuf out (set_gpos (open c) (cut_offset rs i))) Rest)
      as [rest R].
    exists rest. rewrite <- R, W. now rewrite app_assoc.
Qed.

(** * Quotas, one against the other *)

Lemma ratio_antitone (a a' b : nat) :
  a <= a' -> 0 < b -> (ratio a b <= ratio a' b)%Q.
Proof.
  intros Le Pos. unfold ratio, Qdiv.
  apply Qmult_le_compat_r.
  - rewrite <- Zle_Qle. lia.
  - apply Qinv_le_0_compat.
    replace 0%Q with (inject_Z 0) by reflexivity. rewrite <- Zle_Qle. lia.
Qed.

Lemma ratio_strict (a a' b : nat) :
  a < a' -> 0 < b -> (ratio a b < ratio a' b)%Q.
Proof.
  intros Lt Pos. unfold ratio, Qdiv.
  apply Qmult_lt_compat_r.
  - apply Qinv_lt_0_compat.
    replace 0%Q with (inject_Z 0) by reflexivity. rewrite <- Zlt_Qlt. lia.
  - rewrite <- Zlt_Qlt. lia.
Qed.

Lemma quota_found (r : MatchResult) :
  patternFound r = true -> 0 < overlapCount r ->
  bytesDiffering r <= overlapCount r ->
  quota r = ratio (overlapCount r - bytesDiffering r) (overlapCount r).
Proof.
  intros F Pos Le.
  assert (W : well_scored r) by (unfold well_scored; rewrite F; auto).
  rewrite (quota_well_scored r W). now rewrite F.
Qed.

Lemma ratio_zero (b : nat) : (ratio 0 b == 0)%Q.
Proof. unfold ratio, Qdiv. cbn [Z.of_nat]. apply Qmult_0_l. Qed.

(** * The candidate at an occurrence of a fingerprint *)

(** The bytes of the fingerprint itself compare equal: at most the [p]
    bytes before it can differ. *)
Lemma candidate_differing_bound (c c' : list byte) (p : nat) :
  20 <= length c ->
  occurs c' (tail_fingerprint c) p ->
  p + 20 <= length c ->
  bytesDiffering (candidate c c' (tail_fingerprint c) p) <= p.
Proof.
  intros L Occ Fit. cbn [candidate bytesDiffering].
  rewrite (tail_fingerprint_length c L).
  set (W := skipn (length c - (p + 20)) c).
  rewrite (differing_split p W c').
  assert (E : skipn p W = tail_fingerprint c).
  { unfold W, tail_fingerprint. rewrite skipn_skipn. f_equal. lia. }
  assert (Z : differing (skipn p W) (skipn p c') = 0).
  { rewrite E. unfold occurs in Occ.
    rewrite <- (firstn_skipn (length (tail_fingerprint c)) (skipn p c')).
    rewrite Occ. apply differing_refl. }
  rewrite Z, Nat.add_0_r.
  etransitivity; [apply differing_le|]. rewrite length_firstn. lia.
Qed.

Lemma candidate_quota_positive (c c' : list byte) (p : nat) :
  20 <= length c ->
  occurs c' (tail_fingerprint c) p ->
  p + 20 <= length c ->
  (0 < quota (candidate c c' (tail_fingerprint c) p))%Q.
Proof.
  intros L Occ Fit.
  pose proof (candidate_differing_bound c c' p L Occ Fit) as Bd.
  pose proof (tail_fingerprint_length c L) as LP.
  assert (OC : overlapCount (candidate c c' (tail_fingerprint c) p) = p + 20).
  { unfold overlapCount. cbn [candidate matchPosition patternSize]. lia. }
  rewrite quota_found; [|reflexivity|lia|lia].
  eapply Qle_lt_trans; [|apply (ratio_strict 0); lia].
  rewrite ratio_zero. apply Qle_refl.
Qed.

(** * The empty pattern, found *)

Lemma searchInFile_empty_found (B : nat) (f : istream) (pos fuel : nat) :
  1 < B -> ioerr f = None -> pos + 2 <= size f ->
  exists f',
    searchInFile B (S fuel) f [] pos = Some (Ok (mkMatchResult true pos 0 0), f').
Proof.
  intros HB I L. unfold searchInFile.
  destruct (settled_fresh f pos I) as [St G].
  destruct (read (seekg (clear f) pos) B) as [block file] eqn:R.
  destruct (read_settled _ _ _ _ St (Nat.lt_succ_l _ _ HB) R)
    as (Eb & Ec & St' & Eg & Cases).
  change (content (seekg (clear f) pos)) with (content f) in *.
  change (gpos (seekg (clear f) pos)) with pos in *.
  assert (Lb : 2 <= length block).
  { rewrite Eb, length_firstn, length_skipn. unfold size in L. lia. }
  assert (T : (length block <? B) && negb (eof file) = false).
  { destruct Cases as [(E & _)|(_ & E & _)];
      [rewrite E, Nat.ltb_irrefl; reflexivity|rewrite E; apply andb_false_r]. }
  rewrite T. cbn [search_loop length Nat.leb]. rewrite orb_true_r.
  destruct (read file B) as [block' file'] eqn:R'.
  destruct (read_settled _ _ _ _ St' (Nat.lt_succ_l _ _ HB) R')
    as (Eb' & Ec' & St'' & Eg' & Cases').
  assert (T' : (length block' <? B) && negb (eof file') = false).
  { destruct Cases' as [(E & _)|(_ & E & _)];
      [rewrite E, Nat.ltb_irrefl; reflexivity|rewrite E; apply andb_false_r]. }
  rewrite T'.
  assert (Stop : stop_index (length block) 0 (length block + length block')
                 = length block - 1).
  { unfold stop_index. rewrite Nat.add_0_r.
    destruct (length block =? 0) eqn:Z; [apply Nat.eqb_eq in Z; lia|lia]. }
  rewrite Stop.
  assert (Srch : std_search (firstn (length block - 1)
                               (firstn (length block) block ++ block')) [] = 0).
  { match goal with |- std_search ?h [] = 0 => destruct h; reflexivity end. }
  rewrite Srch.
  assert (Ne : negb (0 =? length block - 1) = true).
  { apply negb_true_iff, Nat.eqb_neq. lia. }
  rewrite Ne, Nat.add_0_r. eauto.
Qed.

(** * Files that do not open *)

Lemma scan_open_failed (B : nat) :
  forall names fuel best fs file1 acc,
    scan B fuel best fs file1 names acc = Some ScanOpenFailed ->
    Exists (fun name => fs name = None) names.
Proof.
  induction names as [|name names IH]; intros fuel best fs file1 acc;
    [discriminate|].
  cbn [scan].
  destruct (extract_pattern file1) as [[P|] f1]; [|discriminate].
  destruct (fs name) as [bytes|] eqn:E; [|intros _; now left].
  destruct (refine B fuel best P f1 (open bytes)) as [[[[r ex]|] [g1 g2]]|];
    try discriminate.
  intros H. right. eapply IH. exact H.
Qed.

Lemma scan_done_opened (B : nat) :
  forall names fuel best fs file1 acc rs,
    scan B fuel best fs file1 names acc = Some (ScanDone rs) ->
    Forall (fun name => fs name <> None) names /\
    length rs = length acc + length names.
Proof.
  induction names as [|name names IH]; intros fuel best fs file1 acc rs.
  - cbn [scan]. intros E. injection E as <-. split; [constructor|cbn; lia].
  - cbn [scan].
    destruct (extract_pattern file1) as [[P|] f1]; [|discriminate].
    destruct (fs name) as [bytes|] eqn:E; [|discriminate].
    destruct (refine B fuel best P f1 (open bytes)) as [[[[r ex]|] [g1 g2]]|];
      try discriminate.
    intros H. apply IH in H. destruct H as [All Len]. split.
    + constructor; [congruence|exact All].
    + rewrite Len, length_app. cbn. lia.
Qed.

(** * Files that share nothing *)





(** * Runs of [main] over a chain of files *)


(** * The selection with [--best] *)

Lemma occurrences_In (T P : list byte) (p : nat) :
  P <> [] -> (In p (occurrences T P 0) <-> occurs T P p).
Proof.
  intros NE. unfold occurrences. rewrite filter_In, in_seq, starts_with_occurs.
  split; [tauto|]. intros Occ. split; [|exact Occ].
  pose proof (occurs_lt _ _ _ NE Occ). lia.
Qed.

(** The result is no worse than what the selection started with, and,
    unless it is above the threshold, no worse than any candidate of the
    list. *)
Lemma select_optimal (S1 S2 P : list byte) :
  forall ps result r,
    select true S1 S2 P result ps = Ok r ->
    (quota result <= quota r)%Q /\
    ((quota r <= threshold)%Q ->
     forall p, In p ps -> (quota (candidate S1 S2 P p) <= quota r)%Q).
Proof.
  induction ps as [|p ps IH]; intros result r.
  - cbn [select]. intros E. injection E as <-.
    split; [apply Qle_refl|]. intros _ q [].
  - cbn [select]. destruct (length S1 <? p + length P); [discriminate|].
    set (c := candidate S1 S2 P p).
    set (result' := if Qgtb (quota c) (quota result) then c else result).
    assert (Up : (quota result <= quota result')%Q /\ (quota c <= quota result')%Q).
    { unfold result'. destruct (Qgtb (quota c) (quota result)) eqn:Q.
      - apply Qgtb_true in Q. split; [now apply Qlt_le_weak|apply Qle_refl].
      - apply Qgtb_false in Q. split; [apply Qle_refl|exact Q]. }
    destruct Up as [Up1 Up2].
    destruct (Qgtb (quota result') threshold) eqn:T; cbn [negb orb].
    + intros E. injection E as <-. split; [exact Up1|].
      intros Le. apply Qgtb_true in T. exfalso.
      apply (Qlt_not_le _ _ T). exact Le.
    + intros E. destruct (IH result' r E) as [Mono All].
      split; [eapply Qle_trans; eassumption|].
      intros Le q [<-|In].
      * eapply Qle_trans; eassumption.
      * now apply All.
Qed.

(** * Beyond the claims

    Properties of the functions the claims leave out ([getFilename],
    [printResults]) and further properties of the ones they cover. *)

(** ** File names *)

(** X1. For a path that holds at most one of the two separators [/]
    and [\], [getFilename] returns what follows the last separator, and
    the whole path when there is none: if the path is [front] followed
    by [base], where [front] is empty or ends with the separator and
    [base] holds none, the result is [base]. *)
Theorem getFilename_single_separator
        (sep other : Ascii.ascii) (front base : string) :
  (sep = slash /\ other = backslash) \/ (sep = backslash /\ other = slash) ->
  front = EmptyString \/
  (exists dir, front = String.append dir (String sep EmptyString)) ->
  has other (String.append front base) = false ->
  has sep base = false ->
  getFilename (String.append front base) = Ok base.
Proof.
  intros Sep [->|[dir ->]] Other Base.
  - cbn [String.append] in *.
    destruct Sep as [[-> ->]|[-> ->]]; now apply getFilename_plain.
  - assert (E : String.append (String.append dir (String sep EmptyString)) base
                = String.append dir (String sep base)).
    { clear. induction dir as [|x dir IH]; simpl; [reflexivity|now rewrite IH]. }
    rewrite E in *. now apply (getFilename_cut sep other).
Qed.

Lemma getFilename_single_separator_witness :
  getFilename unix_path = Ok "part.bin"%string /\
  getFilename dos_path = Ok "part.bin"%string /\
  getFilename "part.bin" = Ok "part.bin"%string.
Proof.
  split; [|split].
  - apply (getFilename_single_separator slash backslash "data/run1/" "part.bin").
    + left. split; reflexivity.
    + right. exists "data/run1"%string. reflexivity.
    + reflexivity.
    + reflexivity.
  - apply (getFilename_single_separator backslash slash
             (String.append "C:" (String backslash
                (String.append "data" (String backslash EmptyString))))
             "part.bin").
    + right. split; reflexivity.
    + right. exists (String.append "C:" (String backslash "data")). reflexivity.
    + reflexivity.
    + reflexivity.
  - apply (getFilename_single_separator slash backslash EmptyString "part.bin").
    + left. split; reflexivity.
    + left. reflexivity.
    + reflexivity.
    + reflexivity.
Defined.

(** X2. With both separators in the path, the index after the last [/]
    of the whole path is applied to what follows the last [\]: when the
    path is [a/b] with no [/] in [b] and at the same time [dir\tail] with
    no [\] in [tail], [getFilename] raises [std::out_of_range] if
    [length a + 1] exceeds the length of [tail], and otherwise returns
    [tail] without its first [length a + 1] characters. *)
Theorem getFilename_mixed_separators (dir tail a b : string) :
  String.append dir (String backslash tail) = String.append a (String slash b) ->
  has backslash tail = false ->
  has slash b = false ->
  getFilename (String.append a (String slash b))
  = if String.length a + 1 <=? String.length tail
    then Ok (drop (String.length a + 1) tail)
    else Throw.
Proof.
  intros E Tail Base. unfold getFilename, find_last_of.
  rewrite (find_last_from_last _ _ _ _ Base). cbn [next_index Nat.add].
  rewrite <- E at 1 2.
  rewrite (find_last_from_last _ _ _ _ Tail). cbn [next_index Nat.add].
  rewrite substr_within by (rewrite string_length_append; simpl; lia).
  replace (drop (String.length dir + 1) (String.append dir (String backslash tail)))
    with tail.
  - destruct (String.length a + 1 <=? String.length tail) eqn:L.
    + apply Nat.leb_le in L. now apply substr_within.
    + apply Nat.leb_gt in L. now apply substr_beyond.
  - symmetry.
    replace (String.length dir + 1)
      with (String.length (String.append dir (String backslash EmptyString)))
      by (rewrite string_length_append; reflexivity).
    replace (String.append dir (String backslash tail))
      with (String.append (String.append dir (String backslash EmptyString)) tail).
    + apply drop_append.
    + clear. induction dir as [|x dir IH]; simpl; [reflexivity|now rewrite IH].
Qed.

Lemma getFilename_mixed_separators_witness :
  getFilename mixed_path = Throw /\
  getFilename drive_path = Ok "t.bin"%string.
Proof.
  split.
  - apply (getFilename_mixed_separators "a/b" "c" "a" (String.append "b" (String backslash "c")));
      reflexivity.
  - apply (getFilename_mixed_separators "C:/data" "part.bin" "C:"
             (String.append "data" (String backslash "part.bin")));
      reflexivity.
Defined.

(** X3. [getFilename] does not raise on a path that lacks one of the
    two separators, and whatever it returns is the end of the path. *)
Theorem getFilename_returns_suffix (path : string) :
  (has slash path = false \/ has backslash path = false ->
   getFilename path <> Throw) /\
  (forall name, getFilename path = Ok name ->
                exists front, path = String.append front name).
Proof.
  split; [|intros name; apply getFilename_suffix].
  intros H E. apply getFilename_throws in E.
  pose proof (next_index_bound slash path) as Bs.
  destruct H as [H|H].
  - unfold find_last_of in E at 2.
    rewrite (find_last_from_absent _ _ _ H) in E. cbn [next_index] in E. lia.
  - unfold find_last_of in E at 1.
    rewrite (find_last_from_absent _ _ _ H) in E. cbn [next_index] in E. lia.
Qed.

(** ** The report and the run *)

(** X4. When [getFilename] succeeds on every file name, the trace and
    the summary change nothing: [main] with its report ends as [main]
    without it does, and a run that ends with status 0 has printed a
    summary of two lines per file (the heading, one line per file, one
    line per pair of neighbours). *)
Theorem main_traced_outcome
        (fuel : nat) (fs : filesystem) (best outputOpens decision : bool)
        (file0 : string) (files : list string) :
  Forall (fun name => getFilename name <> Throw) (file0 :: files) ->
  option_map fst (main_traced fuel fs best outputOpens decision file0 files)
  = main fuel fs best outputOpens decision file0 files /\
  forall output printed,
    main_traced fuel fs best outputOpens decision file0 files
    = Some (Exit 0 output, printed) ->
    length printed = 2 * length (file0 :: files).
Proof.
  intros All. inversion All as [|? ? H0 Hr]; subst.
  pose proof (print_loop_completes) as Pc.
  unfold main_traced, main, printResults.
  destruct (fs file0) as [bytes|]; [|split; [reflexivity|discriminate]].
  rewrite (scan_traced_scan files fuel best fs (open bytes) [] Hr).
  destruct (scan blockSize fuel best fs (open bytes) files []) as [[rs| |]|];
    try (split; [reflexivity|discriminate]).
  pose proof (Pc rs (file0 :: files) 0 [Heading] All) as Done.
  pose proof (print_loop_lines rs (file0 :: files) 0 [Heading]) as Lines.
  destruct (print_loop (file0 :: files) rs 0 [Heading]) as [printed [[]|]];
    cbn [snd fst] in *; [|discriminate].
  split.
  - destruct decision; reflexivity.
  - intros output printed' E.
    assert (printed' = printed) by (destruct decision; congruence).
    subst. rewrite Lines; [cbn [length]; lia|discriminate|exact All].
Qed.

Lemma main_traced_outcome_witness :
  option_map fst (main_traced 100 recording false true true "a" ["b"%string])
  = main 100 recording false true true "a" ["b"%string] /\
  main_traced 100 recording false true true "a" ["b"%string]
  = Some (Exit 0 (Some (bytes_of "head-0123456789abcdefghij-tail")),
          [Heading; FileLine 1 "a"; OverlapLine (100 * (20 # 20))%Q 20; FileLine 2 "b"]).
Proof.
  split.
  - apply (main_traced_outcome 100 recording false true true "a" ["b"%string]).
    repeat constructor; discriminate.
  - vm_compute. reflexivity.
Defined.

(** X5. A file name on which [getFilename] raises keeps the run from
    ending with status 0. A run that would end with status 0 without the
    report (every file opened, the scan through) terminates on the
    uncaught exception instead, before the question and the merge; when
    the name is the second of the command line and the first file
    opens, the run terminates at its first trace line, whatever the
    files hold. A run that ends otherwise ends with status 1, and only
    because an input file did not open before the call that raises was
    reached. *)
Theorem main_traced_aborts
        (fuel : nat) (fs : filesystem) (best outputOpens decision : bool)
        (file0 : string) (files : list string) :
  Exists (fun name => getFilename name = Throw) (file0 :: files) ->
  (forall output,
     main fuel fs best outputOpens decision file0 files = Some (Exit 0 output) ->
     exists printed,
       main_traced fuel fs best outputOpens decision file0 files
       = Some (Terminated, printed)) /\
  (forall name rest bytes,
     files = name :: rest -> fs file0 = Some bytes -> getFilename name = Throw ->
     main_traced fuel fs best outputOpens decision file0 files
     = Some (Terminated, [])) /\
  (forall o printed,
     main_traced fuel fs best outputOpens decision file0 files = Some (o, printed) ->
     o = Terminated \/
     (o = Exit 1 None /\ Exists (fun name => fs name = None) (file0 :: files))).
Proof.
  intros Ex. split; [|split].
  - intros output. unfold main, main_traced, printResults.
    destruct (fs file0) as [bytes|]; [|discriminate].
    destruct (scan blockSize fuel best fs (open bytes) files []) as [[rs| |]|] eqn:Sc;
      try discriminate.
    intros _.
    destruct (Exists_dec (fun name => getFilename name = Throw) files) as [In|Out].
    { intros name. destruct (getFilename name); [right; discriminate|now left]. }
    + rewrite (scan_traced_raises files fuel best fs (open bytes) [] rs Sc In).
      eauto.
    + assert (All : Forall (fun name => getFilename name <> Throw) files).
      { apply Forall_forall. intros name Hn E. apply Out.
        apply Exists_exists. eauto. }
      rewrite (scan_traced_scan files fuel best fs (open bytes) [] All), Sc.
      pose proof (print_loop_raises rs (file0 :: files) 0 [Heading] Ex) as R.
      destruct (print_loop (file0 :: files) rs 0 [Heading]) as [p [[]|]];
        cbn [snd] in R; [discriminate|eauto].
  - intros name rest bytes -> H0 G. unfold main_traced. rewrite H0.
    cbn [scan_traced].
    destruct (extract_pattern_open bytes) as (P & f1 & E). now rewrite E, G.
  - intros o printed. unfold main_traced, printResults.
    destruct (fs file0) as [bytes|] eqn:H0.
    + destruct (scan_traced fuel best fs (open bytes) files []) as [[rs| |]|] eqn:Sc;
        try discriminate.
      * pose proof (print_loop_raises rs (file0 :: files) 0 [Heading] Ex) as R.
        destruct (print_loop (file0 :: files) rs 0 [Heading]) as [p [[]|]];
          cbn [snd] in R; [discriminate|].
        intros E. injection E as <- _. now left.
      * intros E. injection E as <- _. right. split; [reflexivity|].
        right. eapply scan_traced_open_failed. exact Sc.
      * intros E. injection E as <- _. now left.
    + intros E. injection E as <- _. right. split; [reflexivity|]. now left.
Qed.

Lemma main_traced_aborts_witness :
  main 100 odd_names false true true "a" [mixed_path]
  = Some (Exit 0 (Some (bytes_of "head-0123456789abcdefghij-tail"))) /\
  main_traced 100 odd_names false true true "a" [mixed_path]
  = Some (Terminated, []) /\
  main_traced 100 (files_of []) false true true "a" [mixed_path]
  = Some (Exit 1 None, []).
Proof.
  split; [vm_compute; reflexivity|]. split; [|vm_compute; reflexivity].
  destruct (main_traced_aborts 100 odd_names false true true "a" [mixed_path])
    as (_ & First & _).
  - right. left. vm_compute. reflexivity.
  - apply (First mixed_path [] segment_a); reflexivity.
Defined.

(** ** The searcher *)

(** X6. [searchInFile] never reports a match that is not there. For
    every block size, every stream (whatever its flags, its position and
    its device) and every non-empty pattern of any length, a result that
    says found gives an offset at or after the start offset at which the
    pattern does occur in the file, the length of the pattern, and no
    differing byte; a result that says not found is the default result;
    and the stream still reads the same file. *)
Theorem searchInFile_match_is_occurrence
        (B fuel : nat) (f f' : istream) (P : list byte) (pos : nat)
        (r : MatchResult) :
  P <> [] ->
  searchInFile B fuel f P pos = Some (Ok r, f') ->
  content f' = content f /\
  (if patternFound r
   then pos <= matchPosition r /\
        occurs (content f) P (matchPosition r) /\
        matchPosition r + length P <= size f /\
        patternSize r = length P /\ bytesDiffering r = 0
   else r = MatchResult_default).
Proof.
  intros NE E.
  destruct (searchInFile_sound B f P pos fuel (Ok r) f' NE E) as (C & _ & Snd).
  split; [exact C|].
  destruct (Snd r eq_refl) as [(F & D)|(F & Ge & Occ & Sz & Zero)]; rewrite F.
  - exact D.
  - repeat split; try assumption. now apply occurs_lt.
Qed.

Lemma searchInFile_match_is_occurrence_witness :
  exists f',
    searchInFile 4 40 (open segment_b) (bytes_of "-tail") 3
    = Some (Ok (mkMatchResult true 20 5 0), f') /\
    content f' = segment_b /\
    occurs segment_b (bytes_of "-tail") 20.
Proof.
  destruct (searchInFile 4 40 (open segment_b) (bytes_of "-tail") 3)
    as [[[r|] f']|] eqn:E; try (vm_compute in E; discriminate).
  assert (R : r = mkMatchResult true 20 5 0).
  { vm_compute in E. now injection E as <- _. }
  subst r. exists f'. split; [reflexivity|].
  destruct (searchInFile_match_is_occurrence 4 40 (open segment_b) f'
              (bytes_of "-tail") 3 (mkMatchResult true 20 5 0))
    as (C & _ & Occ & _).
  - discriminate.
  - exact E.
  - split; [exact C|exact Occ].
Defined.

(** X7. With an empty pattern, [searchInFile] reports a match of
    length 0 at the start offset when at least two bytes follow that
    offset, and never returns when fewer do (blocks of two bytes or
    more, device without fault). *)
Theorem searchInFile_empty_pattern (B : nat) (f : istream) (pos : nat) :
  1 < B -> ioerr f = None ->
  (pos + 2 <= size f ->
   forall fuel, exists f',
     searchInFile B (S fuel) f [] pos = Some (Ok (mkMatchResult true pos 0 0), f')) /\
  (size f <= pos + 1 ->
   forall fuel, searchInFile B fuel f [] pos = None).
Proof.
  intros HB I. split.
  - intros L fuel. now apply searchInFile_empty_found.
  - intros L. now apply searchInFile_empty_hangs.
Qed.

Lemma searchInFile_empty_pattern_witness :
  (exists f', searchInFile blockSize 1 (open segment_b) [] 7
              = Some (Ok (mkMatchResult true 7 0 0), f')) /\
  searchInFile blockSize 1000 (open segment_b) [] 24 = None.
Proof.
  destruct (searchInFile_empty_pattern blockSize (open segment_b) 7) as [Found _].
  { apply Nat.ltb_lt. reflexivity. }
  { reflexivity. }
  destruct (searchInFile_empty_pattern blockSize (open segment_b) 24) as [_ Hang].
  { apply Nat.ltb_lt. reflexivity. }
  { reflexivity. }
  split.
  - apply (fun H => Found H 0). apply Nat.leb_le. reflexivity.
  - apply Hang. apply Nat.leb_le. reflexivity.
Defined.

(** ** The comparison *)

(** X8. On two good streams of a device without fault, [compareFiles]
    returns the number of positions at which what is left of the one
    differs from what is left of the other, over the length the two have
    in common. That number is 0 exactly when the two agree over that
    length, and it does not depend on which stream comes first. *)
Theorem compareFiles_counts_differences (B fuel : nat) (f1 f2 : istream) :
  0 < B -> ioerr f1 = None -> ioerr f2 = None ->
  good f1 = true -> good f2 = true ->
  size f1 - gpos f1 < fuel -> size f2 - gpos f2 < fuel ->
  let r1 := skipn (gpos f1) (content f1) in
  let r2 := skipn (gpos f2) (content f2) in
  let m := Nat.min (length r1) (length r2) in
  exists n g g',
    compareFiles B fuel f1 f2 = Some (Ok n, g) /\
    compareFiles B fuel f2 f1 = Some (Ok n, g') /\
    n = differing r1 r2 /\
    n <= m /\
    (n = 0 <-> firstn m r1 = firstn m r2).
Proof.
  intros HB I1 I2 G1 G2 F1 F2 r1 r2 m.
  assert (S1 : settled f1) by (split; auto).
  assert (S2 : settled f2) by (split; auto).
  destruct (compare_loop_counts_any B HB fuel f1 f2 0 0 S1 S2 G1 G2 F1)
    as (g1 & g2 & E).
  destruct (compare_loop_counts_any B HB fuel f2 f1 0 0 S2 S1 G2 G1 F2)
    as (g2' & g1' & E').
  exists (differing r1 r2), (g1, g2), (g2', g1').
  split; [exact E|]. split.
  - unfold compareFiles. rewrite E'. cbn [Nat.add].
    now rewrite (differing_sym r1 r2).
  - split; [reflexivity|]. split.
    + apply Nat.min_glb; [apply differing_le|apply differing_le_r].
    + apply differing_zero.
Qed.

Lemma compareFiles_counts_differences_witness :
  exists g g',
    compareFiles 4 12 (open (bytes_of "hello world")) (open (bytes_of "hallo wor"))
    = Some (Ok 1, g) /\
    compareFiles 4 12 (open (bytes_of "hallo wor")) (open (bytes_of "hello world"))
    = Some (Ok 1, g').
Proof.
  destruct (compareFiles_counts_differences 4 12
              (open (bytes_of "hello world")) (open (bytes_of "hallo wor")))
    as (n & g & g' & E & E' & N & _).
  - apply Nat.ltb_lt. reflexivity.
  - reflexivity.
  - reflexivity.
  - reflexivity.
  - reflexivity.
  - apply Nat.ltb_lt. reflexivity.
  - apply Nat.ltb_lt. reflexivity.
  - exists g, g'.
    assert (n = 1) by (rewrite N; vm_compute; reflexivity).
    subst n. split; assumption.
Defined.

(** X9. [compareFiles] returns for every pair of streams, whatever
    their state and their devices: with a result or with the fatal
    error. It leaves the contents of both files as they are, it counts
    no more differences than either stream had bytes left, and it raises
    at once on a first stream that has failed short of its end (as after
    a refused seek). *)
Theorem compareFiles_always_returns (B fuel : nat) (f1 f2 : istream) :
  0 < B -> size f1 - gpos f1 < fuel ->
  exists o g1 g2,
    compareFiles B fuel f1 f2 = Some (o, (g1, g2)) /\
    content g1 = content f1 /\ content g2 = content f2 /\
    (forall n, o = Ok n ->
               n <= Nat.max (gpos f1) (size f1) - gpos f1 /\
               n <= Nat.max (gpos f2) (size f2) - gpos f2) /\
    (failbit f1 = true -> eofbit f1 = false -> o = Throw).
Proof.
  intros HB Fuel. unfold compareFiles.
  destruct (compare_loop B fuel f1 f2 0 0) as [[o [g1 g2]]|] eqn:E.
  - exists o, g1, g2. split; [reflexivity|].
    destruct (compare_loop_bound B fuel f1 f2 0 0 o g1 g2 E)
      as (C1 & _ & C2 & _ & Bd).
    split; [exact C1|]. split; [exact C2|]. split.
    + intros n ->. split; [exact (Bd n eq_refl)|].
      exact (compare_loop_bound_second B fuel f1 f2 0 0 n (g1, g2) E).
    + intros Fb Eb. destruct fuel as [|fuel]; [lia|].
      destruct (compare_loop_failed B HB fuel f1 f2 0 0 Fb Eb) as [g E'].
      congruence.
  - exfalso. revert E. now apply compare_loop_terminates.
Qed.

Lemma compareFiles_always_returns_witness :
  exists g1 g2,
    compareFiles blockSize 12 faulty (open (bytes_of "hello world"))
    = Some (Throw, (g1, g2)) /\
    content g1 = bytes_of "hello world" /\ content g2 = bytes_of "hello world".
Proof.
  destruct (compareFiles_always_returns blockSize 12 faulty
              (open (bytes_of "hello world")))
    as (o & g1 & g2 & E & C1 & C2 & _).
  - apply Nat.ltb_lt. reflexivity.
  - apply Nat.ltb_lt. reflexivity.
  - exists g1, g2.
    assert (o = Throw).
    { vm_compute in E. now injection E as <- _ _. }
    subst o. split; [exact E|]. split; assumption.
Defined.

(** ** The scan and the run over a chain of files *)





(** X12. A first occurrence of the fingerprint that lies too far into
    the successor ends the program abnormally. When the predecessor has
    at least 20 bytes and its last 20 bytes first occur in the successor
    at an offset [p] with [p + 20] above the size of the predecessor,
    the seek to [p + 20] bytes before the end of the predecessor is
    refused, [compareFiles] raises on the failed stream, and [main]
    terminates on the uncaught exception, with or without [--best],
    whatever files follow and before anything is written. *)
Theorem main_terminates_on_long_overlap
        (fuel : nat) (fs : filesystem) (best outputOpens decision : bool)
        (a b : string) (rest : list string) (A S : list byte) (p : nat) :
  fs a = Some A -> fs b = Some S ->
  20 <= length A ->
  occurs S (tail_fingerprint A) p ->
  (forall q, q < p -> ~ occurs S (tail_fingerprint A) q) ->
  length A < p + 20 ->
  length A + length S + 5 <= fuel ->
  main fuel fs best outputOpens decision a (b :: rest) = Some Terminated.
Proof.
  intros Ha Hb L Occ First Long Fuel. unfold main. rewrite Ha. cbn [scan].
  destruct (extract_pattern_long (open A) eq_refl) as (f1 & Ex & D1 & J1);
    [exact L|].
  rewrite Ex, Hb.
  change (skipn (size (open A) - 20) (content (open A))) with (tail_fingerprint A).
  pose proof (tail_fingerprint_length A L) as LP.
  pose proof (refine_select blockSize blockSize_pos A S (tail_fingerprint A)
                (tail_fingerprint_nonempty _ L)
                (blockSize_fingerprint _ (Nat.eq_le_incl _ _ LP))
                best fuel f1 (open S) D1 eq_refl J1 eq_refl Fuel) as R.
  rewrite (occurrences_first S (tail_fingerprint A) 0 p
             (tail_fingerprint_nonempty _ L) (Nat.le_0_l p) Occ) in R.
  - cbn [select] in R. rewrite LP in R.
    apply Nat.ltb_lt in Long. rewrite Long in R.
    destruct R as [g R]. now rewrite R.
  - intros j Hj. apply First. lia.
Qed.

Lemma main_terminates_on_long_overlap_witness :
  main 100 shifted false true true "a" ["b"%string] = Some Terminated.
Proof.
  apply (main_terminates_on_long_overlap 100 shifted false true true
           "a" "b" [] (bytes_of "0123456789abcdefghij")
           (bytes_of "x0123456789abcdefghij-tail") 1).
  - reflexivity.
  - reflexivity.
  - apply Nat.leb_le. reflexivity.
  - vm_compute. reflexivity.
  - intros q Hq. assert (q = 0) by lia. subst q. vm_compute. discriminate.
  - apply Nat.ltb_lt. reflexivity.
  - apply Nat.leb_le. reflexivity.
Defined.

(** X13. Without [--best] the first occurrence decides. When the
    pattern is the last 20 bytes of the predecessor and its first
    occurrence in the successor stands for an overlap that fits into the
    predecessor, the refinement returns the candidate at that
    occurrence after examining it alone, whatever its quota: the 20
    bytes of the fingerprint compare equal, so that at most the [p]
    bytes before them differ and the quota is positive. *)
Theorem refine_takes_first_occurrence
        (B fuel : nat) (f1 f2 : istream) (p : nat) :
  19 <= B -> ioerr f1 = None -> ioerr f2 = None ->
  20 <= size f1 ->
  occurs (content f2) (tail_fingerprint (content f1)) p ->
  (forall q, q < p -> ~ occurs (content f2) (tail_fingerprint (content f1)) q) ->
  p + 20 <= size f1 ->
  size f1 + size f2 + 5 <= fuel ->
  let c := candidate (content f1) (content f2) (tail_fingerprint (content f1)) p in
  (exists g,
     refine B fuel false (tail_fingerprint (content f1)) f1 f2
     = Some (Ok (c, [c]), g)) /\
  bytesDiffering c <= p /\ (0 < quota c)%Q.
Proof.
  intros HB I1 I2 L Occ First Fit Fuel c.
  pose proof (tail_fingerprint_length _ L) as LP.
  pose proof (candidate_differing_bound _ _ p L Occ Fit) as Bd.
  pose proof (candidate_quota_positive _ _ p L Occ Fit) as Pos.
  split; [|split; assumption].
  assert (HB0 : 0 < B) by lia.
  assert (LB : length (tail_fingerprint (content f1)) <= B + 1) by lia.
  pose proof (refine_select B HB0 (content f1) (content f2)
                (tail_fingerprint (content f1))
                (tail_fingerprint_nonempty _ L) LB false fuel f1 f2
                eq_refl eq_refl I1 I2 Fuel) as R.
  rewrite (occurrences_first (content f2) (tail_fingerprint (content f1)) 0 p
             (tail_fingerprint_nonempty _ L) (Nat.le_0_l p) Occ) in R.
  - cbn [select] in R. rewrite LP in R.
    assert (F : (length (content f1) <? p + 20) = false)
      by (apply Nat.ltb_ge; exact Fit).
    rewrite F in R. fold c in R.
    assert (Q : Qgtb (quota c) (quota MatchResult_default) = true).
    { apply Qgtb_true. rewrite quota_default. exact Pos. }
    rewrite Q in R. cbn [negb] in R. rewrite orb_true_r in R.
    destruct R as (ex & g1 & g2 & R & _).
    destruct (refine_examined B fuel false _ f1 f2 c ex (g1, g2) R)
      as [[_ Mem] Early].
    destruct Mem as [Mem|Mem]; [discriminate|].
    destruct ex as [|x older]; [destruct Mem|].
    destruct Early as [Early _].
    destruct older as [|y older].
    2: { assert (H : false = true) by (apply Early; discriminate). discriminate. }
    destruct Mem as [->|[]]. eauto.
  - intros j Hj. apply First. lia.
Qed.

Lemma refine_takes_first_occurrence_witness :
  exists g,
    refine blockSize 200 false (bytes_of "0123456789abcdefghij")
           (open twice_a) (open twice_b)
    = Some (Ok (mkMatchResult true 10 20 10, [mkMatchResult true 10 20 10]), g).
Proof.
  destruct (refine_takes_first_occurrence blockSize 200 (open twice_a)
              (open twice_b) 10) as [(g & E) _].
  - apply Nat.leb_le. reflexivity.
  - reflexivity.
  - reflexivity.
  - apply Nat.leb_le. reflexivity.
  - vm_compute. reflexivity.
  - intros q Hq.
    apply (not_occurs_false (content (open twice_b))).
    assert (All : forallb (fun j => negb (starts_with (skipn j twice_b)
                                            (tail_fingerprint twice_a)))
                          (seq 0 10) = true) by (vm_compute; reflexivity).
    rewrite forallb_forall in All. apply negb_true_iff, All, in_seq. lia.
  - apply Nat.leb_le. reflexivity.
  - apply Nat.leb_le. reflexivity.
  - exists g. exact E.
Defined.



(** ** Quotas *)

(** X15. For a found result with a fixed overlap, the quota falls as
    the number of differing bytes rises, as long as that number stays
    within the overlap: more differing bytes never give a higher quota,
    strictly more give a strictly lower one, none gives 1 and an overlap
    that differs throughout gives 0. *)
Theorem quota_falls_with_differences (r : MatchResult) (d d' : nat) :
  patternFound r = true -> 0 < overlapCount r ->
  d <= d' -> d' <= overlapCount r ->
  (quota (with_bytesDiffering r d') <= quota (with_bytesDiffering r d))%Q /\
  (d < d' ->
   (quota (with_bytesDiffering r d') < quota (with_bytesDiffering r d))%Q) /\
  (quota (with_bytesDiffering r 0) == 1)%Q /\
  (quota (with_bytesDiffering r (overlapCount r)) == 0)%Q.
Proof.
  intros F Pos Le Le'.
  assert (Q : forall k, k <= overlapCount r ->
                        quota (with_bytesDiffering r k)
                        = ratio (overlapCount r - k) (overlapCount r)).
  { intros k Hk. now rewrite quota_found. }
  rewrite !Q by lia. split; [|split; [|split]].
  - apply ratio_antitone; lia.
  - intros Lt. apply ratio_strict; lia.
  - rewrite Nat.sub_0_r. now apply ratio_full.
  - rewrite Nat.sub_diag. apply ratio_zero.
Qed.

Lemma quota_falls_with_differences_witness :
  (quota (mkMatchResult true 10 20 10) < quota (mkMatchResult true 10 20 3))%Q.
Proof.
  destruct (quota_falls_with_differences (mkMatchResult true 10 20 0) 3 10)
    as (_ & Lt & _).
  - reflexivity.
  - apply Nat.ltb_lt. reflexivity.
  - apply Nat.leb_le. reflexivity.
  - apply Nat.leb_le. reflexivity.
  - apply Lt. apply Nat.ltb_lt. reflexivity.
Defined.

(** ** Assembly *)

(** X16. [mergeFiles] writes bytes in file order only. When the output
    file and all input files open and there is a search result for every
    pair of neighbours, as [main] passes them, the output begins with
    the whole first file, whatever the search results say, and it is the
    beginning of the full assembly (each file from its cut offset to
    its end): nothing is written twice, out of order, or from before a
    cut offset. *)
Theorem mergeFiles_writes_in_order
        (fs : filesystem) (file0 : string) (files : list string)
        (c0 : list byte) (cs : list (list byte)) (searchResults : list MatchResult) :
  fs file0 = Some c0 ->
  Forall2 (fun name bytes => fs name = Some bytes) files cs ->
  length files <= length searchResults ->
  exists outputFile middle rest,
    mergeFiles fs (file0 :: files) searchResults true = Some outputFile /\
    written outputFile = c0 ++ middle /\
    assembled (c0 :: cs) searchResults 0 = written outputFile ++ rest.
Proof.
  intros H0 All _. cbn [mergeFiles].
  destruct (merge_loop_prefix fs searchResults (file0 :: files) (c0 :: cs) 0
              (mkOut [] false)) as [rest R].
  { constructor; assumption. }
  rewrite (merge_step fs file0 files c0 searchResults 0 (mkOut [] false) H0) in *.
  destruct (merge_loop_extends fs searchResults files 1
              (insert_rdbuf (mkOut [] false)
                            (set_gpos (open c0) (cut_offset searchResults 0))))
    as [middle M].
  destruct (insert_rdbuf_written (mkOut [] false) c0 (cut_offset searchResults 0)
              eq_refl) as [W _].
  rewrite W in M. cbn [written cut_offset skipn app] in M.
  eexists. exists middle, rest.
  split; [reflexivity|]. split; [exact M|exact R].
Qed.

Lemma mergeFiles_writes_in_order_witness :
  exists outputFile middle rest,
    mergeFiles with_gap ["first"%string; "gap"%string; "third"%string]
               [MatchResult_default; MatchResult_default] true
    = Some outputFile /\
    written outputFile = bytes_of "first" ++ middle /\
    bytes_of "firstthird" = written outputFile ++ rest.
Proof.
  apply (mergeFiles_writes_in_order with_gap "first" ["gap"%string; "third"%string]
           (bytes_of "first") [[]; bytes_of "third"]
           [MatchResult_default; MatchResult_default]).
  - reflexivity.
  - repeat constructor.
  - apply Nat.leb_le. reflexivity.
Defined.

(** ** The fingerprint *)

(** X17. The fingerprint of a file of at least 20 bytes does not depend
    on what was done with its stream before. Whatever the flags and the
    position of the stream (device without fault), the extraction gives
    the last 20 bytes of the file: a pattern of length 20 that occurs at
    offset [size - 20]; and extracting once more from the stream it
    leaves gives the same pattern. *)
Theorem extract_pattern_of_long_file (f : istream) :
  ioerr f = None -> 20 <= size f ->
  exists f',
    extract_pattern f = (Ok (tail_fingerprint (content f)), f') /\
    length (tail_fingerprint (content f)) = 20 /\
    occurs (content f) (tail_fingerprint (content f)) (size f - 20) /\
    fst (extract_pattern f') = Ok (tail_fingerprint (content f)).
Proof.
  intros I L.
  destruct (extract_pattern_long f I L) as (f' & E & C & J).
  exists f'. split; [exact E|].
  split; [now apply tail_fingerprint_length|]. split.
  - unfold occurs, tail_fingerprint, size. apply firstn_all2.
    rewrite !length_skipn. lia.
  - destruct (extract_pattern_long f' J) as (f'' & E' & _).
    + unfold size in *. now rewrite C.
    + rewrite E'. unfold size. now rewrite C.
Qed.

Lemma extract_pattern_of_long_file_witness :
  fst (extract_pattern (mkStream segment_a 7 true true false None []))
  = Ok (bytes_of "0123456789abcdefghij").
Proof.
  destruct (extract_pattern_of_long_file
              (mkStream segment_a 7 true true false None []))
    as (f' & E & _).
  - reflexivity.
  - apply Nat.leb_le. reflexivity.
  - rewrite E. reflexivity.
Defined.

(** ** The exit status *)

(** X18. [main] ends with status 1 only when an input file does not
    open in the scan phase, and then writes nothing; a run that ends with
    status 0 has opened every input file in the scan phase and holds one
    search result per pair of neighbours. *)
Theorem main_exit_status
        (fuel : nat) (fs : filesystem) (best outputOpens decision : bool)
        (file0 : string) (files : list string)
        (status : nat) (output : option (list byte)) :
  main fuel fs best outputOpens decision file0 files = Some (Exit status output) ->
  (status = 1 /\ output = None /\
   Exists (fun name => fs name = None) (file0 :: files)) \/
  (status = 0 /\
   Forall (fun name => fs name <> None) (file0 :: files) /\
   exists bytes searchResults,
     fs file0 = Some bytes /\
     scan blockSize fuel best fs (open bytes) files [] = Some (ScanDone searchResults) /\
     length searchResults = length files).
Proof.
  unfold main. destruct (fs file0) as [bytes|] eqn:H0.
  - destruct (scan blockSize fuel best fs (open bytes) files [])
      as [[rs| |]|] eqn:Sc; try discriminate.
    + intros E. right.
      destruct (scan_done_opened _ _ _ _ _ _ _ _ Sc) as [All Len].
      assert (status = 0) by (destruct decision; congruence).
      split; [assumption|]. split.
      * constructor; [congruence|exact All].
      * exists bytes, rs. auto.
    + intros E. injection E as <- <-. left.
      split; [reflexivity|]. split; [reflexivity|].
      right. eapply scan_open_failed. exact Sc.
  - intros E. injection E as <- <-. left.
    split; [reflexivity|]. split; [reflexivity|]. now left.
Qed.

Lemma main_exit_status_witness :
  main 100 recording false true true "a" ["b"%string; "missing"%string]
  = Some (Exit 1 None) /\
  Exists (fun name => recording name = None)
         ["a"%string; "b"%string; "missing"%string].
Proof.
  assert (E : main 100 recording false true true "a" ["b"%string; "missing"%string]
              = Some (Exit 1 None)) by (vm_compute; reflexivity).
  split; [exact E|].
  destruct (main_exit_status 100 recording false true true "a"
              ["b"%string; "missing"%string] 1 None E)
    as [(_ & _ & Ex)|(Z & _)]; [exact Ex|discriminate].
Defined.

(** ** The best match, over the whole successor *)

(** X19. With [--best], a result that the refinement returns without
    its quota passing 0.7 is the best over the whole successor: no
    occurrence of the pattern anywhere in the successor gives a
    candidate with a higher quota (non-empty pattern of at most a block
    plus one byte, devices without fault). So the loop gives up only
    after it has scored every occurrence. *)
Theorem refine_best_over_all_occurrences
        (B fuel : nat) (P : list byte) (f1 f2 : istream)
        (r : MatchResult) (ex : list MatchResult) (g : istream * istream) :
  0 < B -> P <> [] -> length P <= B + 1 ->
  ioerr f1 = None -> ioerr f2 = None ->
  size f1 + size f2 + 5 <= fuel ->
  refine B fuel true P f1 f2 = Some (Ok (r, ex), g) ->
  (quota r <= threshold)%Q ->
  forall p, occurs (content f2) P p ->
            (quota (candidate (content f1) (content f2) P p) <= quota r)%Q.
Proof.
  intros HB NE LB I1 I2 Fuel R Le p Occ.
  pose proof (refine_select B HB (content f1) (content f2) P NE LB true fuel f1 f2
                eq_refl eq_refl I1 I2 Fuel) as Sel.
  destruct (select true (content f1) (content f2) P MatchResult_default
              (occurrences (content f2) P 0)) as [r'|] eqn:E.
  - destruct Sel as (ex' & g1 & g2 & R' & _).
    assert (r' = r) by congruence. subst r'.
    destruct (select_optimal _ _ _ _ _ _ E) as [_ All].
    apply (All Le). now apply occurrences_In.
  - destruct Sel as [g' R']. congruence.
Qed.

Lemma refine_best_over_all_occurrences_witness :
  exists ex g,
    refine blockSize 200 true (bytes_of "ab") (open (bytes_of "zzzzzzzzab"))
           (open (bytes_of "xxxxabyyab"))
    = Some (Ok (mkMatchResult true 4 2 4, ex), g) /\
    (quota (candidate (bytes_of "zzzzzzzzab") (bytes_of "xxxxabyyab") (bytes_of "ab") 8)
     <= quota (mkMatchResult true 4 2 4))%Q.
Proof.
  destruct (refine blockSize 200 true (bytes_of "ab") (open (bytes_of "zzzzzzzzab"))
                   (open (bytes_of "xxxxabyyab"))) as [[[[r ex]|] g]|] eqn:E;
    try (vm_compute in E; discriminate).
  assert (R : r = mkMatchResult true 4 2 4).
  { vm_compute in E. now injection E as <- _ _. }
  subst r. exists ex, g. split; [reflexivity|].
  apply (refine_best_over_all_occurrences blockSize 200 (bytes_of "ab")
           (open (bytes_of "zzzzzzzzab")) (open (bytes_of "xxxxabyyab"))
           (mkMatchResult true 4 2 4) ex g).
  - apply Nat.ltb_lt. reflexivity.
  - discriminate.
  - apply Nat.leb_le. reflexivity.
  - reflexivity.
  - reflexivity.
  - apply Nat.leb_le. reflexivity.
  - exact E.
  - vm_compute. discriminate.
  - vm_compute. reflexivity.
Defined.
